(** * euporie: terminal capability probing and the render-output cache

    A shallow embedding of [euporie/term.py] (escape-sequence classifier,
    query/response engine, capability accessors) and of
    [euporie/output/control.py] (the per-control render cache), together
    with the properties established about them.

    Python strings are sequences of Unicode code points; they are modelled
    as lists of [N].  Regular expressions are kept as syntax trees that
    follow the pattern text, and are run by a backtracking matcher with the
    greedy, leftmost-alternative-first discipline of Python's [re]. *)

From Stdlib Require Import String Ascii NArith ZArith Bool Arith Lia List.
Import ListNotations.

Set Implicit Arguments.

(** ** Python strings *)

Module Py.

Definition char := N.
Definition str := list char.

Definition chr (a : ascii) : char := N_of_ascii a.

(** The code points of a literal. *)
Definition codes (s : string) : str := map N_of_ascii (list_ascii_of_string s).

Definition ESC : char := 27%N.
Definition BEL : char := 7%N.
Definition LF : char := 10%N.
Definition BSL : char := 92%N.
Definition DQUOTE : char := 34%N.
Definition EN_DASH : char := 8211%N.

Fixpoint str_eqb (a b : str) : bool :=
  match a, b with
  | [], [] => true
  | x :: a', y :: b' => N.eqb x y && str_eqb a' b'
  | _, _ => false
  end.

(** Membership in a literal set of characters. *)
Definition one_of (set : str) (c : char) : bool := existsb (N.eqb c) set.

(** A range [lo-hi] of a character class. *)
Definition between (lo hi : ascii) (c : char) : bool :=
  N.leb (chr lo) c && N.leb c (chr hi).

(** [s[:n]] *)
Definition take (n : nat) (s : str) : str := firstn n s.

(** [s.startswith(p)] *)
Fixpoint startswith (p s : str) : bool :=
  match p, s with
  | [], _ => true
  | x :: p', y :: s' => N.eqb x y && startswith p' s'
  | _ :: _, [] => false
  end.

(** [s.lstrip(chars)] *)
Fixpoint lstrip (chars s : str) : str :=
  match s with
  | c :: s' => if one_of chars c then lstrip chars s' else s
  | [] => []
  end.

(** [s.rstrip(chars)] *)
Definition rstrip (chars s : str) : str := rev (lstrip chars (rev s)).

(** [s.split(sep)] for a one-character separator: always at least one field. *)
Fixpoint split_on (sep : char) (cur_rev : str) (s : str) : list str :=
  match s with
  | [] => [rev cur_rev]
  | c :: s' =>
      if N.eqb c sep then rev cur_rev :: split_on sep [] s'
      else split_on sep (c :: cur_rev) s'
  end.

Definition split (sep : char) (s : str) : list str := split_on sep [] s.

(** The line boundaries of [str.splitlines] other than the pair CR LF. *)
Definition is_linebreak (c : char) : bool :=
  one_of [10; 11; 12; 13; 28; 29; 30; 133; 8232; 8233]%N c.

(** [s.splitlines()]: no empty last line, CR LF counts once. *)
Fixpoint splitlines_from (cur_rev : str) (s : str) : list str :=
  match s with
  | [] => match cur_rev with [] => [] | _ => [rev cur_rev] end
  | c :: s' =>
      if N.eqb c 13 then
        match s' with
        | d :: s'' =>
            if N.eqb d 10 then rev cur_rev :: splitlines_from [] s''
            else rev cur_rev :: splitlines_from [] s'
        | [] => [rev cur_rev]
        end
      else if is_linebreak c then rev cur_rev :: splitlines_from [] s'
      else splitlines_from (c :: cur_rev) s'
  end.

Definition splitlines (s : str) : list str := splitlines_from [] s.

(** The value of an ASCII decimal digit. *)
Definition digit_val (c : char) : Z := Z.of_N c - 48.

(** [int(s)] on a string of ASCII decimal digits. *)
Definition int_of (s : str) : Z :=
  fold_left (fun acc c => 10 * acc + digit_val c)%Z s 0%Z.

End Py.

Import Py.

(** ** Regular expressions *)

Module Re.

(** The constructs the patterns of [term.py] use. *)
Inductive re : Type :=
| Chr (p : char -> bool)          (* one character of a class *)
| Seq (a b : re)                  (* ab *)
| Alt (a b : re)                  (* a|b, left first *)
| Star (a : re)                   (* a*, greedy *)
| Rep (lo hi : nat) (a : re)      (* a{lo,hi}, greedy *)
| Group (name : string) (a : re)  (* (?P<name>a) *)
| Ahead (a : re).                 (* (?=a) *)

Definition Plus (a : re) : re := Seq a (Star a).
Definition Opt (a : re) : re := Rep 0 1 a.
Definition Lit (c : char) : re := Chr (N.eqb c).

(** A literal string followed by [r]. *)
Fixpoint Str (s : str) (r : re) : re :=
  match s with
  | [] => r
  | c :: s' => Seq (Lit c) (Str s' r)
  end.

(** The groups that took part in a match, most recent first. *)
Definition env := list (string * str).

Section Matcher.

Variable R : Type.

Definition cont := str -> env -> option R.

Definition or_else (x : option R) (y : unit -> option R) : option R :=
  match x with
  | Some r => Some r
  | None => y tt
  end.

(** The text consumed between input [s] and its suffix [s']. *)
Definition consumed (s s' : str) : str := firstn (length s - length s') s.

(** The loop of a greedy [a*]: one more turn of the body if it can be
    had, the rest of the pattern otherwise; a turn has to consume input.
    [n] bounds the number of turns and is never reached from [S (length s)]. *)
Fixpoint star_loop (body : str -> env -> cont -> option R) (k : cont)
    (n : nat) (s : str) (e : env) {struct n} : option R :=
  match n with
  | O => k s e
  | S n' =>
      or_else
        (body s e (fun s' e' =>
           if Nat.ltb (length s') (length s) then star_loop body k n' s' e'
           else None))
        (fun _ => k s e)
  end.

(** The loop of a greedy [a{lo,hi}]. *)
Fixpoint rep_loop (body : str -> env -> cont -> option R) (k : cont)
    (hi lo : nat) (s : str) (e : env) {struct hi} : option R :=
  match hi with
  | O => match lo with O => k s e | S _ => None end
  | S hi' =>
      or_else
        (body s e (fun s' e' => rep_loop body k hi' (Nat.pred lo) s' e'))
        (fun _ => match lo with O => k s e | S _ => None end)
  end.

End Matcher.

(** [mt r s e k]: match [r] at the head of [s], then run [k] on what is
    left; alternatives are tried in the order of a backtracking matcher.
    A lookahead is settled on its own: once it holds, the rest of the
    pattern cannot reopen it. *)
Fixpoint mt (r : re) {R : Type} (s : str) (e : env) (k : cont R)
    {struct r} : option R :=
  match r with
  | Chr p =>
      match s with
      | c :: s' => if p c then k s' e else None
      | [] => None
      end
  | Seq a b => mt a s e (fun s' e' => mt b s' e' k)
  | Alt a b => or_else (mt a s e k) (fun _ => mt b s e k)
  | Star a => star_loop (mt a) k (S (length s)) s e
  | Rep lo hi a => rep_loop (mt a) k hi lo s e
  | Group name a =>
      mt a s e (fun s' e' => k s' ((name, consumed s s') :: e'))
  | Ahead a =>
      match mt a s e (fun _ e' => Some e') with
      | Some e' => k s e'
      | None => None
      end
  end.

(** The names of the groups of a pattern, in pattern order. *)
Fixpoint groupnames (r : re) : list string :=
  match r with
  | Chr _ => []
  | Seq a b | Alt a b => groupnames a ++ groupnames b
  | Star a | Rep _ _ a | Ahead a => groupnames a
  | Group name a => name :: groupnames a
  end.

(** A match object: the text before the match, the matched text, the text
    after it, and the groups. *)
Record Match : Type := mkMatch {
  m_pre : str;
  m_text : str;
  m_post : str;
  m_env : env
}.

(** [pattern.match(s)]: anchored at the start of [s]. *)
Definition match_ (r : re) (s : str) : option Match :=
  mt r s [] (fun s' e => Some (mkMatch [] (consumed s s') s' e)).

Fixpoint search_from (r : re) (pre_rev : str) (s : str) : option Match :=
  match match_ r s with
  | Some m => Some (mkMatch (rev pre_rev) (m_text m) (m_post m) (m_env m))
  | None =>
      match s with
      | [] => None
      | c :: s' => search_from r (c :: pre_rev) s'
      end
  end.

(** [pattern.search(s)]: the leftmost match. *)
Definition search (r : re) (s : str) : option Match := search_from r [] s.

(** [re.sub(pattern, '', s, 1)]: the first match is removed. *)
Definition sub_first_empty (r : re) (s : str) : str :=
  match search r s with
  | Some m => m_pre m ++ m_post m
  | None => s
  end.

Fixpoint findall_fuel (n : nat) (r : re) (s : str) : list str :=
  match n with
  | O => []
  | S n' =>
      match search r s with
      | None => []
      | Some m =>
          m_text m ::
          match m_text m, m_post m with
          | [], [] => []
          | [], _ :: t => findall_fuel n' r t
          | _ :: _, post => findall_fuel n' r post
          end
      end
  end.

(** [pattern.findall(s)] for a pattern without groups: the matched texts,
    left to right, without overlap. *)
Definition findall (r : re) (s : str) : list str :=
  findall_fuel (S (length s)) r s.

Fixpoint lookup (name : string) (e : env) : option str :=
  match e with
  | [] => None
  | (n, v) :: e' => if String.eqb n name then Some v else lookup name e'
  end.

(** [match.groupdict()]: every named group of the pattern, [None] for a
    group that did not take part in the match. *)
Definition groupdict (r : re) (m : Match) : list (string * option str) :=
  map (fun n => (n, lookup n (m_env m))) (groupnames r).

(** [d.get(key, default)] on such a dictionary: the default only stands in
    for a missing key, not for a key bound to [None]. *)
Fixpoint dict_get (d : list (string * option str)) (key : string)
    (default : option str) : option str :=
  match d with
  | [] => default
  | (n, v) :: d' => if String.eqb n key then v else dict_get d' key default
  end.

(** *** What a match is

    [matches r s e s' e']: pattern [r] can take [s] to its suffix [s'],
    turning the groups [e] into [e'].  The matcher only ever answers with
    such matches (lemma [mt_sound]); which of them it answers with is a
    matter of its order of attempts. *)
Inductive matches : re -> str -> env -> str -> env -> Prop :=
| MChr p c s e : p c = true -> matches (Chr p) (c :: s) e s e
| MSeq a b s e s1 e1 s2 e2 :
    matches a s e s1 e1 -> matches b s1 e1 s2 e2 ->
    matches (Seq a b) s e s2 e2
| MAltL a b s e s' e' : matches a s e s' e' -> matches (Alt a b) s e s' e'
| MAltR a b s e s' e' : matches b s e s' e' -> matches (Alt a b) s e s' e'
| MStarStop a s e : matches (Star a) s e s e
| MStarTurn a s e s1 e1 s2 e2 :
    matches a s e s1 e1 -> matches (Star a) s1 e1 s2 e2 ->
    matches (Star a) s e s2 e2
| MRepStop a hi s e : matches (Rep 0 hi a) s e s e
| MRepTurn a lo hi s e s1 e1 s2 e2 :
    matches a s e s1 e1 -> matches (Rep (Nat.pred lo) hi a) s1 e1 s2 e2 ->
    matches (Rep lo (S hi) a) s e s2 e2
| MGroup name a s e s' e' :
    matches a s e s' e' ->
    matches (Group name a) s e s' ((name, consumed s s') :: e')
| MAhead a s e s' e' : matches a s e s' e' -> matches (Ahead a) s e s e'.

(** A greedy run of one character class, without the turn counter. *)
Fixpoint star_class {R} (p : char -> bool) (s : str) (e : env)
    (k : cont R) : option R :=
  match s with
  | c :: s' =>
      if p c then or_else (star_class p s' e k) (fun _ => k s e) else k s e
  | [] => k [] e
  end.

(** The longest head of [s] within class [p], and what follows it. *)
Fixpoint span (p : char -> bool) (s : str) : str * str :=
  match s with
  | c :: s' =>
      if p c then let '(run, rest) := span p s' in (c :: run, rest)
      else ([], s)
  | [] => ([], [])
  end.

(** Whether [s] is empty or starts outside class [p]. *)
Definition stops (p : char -> bool) (s : str) : bool :=
  match s with
  | c :: _ => negb (p c)
  | [] => true
  end.

(** The longest head of [s] within class [p] of at most [n] characters. *)
Fixpoint span_upto (n : nat) (p : char -> bool) (s : str) : str * str :=
  match n, s with
  | S n', c :: s' =>
      if p c then let '(run, rest) := span_upto n' p s' in (c :: run, rest)
      else ([], s)
  | _, _ => ([], s)
  end.

(** The first run of class [p] in [s]: what precedes it, the run, and
    what follows. *)
Fixpoint first_run (p : char -> bool) (s : str) : option (str * str * str) :=
  match s with
  | [] => None
  | c :: s' =>
      if p c then let '(run, rest) := span p s' in Some ([], c :: run, rest)
      else
        match first_run p s' with
        | Some (pre, run, rest) => Some (c :: pre, run, rest)
        | None => None
        end
  end.

(** The runs of class [p] in [s], left to right; [n] bounds their number. *)
Fixpoint runs_fuel (n : nat) (p : char -> bool) (s : str) : list str :=
  match n with
  | O => []
  | S n' =>
      match first_run p s with
      | Some (_, run, rest) => run :: runs_fuel n' p rest
      | None => []
      end
  end.

Definition runs (p : char -> bool) (s : str) : list str :=
  runs_fuel (S (length s)) p s.

End Re.

Import Re.

(** ** [term.py]: patterns, query engine and capability accessors *)

Module Term.

Local Open Scope string_scope.
Local Open Scope list_scope.

Module QueryCodes.
Definition device : str := ESC :: codes "[>0c".
Definition pixel_dimensions : str := ESC :: codes "[14t".
Definition background_color : str := ESC :: codes "]11;?" ++ [ESC; BSL].
Definition sixel : str := ESC :: codes "[?1;1;0S".
Definition kitty : str :=
  (ESC :: codes "_Gi=1,s=1,v=1,a=q,t=d,f=24;AAAA" ++ [ESC; BSL])
  ++ (ESC :: codes "[1K") ++ (ESC :: codes "[1G").
End QueryCodes.

Section Patterns.

(** [\d] on a [str] pattern is the Unicode decimal-digit test; the table is
    Python's, and only its ASCII part is fixed here. *)
Variable unicode_decimal : char -> bool.

Definition ascii_digit (c : char) : bool := between "0" "9" c.

Definition decimal_table_ok : Prop :=
  forall c : char, (c < 128)%N -> unicode_decimal c = ascii_digit c.

(** [.] without DOTALL: anything but a newline. *)
Definition dot (c : char) : bool := negb (N.eqb c LF).

(** [[0-9:;<=>?]] *)
Definition csi_params_class (c : char) : bool :=
  between "0" "9" c || one_of (codes ":;<=>?") c.

(** The class of [csi_inter]: the punctuation from [!] to [/], the double
    quote included. *)
Definition csi_inter_class (c : char) : bool :=
  one_of (chr "!" :: DQUOTE :: codes "#$%&'()*+,-./") c.

(** [[A-Za-z@[\]^_`a-z{|}~]], where the sign between the second [a] and
    [z] is typed as U+2013, a dash that makes no range: the three are
    literal members. *)
Definition csi_final_class (c : char) : bool :=
  between "A" "Z" c || between "a" "z" c
  || one_of (codes "@[]^_`" ++ chr "a" :: EN_DASH :: chr "z" :: codes "{|}~") c.

(** [[NOP[\\\]X^_]] *)
Definition fe_class (c : char) : bool :=
  one_of (codes "NOP[" ++ BSL :: codes "]X^_") c.

(** [\x1b\\] *)
Definition ST : re := Seq (Lit ESC) (Lit BSL).

(** [\x1b\\|\x07] *)
Definition ST_or_BEL : re := Alt ST (Lit BEL).

Definition CONTROL_RE : re :=
  Seq (Lit ESC)
    (Alt
       (Group "csi"
          (Seq (Lit (chr "["))
          (Seq (Group "csi_params" (Star (Chr csi_params_class)))
          (Seq (Group "csi_inter" (Star (Chr csi_inter_class)))
               (Group "csi_final" (Chr csi_final_class))))))
    (Alt
       (Group "osc"
          (Seq (Lit (chr "]"))
          (Seq (Group "osc_string" (Seq (Star (Chr dot)) (Ahead ST_or_BEL)))
               (Group "osc_term" ST_or_BEL))))
    (Alt
       (Group "apc"
          (Seq (Lit (chr "_"))
          (Seq (Group "apc_string" (Seq (Star (Chr dot)) (Ahead ST)))
               (Group "apc_term" ST))))
       (Group "fe" (Chr fe_class))))).

Definition hexdigit (c : char) : bool :=
  between "0" "9" c || between "A" "F" c || between "a" "f" c.

(** [\x1b\[\>(\d;?)+c] *)
Definition device_pattern : re :=
  Seq (Lit ESC) (Seq (Lit (chr "[")) (Seq (Lit (chr ">"))
    (Seq (Plus (Seq (Chr unicode_decimal) (Opt (Lit (chr ";")))))
         (Lit (chr "c"))))).

(** [11;rgb:(?P<r>[0-9A-Fa-f]{2,4})/(?P<g>[0-9A-Fa-f]{2,4})/(?P<b>[0-9A-Fa-f]{2,4})] *)
Definition background_color_pattern : re :=
  Str (codes "11;rgb:")
    (Seq (Group "r" (Rep 2 4 (Chr hexdigit)))
    (Seq (Lit (chr "/"))
    (Seq (Group "g" (Rep 2 4 (Chr hexdigit)))
    (Seq (Lit (chr "/"))
         (Group "b" (Rep 2 4 (Chr hexdigit))))))).

(** [4;(?P<y>\d+);(?P<x>\d+)] *)
Definition pixel_dimensions_pattern : re :=
  Str (codes "4;")
    (Seq (Group "y" (Plus (Chr unicode_decimal)))
    (Seq (Lit (chr ";"))
         (Group "x" (Plus (Chr unicode_decimal))))).

(** [\d+] *)
Definition sixel_pattern : re := Plus (Chr unicode_decimal).

End Patterns.

(** *** The process and its terminal *)

Inductive exn : Type :=
| TypeError
| AttributeError
| ZeroDivisionError
| ReadError.          (* whatever [sys.stdin.read] raised *)

(** The attribute set of [termios.tcgetattr]: the flag words and the two
    control characters [tty.setcbreak] touches. *)
Record tattr : Type := mkTattr {
  iflag : N;
  oflag : N;
  cflag : N;
  lflag : N;
  cc_vmin : N;
  cc_vtime : N
}.

Definition ECHO : N := 8.
Definition ICANON : N := 2.

(** [tty.setcbreak]: echo and canonical input off, reads return after one
    byte. *)
Definition cbreak_of (a : tattr) : tattr :=
  mkTattr (iflag a) (oflag a) (cflag a)
          (N.ldiff (lflag a) (N.lor ECHO ICANON)) 1 0.

Inductive event : Type :=
| EQuery (query_code : str)    (* entry of [_query_term] *)
| ETcgetattr
| ESetcbreak
| EWriteRaw (data : str)
| EFlush
| ERead
| ETcsetattr (a : tattr).

Record world : Type := mkWorld {
  have_termios : bool;             (* can termios, tty and fcntl be imported *)
  term_attr : tattr;               (* the attributes of stdin right now *)
  stdin : list (option char);      (* what the coming [read(1)] calls give:
                                      a character, or [None] when the call
                                      raises; at the end the call blocks *)
  winsize : Z * Z * Z * Z;         (* TIOCGWINSZ: rows, cols, xpixels, ypixels *)
  out_size : Z * Z;                (* [output.get_size()]: rows, columns *)
  sixel_memo : option bool;        (* the [lru_cache] of [has_sixel_graphics] *)
  kitty_memo : option bool;        (* the [lru_cache] of [has_kitty_graphics] *)
  trace : list event               (* effects so far, latest first *)
}.

Definition log (ev : event) (w : world) : world :=
  mkWorld (have_termios w) (term_attr w) (stdin w) (winsize w) (out_size w)
          (sixel_memo w) (kitty_memo w) (ev :: trace w).

Definition set_term_attr (a : tattr) (w : world) : world :=
  mkWorld (have_termios w) a (stdin w) (winsize w) (out_size w)
          (sixel_memo w) (kitty_memo w) (trace w).

Definition set_stdin (i : list (option char)) (w : world) : world :=
  mkWorld (have_termios w) (term_attr w) i (winsize w) (out_size w)
          (sixel_memo w) (kitty_memo w) (trace w).

Definition set_sixel_memo (v : option bool) (w : world) : world :=
  mkWorld (have_termios w) (term_attr w) (stdin w) (winsize w) (out_size w)
          v (kitty_memo w) (trace w).

Definition set_kitty_memo (v : option bool) (w : world) : world :=
  mkWorld (have_termios w) (term_attr w) (stdin w) (winsize w) (out_size w)
          (sixel_memo w) v (trace w).

(** How a call ends: with a value, with an exception, or not at all. *)
Inductive outcome (A : Type) : Type :=
| Ret (a : A)
| Raise (e : exn)
| Block.

Arguments Ret {A} a.
Arguments Raise {A} e.
Arguments Block {A}.

Definition M (A : Type) : Type := world -> outcome A * world.

Definition ret {A} (a : A) : M A := fun w => (Ret a, w).
Definition raise {A} (e : exn) : M A := fun w => (Raise e, w).

Definition bind {A B} (m : M A) (f : A -> M B) : M B :=
  fun w =>
    match m w with
    | (Ret a, w') => f a w'
    | (Raise e, w') => (Raise e, w')
    | (Block, w') => (Block, w')
    end.

Notation "x <- m ;; k" := (bind m (fun x => k))
  (at level 61, m at next level, right associativity).
Notation "m ;;; k" := (bind m (fun _ => k))
  (at level 61, right associativity).

(** [try: body finally: fin]: the handler runs when the body is left, by
    return or by exception; a body that never ends never reaches it. *)
Definition try_finally {A} (body : M A) (fin : M unit) : M A :=
  fun w =>
    match body w with
    | (Ret a, w') =>
        match fin w' with
        | (Ret _, w'') => (Ret a, w'')
        | (Raise e, w'') => (Raise e, w'')
        | (Block, w'') => (Block, w'')
        end
    | (Raise e, w') =>
        match fin w' with
        | (Ret _, w'') => (Raise e, w'')
        | (Raise e', w'') => (Raise e', w'')
        | (Block, w'') => (Block, w'')
        end
    | (Block, w') => (Block, w')
    end.

Definition tcgetattr : M tattr :=
  fun w => (Ret (term_attr w), log ETcgetattr w).

Definition setcbreak : M unit :=
  fun w => (Ret tt, log ESetcbreak (set_term_attr (cbreak_of (term_attr w)) w)).

Definition tcsetattr (a : tattr) : M unit :=
  fun w => (Ret tt, log (ETcsetattr a) (set_term_attr a w)).

Definition write_raw (data : str) : M unit :=
  fun w => (Ret tt, log (EWriteRaw data) w).

Definition flush : M unit :=
  fun w => (Ret tt, log EFlush w).

(** The entries of a [groupdict]. *)
Definition dict := list (string * option str).

(** The end of [_query_term]: [CONTROL_RE.search(output)] and, on a
    match, its [groupdict()]. *)
Definition classify (output : str) : option dict :=
  match search CONTROL_RE output with
  | Some m => Some (groupdict CONTROL_RE m)
  | None => None
  end.

(** The dictionaries of the four kinds of match. *)
Definition csi_dict (params inter final : str) : dict :=
  [("csi", Some (chr "[" :: params ++ inter ++ final));
   ("csi_params", Some params); ("csi_inter", Some inter);
   ("csi_final", Some final);
   ("osc", None); ("osc_string", None); ("osc_term", None);
   ("apc", None); ("apc_string", None); ("apc_term", None); ("fe", None)].

Definition osc_dict (payload term : str) : dict :=
  [("csi", None); ("csi_params", None); ("csi_inter", None);
   ("csi_final", None);
   ("osc", Some (chr "]" :: payload ++ term));
   ("osc_string", Some payload); ("osc_term", Some term);
   ("apc", None); ("apc_string", None); ("apc_term", None); ("fe", None)].

Definition apc_dict (payload term : str) : dict :=
  [("csi", None); ("csi_params", None); ("csi_inter", None);
   ("csi_final", None);
   ("osc", None); ("osc_string", None); ("osc_term", None);
   ("apc", Some (chr "_" :: payload ++ term));
   ("apc_string", Some payload); ("apc_term", Some term); ("fe", None)].

Definition fe_dict (c : char) : dict :=
  [("csi", None); ("csi_params", None); ("csi_inter", None);
   ("csi_final", None);
   ("osc", None); ("osc_string", None); ("osc_term", None);
   ("apc", None); ("apc_string", None); ("apc_term", None);
   ("fe", Some [c])].

Section Engine.

Variable unicode_decimal : char -> bool.

(** The [while True] loop of [_query_term], by recursion on the pending
    input: every turn reads one character. *)
Fixpoint read_loop (query_code : str) (input : list (option char))
    (output : str) (output_started query_sent : bool) (w : world)
    : outcome str * world :=
  match input with
  | [] => (Block, w)
  | None :: rest => (Raise ReadError, log ERead (set_stdin rest w))
  | Some c :: rest =>
      let w1 := log ERead (set_stdin rest w) in
      let output := output ++ [c] in
      let w2 :=
        if query_sent then w1
        else log EFlush (log (EWriteRaw query_code) w1) in
      match search (device_pattern unicode_decimal) output with
      | Some _ =>
          if negb output_started then
            read_loop query_code rest [] true true
              (log EFlush (log (EWriteRaw QueryCodes.device) w2))
          else (Ret output, w2)
      | None => read_loop query_code rest output output_started true w2
      end
  end.

Definition _query_term (query_code : str) : M (option dict) :=
  fun w0 =>
    let w := log (EQuery query_code) w0 in
    if have_termios w then
      (attr <- tcgetattr ;;
       output <-
         try_finally
           (setcbreak ;;;
            write_raw QueryCodes.device ;;;
            flush ;;;
            (fun w => read_loop query_code (stdin w) [] false false w))
           (tcsetattr attr) ;;
       let output := sub_first_empty (device_pattern unicode_decimal) output in
       match search CONTROL_RE output with
       | Some m => ret (Some (groupdict CONTROL_RE m))
       | None => ret None
       end) w
    else (Ret None, w).

Definition _tiocgwnsz : M (Z * Z * Z * Z) :=
  fun w =>
    if have_termios w then (Ret (winsize w), w)
    else (Ret (0, 0, 0, 0)%Z, w).

Definition get_size : M (Z * Z) := fun w => (Ret (out_size w), w).

(** Truth value of an optional dictionary. *)
Definition truthy (r : option dict) : option dict :=
  match r with
  | Some ((_ :: _) as d) => Some d
  | _ => None
  end.

(** [s[:2]] where [s] may be [None]. *)
Definition slice2 (s : option str) : M str :=
  match s with
  | Some v => ret (take 2 v)
  | None => raise TypeError
  end.

Definition bg_color : M (option str) :=
  result <- _query_term QueryCodes.background_color ;;
  match truthy result with
  | Some result =>
      match dict_get result "osc_string" None with
      | Some ((_ :: _) as oscs) =>
          match match_ background_color_pattern oscs with
          | Some m =>
              let colors := groupdict background_color_pattern m in
              match colors with
              | _ :: _ =>
                  if Nat.leb 3 (length colors) then
                    r <- slice2 (dict_get colors "r" (Some (codes "00"))) ;;
                    g <- slice2 (dict_get colors "g" (Some (codes "00"))) ;;
                    b <- slice2 (dict_get colors "b" (Some (codes "00"))) ;;
                    ret (Some (chr "#" :: r ++ g ++ b))
                  else ret None
              | [] => ret None
              end
          | None => ret None
          end
      | _ => ret None
      end
  | None => ret None
  end.

(** [pattern.match(s)] where [s] may be [None]. *)
Definition match_opt (r : re) (s : option str) : M (option Match) :=
  match s with
  | Some v => ret (match_ r v)
  | None => raise TypeError
  end.

(** [values.get(key) is not None] *)
Definition is_not_None (d : dict) (key : string) : bool :=
  match dict_get d key None with
  | Some _ => true
  | None => false
  end.

(** [int(b)] for a boolean. *)
Definition int_of_bool (b : bool) : Z := if b then 1%Z else 0%Z.

Definition term_size_px : M (Z * Z) :=
  size <- _tiocgwnsz ;;
  let '(_, _, px, py) := size in
  if Z.eqb px 0 then
    result <- _query_term QueryCodes.pixel_dimensions ;;
    match truthy result with
    | Some result =>
        let params := dict_get result "csi_params" (Some []) in
        m <- match_opt (pixel_dimensions_pattern unicode_decimal) params ;;
        match m with
        | Some m =>
            match groupdict (pixel_dimensions_pattern unicode_decimal) m with
            | (_ :: _) as values =>
                (* the walrus binds the whole comparison *)
                let x := is_not_None values "x" in
                if x then
                  let y := is_not_None values "y" in
                  if y then ret (int_of_bool x, int_of_bool y)
                  else ret (px, py)
                else ret (px, py)
            | [] => ret (px, py)
            end
        | None => ret (px, py)
        end
    | None => ret (px, py)
    end
  else ret (px, py).

(** [a // b] *)
Definition floordiv (a b : Z) : M Z :=
  if Z.eqb b 0 then raise ZeroDivisionError else ret (a / b)%Z.

Definition char_size_px : M (Z * Z) :=
  size_px <- term_size_px ;;
  let '(px, py) := size_px in
  size <- get_size ;;
  let '(rows, cols) := size in
  if Z.eqb px 0 then ret (10, 22)%Z
  else
    cw <- floordiv px cols ;;
    ch <- floordiv py rows ;;
    ret (cw, ch).

(** [pattern.findall(s)] where [s] may be [None]. *)
Definition findall_opt (r : re) (s : option str) : M (list str) :=
  match s with
  | Some v => ret (findall r v)
  | None => raise TypeError
  end.

Definition has_sixel_graphics_body : M bool :=
  result <- _query_term QueryCodes.sixel ;;
  match truthy result with
  | Some result =>
      let param_str := dict_get result "csi_params" (Some []) in
      matches <- findall_opt (sixel_pattern unicode_decimal) param_str ;;
      let params := map int_of matches in
      if Nat.leb 3 (length params) then
        match firstn 3 params with
        | [Pi; Ps; Pv] => if Z.eqb Ps 0 then ret true else ret false
        | _ => ret false
        end
      else ret false
  | None => ret false
  end.

(** [@lru_cache] on a property: one slot per instance, filled when the
    body returns. *)
Definition memoized (memo : world -> option bool)
    (set_memo : option bool -> world -> world) (body : M bool) : M bool :=
  fun w =>
    match memo w with
    | Some v => (Ret v, w)
    | None =>
        match body w with
        | (Ret v, w') => (Ret v, set_memo (Some v) w')
        | other => other
        end
    end.

Definition has_sixel_graphics : M bool :=
  memoized sixel_memo set_sixel_memo has_sixel_graphics_body.

(** [s.startswith(p)] where [s] may be [None]. *)
Definition startswith_opt (p : str) (s : option str) : M (str * bool) :=
  match s with
  | Some v => ret (v, startswith p v)
  | None => raise AttributeError
  end.

Definition has_kitty_graphics_body : M bool :=
  result <- _query_term QueryCodes.kitty ;;
  match truthy result with
  | Some result =>
      sw <- startswith_opt (codes "G") (dict_get result "apc_string" (Some [])) ;;
      let '(apc_string, starts) := sw in
      if starts then
        let response := split (chr ";") (lstrip (codes "G") apc_string) in
        if Nat.leb 2 (length response) then
          match nth_error response 1 with
          | Some field => if str_eqb field (codes "OK") then ret true else ret false
          | None => ret false
          end
        else ret false
      else ret false
  | None => ret false
  end.

Definition has_kitty_graphics : M bool :=
  memoized kitty_memo set_kitty_memo has_kitty_graphics_body.

End Engine.

End Term.

(** ** [output/control.py]: controls that cache what they render *)

Module Control.

(** [(width, *self.extra_keys)] *)
Definition key : Type := Z * list bool.

Definition key_eq_dec (a b : key) : {a = b} + {a <> b}.
Proof.
  decide equality; [apply (list_eq_dec Bool.bool_dec) | apply Z.eq_dec].
Defined.

Definition key_eqb (a b : key) : bool :=
  if key_eq_dec a b then true else false.

(** *** [prompt_toolkit.cache.SimpleCache]

    The class belongs to the prompt_toolkit library: a dictionary and the
    queue of its keys in order of arrival, the oldest key leaving when the
    size passes [maxsize]. *)
Record SimpleCache (V : Type) : Type := mkCache {
  _data : list (key * V);
  _keys : list key;
  maxsize : nat
}.

Arguments mkCache {V} _ _ _.
Arguments _data {V} _.
Arguments _keys {V} _.
Arguments maxsize {V} _.

Definition new_cache {V} (size : nat) : SimpleCache V := mkCache [] [] size.

Fixpoint dict_find {V} (k : key) (d : list (key * V)) : option V :=
  match d with
  | [] => None
  | (k', v) :: d' => if key_eqb k' k then Some v else dict_find k d'
  end.

Fixpoint dict_set {V} (k : key) (v : V) (d : list (key * V)) : list (key * V) :=
  match d with
  | [] => [(k, v)]
  | (k', v') :: d' =>
      if key_eqb k' k then (k', v) :: d' else (k', v') :: dict_set k v d'
  end.

Fixpoint dict_del {V} (k : key) (d : list (key * V)) : list (key * V) :=
  match d with
  | [] => []
  | (k', v') :: d' => if key_eqb k' k then d' else (k', v') :: dict_del k d'
  end.

(** The part of [SimpleCache.get] after the getter has run. *)
Definition cache_store {V} (k : key) (v : V) (c : SimpleCache V) : SimpleCache V :=
  let data := dict_set k v (_data c) in
  let keys := _keys c ++ [k] in
  if Nat.ltb (maxsize c) (length data) then
    match keys with
    | key_to_remove :: keys' => mkCache (dict_del key_to_remove data) keys' (maxsize c)
    | [] => mkCache data keys (maxsize c)
    end
  else mkCache data keys (maxsize c).

Inductive control_class : Type :=
| MarkdownControl
| HTMLControl
| LatexControl
| ImageControl
| SVGControl.

(** What [create_content] caches: the line count; [get_line] reads
    [self.rendered_lines] when it is called. *)
Record UIContent : Type := mkContent { line_count : nat }.

Section OutputControl.

Variable Data : Type.

(** [self.renderer.render(data, width=, height=)] *)
Variable renderer_render : Data -> Z -> Z -> str.

(** [fragment_list_len(ANSI(line).__pt_formatted_text__())] *)
Variable line_len : str -> Z.

Record control : Type := mkControl {
  cls : control_class;
  data : Data;
  graphic : option bool;          (* the answer of [graphic.visible()], when
                                     a graphic is linked *)
  rendered_lines : list str;
  _format_cache : SimpleCache (list str);
  _content_cache : SimpleCache UIContent;
  rendered : list (Z * Z)         (* the renderer's calls, latest first *)
}.

(** [__init__] *)
Definition init (c : control_class) (d : Data) (g : option bool) : control :=
  mkControl c d g [] (new_cache 20) (new_cache 20) [].

Definition extra_keys (c : control) : list bool :=
  match cls c with
  | ImageControl | SVGControl =>
      match graphic c with
      | Some visible => [visible]
      | None => []
      end
  | _ => []
  end.

Definition render (c : control) (width height : Z) : list str * control :=
  let result := renderer_render (data c) width height in
  (splitlines (rstrip [LF] result),
   mkControl (cls c) (data c) (graphic c) (rendered_lines c)
             (_format_cache c) (_content_cache c) ((width, height) :: rendered c)).

Definition set_format_cache (fc : SimpleCache (list str)) (c : control) : control :=
  mkControl (cls c) (data c) (graphic c) (rendered_lines c)
            fc (_content_cache c) (rendered c).

Definition set_content_cache (cc : SimpleCache UIContent) (c : control) : control :=
  mkControl (cls c) (data c) (graphic c) (rendered_lines c)
            (_format_cache c) cc (rendered c).

Definition set_rendered_lines (l : list str) (c : control) : control :=
  mkControl (cls c) (data c) (graphic c) l
            (_format_cache c) (_content_cache c) (rendered c).

Definition get_rendered_lines (c : control) (width height : Z)
    : list str * control :=
  let k := (width, extra_keys c) in
  match dict_find k (_data (_format_cache c)) with
  | Some lines => (lines, c)
  | None =>
      let '(lines, c') := render c width height in
      (lines, set_format_cache (cache_store k lines (_format_cache c')) c')
  end.

(** [max(l)] of a list that is not empty. *)
Definition max_of (x : Z) (l : list Z) : Z := fold_left Z.max l x.

Definition preferred_width (c : control) (max_available_width : Z)
    : option Z * control :=
  match map line_len (rendered_lines c) with
  | x :: l => (Some (max_of x l), c)
  | [] => (None, c)
  end.

Definition preferred_height (c : control) (width max_available_height : Z)
    : nat * control :=
  match rendered_lines c with
  | [] =>
      let '(lines, c') := get_rendered_lines c width max_available_height in
      (length lines, set_rendered_lines lines c')
  | _ :: _ => (length (rendered_lines c), c)
  end.

Definition create_content (c : control) (width height : Z)
    : UIContent * control :=
  let '(lines, c1) := get_rendered_lines c width height in
  let c2 := set_rendered_lines lines c1 in
  let k := (width, extra_keys c2) in
  match dict_find k (_data (_content_cache c2)) with
  | Some content => (content, c2)
  | None =>
      let content := mkContent (length (rendered_lines c2)) in
      (content, set_content_cache (cache_store k content (_content_cache c2)) c2)
  end.

(** A run of [get_rendered_lines] calls at one width, one per height. *)
Fixpoint get_rendered_lines_each (c : control) (width : Z) (heights : list Z)
    : list (list str) * control :=
  match heights with
  | [] => ([], c)
  | h :: hs =>
      let '(lines, c') := get_rendered_lines c width h in
      let '(rest, c'') := get_rendered_lines_each c' width hs in
      (lines :: rest, c'')
  end.

End OutputControl.

End Control.

(** ** What is observed of a run *)

Module Observe.

Import Term.

(** The attribute sets handed to [termios.tcsetattr], latest first. *)
Fixpoint restorations (t : list event) : list tattr :=
  match t with
  | [] => []
  | ETcsetattr a :: t' => a :: restorations t'
  | _ :: t' => restorations t'
  end.

(** The number of [_query_term] calls. *)
Fixpoint queries (t : list event) : nat :=
  match t with
  | [] => 0
  | EQuery _ :: t' => S (queries t')
  | _ :: t' => queries t'
  end.

(** The number of [tty.setcbreak] calls. *)
Fixpoint mode_switches (t : list event) : nat :=
  match t with
  | [] => 0
  | ESetcbreak :: t' => S (mode_switches t')
  | _ :: t' => mode_switches t'
  end.

(** The pixel width [_tiocgwnsz] reports. *)
Definition ioctl_px (w : world) : Z :=
  if have_termios w then let '(_, _, px, _) := winsize w in px else 0%Z.

(** Two worlds that differ in their pending input and trace at most. *)
Definition same_process (w w' : world) : Prop :=
  have_termios w' = have_termios w /\ term_attr w' = term_attr w /\
  winsize w' = winsize w /\ out_size w' = out_size w /\
  sixel_memo w' = sixel_memo w /\ kitty_memo w' = kitty_memo w.

End Observe.

(** ** Sample terminals *)

Module Samples.

Import Term.

Local Open Scope string_scope.
Local Open Scope list_scope.

(** A secondary device attributes report, the fence of every probe. *)
Definition device_report : str := ESC :: codes "[>0;10;1c".

(** What a terminal sends back during one probe: the report, the answer
    to the query, the report again. *)
Definition fenced (answer : str) : str :=
  device_report ++ answer ++ device_report.

Definition cooked : tattr := mkTattr 1280 5 191 35387 1 0.

(** A process on a terminal that will send [input]. *)
Definition process (input : list (option char)) (ws : Z * Z * Z * Z)
    (size : Z * Z) : world :=
  mkWorld true cooked input ws size None None [].

Definition answers (input : str) : list (option char) := map Some input.

Definition sixel_answer (params : string) : str :=
  ESC :: codes "[?" ++ codes params ++ codes "S".

Definition pixel_answer : str := ESC :: codes "[4;600;800t".

Definition color_answer : str :=
  ESC :: codes "]11;rgb:1234/5678/9abc" ++ [ESC; BSL].

(** A colour report whose third field is followed by a fifth digit. *)
Definition long_color_answer : str :=
  ESC :: codes "]11;rgb:12/34/56789" ++ [ESC; BSL].

(** A terminal that reports no pixel size to the ioctl and answers two
    pixel-size probes. *)
Definition two_pixel_probes : world :=
  process (answers (fenced pixel_answer ++ fenced pixel_answer))
          (24, 80, 0, 0)%Z (24, 80)%Z.

(** A terminal that reports no pixel size to the ioctl and answers one
    pixel-size probe. *)
Definition one_pixel_probe : world :=
  process (answers (fenced pixel_answer)) (24, 80, 0, 0)%Z (24, 80)%Z.

(** A read that fails in the middle of the sixel answer. *)
Definition failing_read : world :=
  process (answers (device_report ++ ESC :: codes "[?0") ++ [None])
          (24, 80, 0, 0)%Z (24, 80)%Z.

(** A terminal with a pixel size whose output reports no columns. *)
Definition no_columns : world :=
  process [] (24, 80, 800, 600)%Z (24, 0)%Z.

End Samples.

(** ** The claims of the specification, as it words them *)

Module Spec.

Import Term Observe.

Local Open Scope string_scope.
Local Open Scope list_scope.

(** Two accesses in a row cost one probe at most, and the second gives the
    value of the first. *)
Definition probes_at_most_once {A} (accessor : M A) : Prop :=
  forall w o1 w1 o2 w2,
    accessor w = (o1, w1) -> accessor w1 = (o2, w2) ->
    queries (trace w2) <= S (queries (trace w)) /\
    forall v, o1 = Ret v -> o2 = Ret v.

(** The shape of a control sequence after [ESC \[]: the longest run of
    parameter bytes, the longest run of intermediate bytes, and one byte
    of the alphabet [final] after them. *)
Definition csi_split (final : char -> bool) (rest : str)
    : option (str * str * char) :=
  let '(params, r1) := span csi_params_class rest in
  let '(inter, r2) := span csi_inter_class r1 in
  match r2 with
  | f :: _ => if final f then Some (params, inter, f) else None
  | [] => None
  end.

(** The final bytes as the specification lists them: the letters and the
    six signs from the at sign to the backquote, the backslash left out. *)
Definition spec_final_byte (c : char) : bool :=
  between "A" "Z" c || between "a" "z" c || one_of (codes "@[]^_`") c.

(** The final bytes with the four signs after [z] added. *)
Definition final_byte (c : char) : bool :=
  spec_final_byte c || one_of (codes "{|}~") c.

Definition is_byte (c : char) : bool := N.ltb c 256.

(** No escape character in [s]. *)
Definition no_escape (s : str) : bool :=
  forallb (fun c => negb (N.eqb c ESC)) s.

(** Whether a dictionary is that of a CSI match. *)
Definition is_csi (r : option dict) : bool :=
  match r with
  | Some d => match dict_get d "csi" None with Some _ => true | None => false end
  | None => false
  end.

(** C6 as worded: a buffer that starts with [ESC \[] is a CSI sequence
    exactly when it has the shape above with the listed final bytes. *)
Definition csi_exactly_when (final : char -> bool) : Prop :=
  forall rest : str,
    is_csi (classify (ESC :: chr "[" :: rest)) = true <->
    csi_split final rest <> None.

(** Whether [s] starts with a terminator of an OSC string: [ESC \\] or BEL. *)
Definition terminator_here (s : str) : bool :=
  match s with
  | c :: s' =>
      N.eqb c BEL
      || (N.eqb c ESC && match s' with d :: _ => N.eqb d BSL | [] => false end)
  | [] => false
  end.

(** Whether a terminator of an OSC string occurs in [s]. *)
Fixpoint has_terminator (s : str) : bool :=
  match s with
  | [] => false
  | _ :: s' => terminator_here s || has_terminator s'
  end.

(** The same for the one terminator of an APC string, [ESC \\]. *)
Definition st_here (s : str) : bool :=
  match s with
  | c :: d :: _ => N.eqb c ESC && N.eqb d BSL
  | _ => false
  end.

Fixpoint has_st (s : str) : bool :=
  match s with
  | [] => false
  | _ :: s' => st_here s || has_st s'
  end.

(** C5, its last sentence as worded: an OSC buffer without a terminator
    does not classify at all. *)
Definition unterminated_unclassified : Prop :=
  forall payload : str,
    has_terminator payload = false ->
    classify (ESC :: chr "]" :: payload) = None.

(** The numeric parameters of a parameter string: its runs of ASCII
    digits, read as numbers. *)
Definition numeric_params (params : str) : list Z :=
  map int_of (runs ascii_digit params).

(** At least three numeric parameters, the second of them zero. *)
Definition second_of_three_is_zero (l : list Z) : bool :=
  match l with
  | _ :: ps :: _ :: _ => Z.eqb ps 0
  | _ => false
  end.

(** The second numeric parameter is zero. *)
Definition second_is_zero (l : list Z) : bool :=
  match l with
  | _ :: ps :: _ => Z.eqb ps 0
  | _ => false
  end.

(** C7, its first sentence as worded. *)
Definition sixel_iff_second_is_zero (unicode_decimal : char -> bool) : Prop :=
  forall (w : world) (r : option dict) (w1 : world),
    sixel_memo w = None ->
    _query_term unicode_decimal QueryCodes.sixel w = (Ret r, w1) ->
    (fst (has_sixel_graphics unicode_decimal w) = Ret true <->
     exists d params,
       r = Some d /\ dict_get d "csi_params" None = Some params /\
       second_is_zero (numeric_params params) = true).

(** A field of a colour report: two to four hexadecimal digits. *)
Definition hex_field (s : str) : Prop :=
  2 <= length s <= 4 /\ forallb hexdigit s = true.

(** A payload that starts as a colour report of kind 11. *)
Definition color_report (payload R G B rest : str) : Prop :=
  hex_field R /\ hex_field G /\ hex_field B /\
  payload = codes "11;rgb:" ++ R ++ chr "/" :: G ++ chr "/" :: B ++ rest.

(** C8 as worded: the payload has the form itself, with nothing behind
    the third field, and every other payload gives [None]. *)
Definition exact_color_report (payload : str) : Prop :=
  exists R G B, color_report payload R G B [].

Definition none_unless_color_report (unicode_decimal : char -> bool) : Prop :=
  forall (w : world) (d : dict) (payload : str) (w1 : world),
    _query_term unicode_decimal QueryCodes.background_color w
    = (Ret (Some d), w1) ->
    dict_get d "osc_string" None = Some payload ->
    ~ exact_color_report payload ->
    fst (bg_color unicode_decimal w) = Ret None.

End Spec.

(** ** Well-formed caches *)

Module CacheInv.

Import Control.

(** What [SimpleCache] keeps true of itself from [__init__] on: the queue
    lists the keys of the dictionary, each once, and the capacity is
    positive. *)
Definition cache_ok {V} (c : SimpleCache V) : Prop :=
  0 < maxsize c /\
  NoDup (_keys c) /\
  length (_keys c) = length (_data c) /\
  forall k, In k (_keys c) -> dict_find k (_data c) <> None.

(** A sample control: the data is the text, and rendering gives it back. *)
Definition text_control : control str :=
  init MarkdownControl (codes "one" ++ [LF] ++ codes "two" ++ [LF]) None.

Definition echo_renderer (d : str) (width height : Z) : str := d.

Definition plain_len (line : str) : Z := Z.of_nat (length line).

End CacheInv.

(** ** What the classifier can answer *)

Unset Implicit Arguments.

Module Shapes.

Import Term.

Local Open Scope string_scope.
Local Open Scope list_scope.

(** The four kinds of dictionary the classifier gives. *)
Inductive classification : dict -> Prop :=
| IsCsi P J f :
    forallb csi_params_class P = true -> forallb csi_inter_class J = true ->
    csi_final_class f = true -> classification (csi_dict P J [f])
| IsOsc payload term :
    forallb dot payload = true -> term = [BEL] \/ term = [ESC; BSL] ->
    classification (osc_dict payload term)
| IsApc payload :
    forallb dot payload = true -> classification (apc_dict payload [ESC; BSL])
| IsFe c : fe_class c = true -> classification (fe_dict c).

(** Whether an escape character is followed by a character of the Fe
    class somewhere in [s]. *)
Fixpoint has_fe_escape (s : str) : bool :=
  match s with
  | c :: s' =>
      (N.eqb c ESC && match s' with d :: _ => fe_class d | [] => false end)
      || has_fe_escape s'
  | [] => false
  end.

End Shapes.

(** ** The exchange with the terminal *)

Module Protocol.

Import Term.

(** The process after more terminal traffic: [evs] are the effects since
    [w], latest first, and [rest] is the input still pending. *)
Definition after_io (rest : list (option char)) (evs : list event)
    (w : world) : world :=
  mkWorld (have_termios w) (term_attr w) rest (winsize w) (out_size w)
          (sixel_memo w) (kitty_memo w) (evs ++ trace w).

(** What the body of [_query_term] does between the switch to cbreak mode
    and the restoration when it returns, in order of time: [n1]
    characters are read up to the end of the first device report, [n2]
    more up to the end of the second. *)
Definition exchange (query_code : str) (n1 n2 : nat) : list event :=
  [EWriteRaw QueryCodes.device; EFlush; ERead; EWriteRaw query_code; EFlush]
  ++ repeat ERead (n1 - 1)
  ++ [EWriteRaw QueryCodes.device; EFlush]
  ++ repeat ERead n2.

Section Reports.

Variable unicode_decimal : char -> bool.

(** The test of the loop, [re.search(QueryResponsePatterns.device, output)],
    as a truth value. *)
Definition has_report (output : str) : bool :=
  match search (device_pattern unicode_decimal) output with
  | Some _ => true
  | None => false
  end.

(** The test fails on every prefix of [s] that is not empty, [s]
    included. *)
Definition no_report_upto (s : str) : bool :=
  forallb (fun n => negb (has_report (firstn n s))) (seq 1 (length s)).

(** The test holds on [s] and on no shorter prefix that is not empty:
    read from an empty buffer, [s] is what the loop reads up to and
    including its next device report. *)
Definition ends_first_report (s : str) : bool :=
  match s with
  | [] => false
  | _ :: _ =>
      has_report s
      && forallb (fun n => negb (has_report (firstn n s)))
                 (seq 1 (length s - 1))
  end.

End Reports.

End Protocol.

(** ** What the accessors make of an answer *)

Module Answers.

Import Term.

Local Open Scope string_scope.
Local Open Scope list_scope.

(** The test [has_kitty_graphics] makes on [apc_string]: it starts with
    [G], and once the leading [G]s are stripped the second of its fields
    between semicolons is [OK]. *)
Definition kitty_reply_ok (apc_string : str) : bool :=
  startswith (codes "G") apc_string
  && match split (chr ";") (lstrip (codes "G") apc_string) with
     | _ :: field :: _ => str_eqb field (codes "OK")
     | _ => false
     end.

(** A payload [G a ;OK] or [G a ;OK; ...] whose first field [a] holds no
    semicolon. *)
Definition kitty_ok_payload (payload : str) : Prop :=
  exists a rest,
    payload = chr "G" :: a ++ codes ";OK" ++ rest /\
    ~ In (chr ";") a /\
    (rest = [] \/ exists r, rest = chr ";" :: r).

(** A colour code: [#] and six hexadecimal digits. *)
Definition is_hex_color (c : str) : bool :=
  match c with
  | h :: digits =>
      N.eqb h (chr "#") && Nat.eqb (length digits) 6
      && forallb hexdigit digits
  | [] => false
  end.

(** The answer of a terminal that has the kitty graphics protocol. *)
Definition kitty_answer : str :=
  ESC :: codes "_Gi=1;OK" ++ [ESC; BSL].

End Answers.

(** ** A control in use *)

Module Session.

Import Control.

(** A text without its line boundaries. *)
Definition without_breaks (s : str) : str :=
  filter (fun ch => negb (is_linebreak ch)) s.

(** A cache within its capacity, every key bound once. *)
Definition cache_bounded {V} (c : SimpleCache V) : Prop :=
  CacheInv.cache_ok c /\
  length (_data c) <= maxsize c /\
  NoDup (map fst (_data c)).

Section Calls.

Variable Data : Type.
Variable renderer_render : Data -> Z -> Z -> str.
Variable line_len : str -> Z.

(** The lines [render] makes of one renderer call. *)
Definition lines_at (d : Data) (width height : Z) : list str :=
  splitlines (rstrip [LF] (renderer_render d width height)).

(** The linked graphic answers [visible()] with [v] from now on; a
    control without graphic has none to ask. *)
Definition set_visible (v : bool) (c : control Data) : control Data :=
  match graphic c with
  | Some _ =>
      mkControl (cls c) (data c) (Some v) (rendered_lines c)
                (_format_cache c) (_content_cache c) (rendered c)
  | None => c
  end.

(** What the layout asks of a control, and what happens to its graphic. *)
Inductive call : Type :=
| PreferredWidth (max_available_width : Z)
| PreferredHeight (width max_available_height : Z)
| CreateContent (width height : Z)
| Visible (v : bool).

Definition step (c : control Data) (x : call) : control Data :=
  match x with
  | PreferredWidth max_available_width =>
      snd (preferred_width line_len c max_available_width)
  | PreferredHeight width max_available_height =>
      snd (preferred_height renderer_render c width max_available_height)
  | CreateContent width height =>
      snd (create_content renderer_render c width height)
  | Visible v => set_visible v c
  end.

(** A control after a sequence of calls, first call first. *)
Definition run (calls : list call) (c : control Data) : control Data :=
  fold_left step calls c.

(** The calls in which the renderer can be invoked: those that ask the
    control for lines. *)
Definition may_render (x : call) : bool :=
  match x with
  | PreferredHeight _ _ | CreateContent _ _ => true
  | PreferredWidth _ | Visible _ => false
  end.

(** A renderer whose output does not depend on the height it is given. *)
Definition height_independent : Prop :=
  forall d width h h',
    renderer_render d width h = renderer_render d width h'.

(** Every entry of the two caches belongs to a rendering of the data at
    the width of its key, the lines at a height the renderer has been
    invoked with at that width, and the caches are those of [__init__]. *)
Definition coherent (d : Data) (c : control Data) : Prop :=
  data c = d /\
  cache_bounded (_format_cache c) /\ maxsize (_format_cache c) = 20 /\
  cache_bounded (_content_cache c) /\ maxsize (_content_cache c) = 20 /\
  (forall width ks lines,
     dict_find (width, ks) (_data (_format_cache c)) = Some lines ->
     exists h, In (width, h) (rendered c) /\ lines = lines_at d width h) /\
  (forall width ks content,
     dict_find (width, ks) (_data (_content_cache c)) = Some content ->
     exists h, line_count content = length (lines_at d width h)).

End Calls.

Arguments lines_at {Data} renderer_render d width height.
Arguments set_visible {Data} v c.
Arguments step {Data} renderer_render line_len c x.
Arguments run {Data} renderer_render line_len calls c.
Arguments height_independent {Data} renderer_render.
Arguments coherent {Data} renderer_render d c.

End Session.

(** ** [control.py]: the earlier controls *)

Module Legacy.

(** A cache key: a tuple of integers and booleans.  Tuples are equal when
    they have the same length and equal members, and [True] equals 1. *)
Definition key : Type := list Z.

Definition key_of_bool (b : bool) : Z := if b then 1%Z else 0%Z.

Definition key_eqb (a b : key) : bool :=
  if list_eq_dec Z.eq_dec a b then true else false.

(** [prompt_toolkit.cache.SimpleCache] over such keys. *)
Record SimpleCache (V : Type) : Type := mkCache {
  _data : list (key * V);
  _keys : list key;
  maxsize : nat
}.

Arguments mkCache {V} _ _ _.
Arguments _data {V} _.
Arguments _keys {V} _.
Arguments maxsize {V} _.

Definition new_cache {V} (size : nat) : SimpleCache V := mkCache [] [] size.

Fixpoint dict_find {V} (k : key) (d : list (key * V)) : option V :=
  match d with
  | [] => None
  | (k', v) :: d' => if key_eqb k' k then Some v else dict_find k d'
  end.

Fixpoint dict_set {V} (k : key) (v : V) (d : list (key * V)) : list (key * V) :=
  match d with
  | [] => [(k, v)]
  | (k', v') :: d' =>
      if key_eqb k' k then (k', v) :: d' else (k', v') :: dict_set k v d'
  end.

Fixpoint dict_del {V} (k : key) (d : list (key * V)) : list (key * V) :=
  match d with
  | [] => []
  | (k', v') :: d' => if key_eqb k' k then d' else (k', v') :: dict_del k d'
  end.

(** The part of [SimpleCache.get] after the getter has run. *)
Definition cache_store {V} (k : key) (v : V) (c : SimpleCache V) : SimpleCache V :=
  let data := dict_set k v (_data c) in
  let keys := _keys c ++ [k] in
  if Nat.ltb (maxsize c) (length data) then
    match keys with
    | key_to_remove :: keys' => mkCache (dict_del key_to_remove data) keys' (maxsize c)
    | [] => mkCache data keys (maxsize c)
    end
  else mkCache data keys (maxsize c).

(** The characters [str.rstrip()] strips when it is given none. *)
Definition is_space (c : char) : bool :=
  (N.leb 9 c && N.leb c 13) || (N.leb 28 c && N.leb c 32)
  || one_of [133; 160; 5760; 8232; 8233; 8239; 8287; 12288]%N c
  || (N.leb 8192 c && N.leb c 8202).

(** [s.rstrip()] *)
Definition rstrip_space (s : str) : str :=
  rev ((fix strip (r : str) : str :=
          match r with
          | c :: r' => if is_space c then strip r' else r
          | [] => []
          end) (rev s)).

(** [sep.join(fields)] for a one-character separator. *)
Fixpoint join (sep : char) (fields : list str) : str :=
  match fields with
  | [] => []
  | [f] => f
  | f :: rest => f ++ sep :: join sep rest
  end.

Inductive control_class : Type :=
| RichControl
| HTMLControl
| ImageControl
| SVGControl.

Inductive error : Type :=
| KeyError.          (* [render_args] has no entry [cell] *)

Section Control.

Variable Data : Type.

(** [self.renderer_instance.render(data, width=, height=, render_args=)] *)
Variable renderer_render : Data -> Z -> Z -> str.

Record control : Type := mkControl {
  cls : control_class;
  data : Data;
  cell : option bool;             (* the answer of
                                     [render_args["cell"].obscured()], when
                                     [render_args] has a cell *)
  rendered_lines : list str;
  _format_cache : SimpleCache (list str);
  _content_cache : SimpleCache Control.UIContent;
  rendered : list (Z * Z)         (* the renderer's calls, latest first *)
}.

(** [__init__] *)
Definition init (c : control_class) (d : Data) (cell : option bool) : control :=
  mkControl c d cell [] (new_cache 20) (new_cache 20) [].

Definition render (c : control) (width height : Z) : list str * control :=
  let result := renderer_render (data c) width height in
  (split LF (rstrip_space result),
   mkControl (cls c) (data c) (cell c) (rendered_lines c)
             (_format_cache c) (_content_cache c) ((width, height) :: rendered c)).

Definition set_format_cache (fc : SimpleCache (list str)) (c : control) : control :=
  mkControl (cls c) (data c) (cell c) (rendered_lines c)
            fc (_content_cache c) (rendered c).

Definition set_content_cache (cc : SimpleCache Control.UIContent) (c : control)
    : control :=
  mkControl (cls c) (data c) (cell c) (rendered_lines c)
            (_format_cache c) cc (rendered c).

Definition set_rendered_lines (l : list str) (c : control) : control :=
  mkControl (cls c) (data c) (cell c) l
            (_format_cache c) (_content_cache c) (rendered c).

(** [self._format_cache.get(k, lambda: self.render(width, height))] *)
Definition format_cache_get (c : control) (k : key) (width height : Z)
    : list str * control :=
  match dict_find k (_data (_format_cache c)) with
  | Some lines => (lines, c)
  | None =>
      let '(lines, c') := render c width height in
      (lines, set_format_cache (cache_store k lines (_format_cache c')) c')
  end.

Definition preferred_height (c : control) (width max_available_height : Z)
    : nat * control :=
  match rendered_lines c with
  | [] =>
      let '(lines, c') :=
        format_cache_get c [width; max_available_height]
                         width max_available_height in
      (length lines, set_rendered_lines lines c')
  | _ :: _ => (length (rendered_lines c), c)
  end.

(** The end of both [create_content] methods: the lines are held, and the
    content comes from the content cache under the same key. *)
Definition content_under (c : control) (k : key) (width height : Z)
    : Control.UIContent * control :=
  let '(lines, c1) := format_cache_get c k width height in
  let c2 := set_rendered_lines lines c1 in
  match dict_find k (_data (_content_cache c2)) with
  | Some content => (content, c2)
  | None =>
      let content := Control.mkContent (length (rendered_lines c2)) in
      (content, set_content_cache (cache_store k content (_content_cache c2)) c2)
  end.

(** [Control.create_content], and [ImageControl.create_content] for the
    two image classes. *)
Definition create_content (c : control) (width height : Z)
    : (Control.UIContent + error) * control :=
  match cls c with
  | RichControl | HTMLControl =>
      let '(content, c') := content_under c [width] width height in
      (inl content, c')
  | ImageControl | SVGControl =>
      match cell c with
      | Some cell_obscured =>
          let '(content, c') :=
            content_under c [key_of_bool cell_obscured; width] width height in
          (inl content, c')
      | None => (inr KeyError, c)
      end
  end.

(** What the layout asks of a control. *)
Inductive call : Type :=
| PreferredHeight (width max_available_height : Z)
| CreateContent (width height : Z).

Definition step (c : control) (x : call) : control :=
  match x with
  | PreferredHeight width max_available_height =>
      snd (preferred_height c width max_available_height)
  | CreateContent width height => snd (create_content c width height)
  end.

Definition run (calls : list call) (c : control) : control :=
  fold_left step calls c.

(** Whether a call is [create_content] at [width]. *)
Definition creates_at (width : Z) (x : call) : bool :=
  match x with
  | CreateContent w _ => Z.eqb w width
  | PreferredHeight _ _ => false
  end.

End Control.

Arguments cls {Data} c.
Arguments data {Data} c.
Arguments cell {Data} c.
Arguments rendered_lines {Data} c.
Arguments _format_cache {Data} c.
Arguments _content_cache {Data} c.
Arguments rendered {Data} c.
Arguments init {Data} c d cell.
Arguments render {Data} renderer_render c width height.
Arguments format_cache_get {Data} renderer_render c k width height.
Arguments preferred_height {Data} renderer_render c width max_available_height.
Arguments content_under {Data} renderer_render c k width height.
Arguments create_content {Data} renderer_render c width height.
Arguments step {Data} renderer_render c x.
Arguments run {Data} renderer_render calls c.

End Legacy.

(** ** [core/utils.py] *)

Module Utils.

(** [l[i]] for an integer [i]: a negative index counts from the end, and
    an index outside the list raises [IndexError], here [None]. *)
Definition list_getitem {T} (l : list T) (i : Z) : option T :=
  let n := Z.of_nat (length l) in
  let j := if Z.ltb i 0 then (i + n)%Z else i in
  if Z.ltb j 0 || Z.leb n j then None else nth_error l (Z.to_nat j).

Section ChainedList.

Variable T : Type.

(** The lists of the program, by identity: a [ChainedList] keeps the
    lists it was given, not copies of them. *)
Definition store : Type := nat -> list T.

(** [self.lists] *)
Definition ChainedList : Type := list nat.

(** The property [data]: the lists chained, as they are when it is read. *)
Definition data (h : store) (self : ChainedList) : list T :=
  concat (map h self).

(** [__getitem__] for an integer index. *)
Definition __getitem__ (h : store) (self : ChainedList) (i : Z) : option T :=
  list_getitem (data h self) i.

Definition __len__ (h : store) (self : ChainedList) : nat :=
  length (data h self).

(** [l.append(x)] on the list of identity [a]. *)
Definition append (a : nat) (x : T) (h : store) : store :=
  fun b => if Nat.eqb b a then h b ++ [x] else h b.

End ChainedList.

Arguments data {T} h self.
Arguments __getitem__ {T} h self i.
Arguments __len__ {T} h self.
Arguments append {T} a x h.

Section DictMerge.

(** Keys, and the values that are neither lists nor dictionaries. *)
Variable K : Type.
Variable K_eq_dec : forall a b : K, {a = b} + {a <> b}.
Variable Atom : Type.

(** The values [dict_merge] tells apart.  A dictionary is the list of its
    items in insertion order. *)
Unset Elimination Schemes.

Inductive value : Type :=
| VAtom (a : Atom)
| VList (l : list value)
| VDict (d : list (K * value)).

Set Elimination Schemes.

(** [d.get(k)] *)
Fixpoint lookup (k : K) (d : list (K * value)) : option value :=
  match d with
  | [] => None
  | (k', v) :: d' => if K_eq_dec k' k then Some v else lookup k d'
  end.

(** [d[k] = v]: a key the dictionary has keeps its place, a new key goes
    to the end. *)
Fixpoint setitem (k : K) (v : value) (d : list (K * value))
    : list (K * value) :=
  match d with
  | [] => [(k, v)]
  | (k', v') :: d' =>
      if K_eq_dec k' k then (k', v) :: d' else (k', v') :: setitem k v d'
  end.

(** What [target_dict[k]] holds after the body of the loop has run for a
    key [k] that both dictionaries have: two dictionaries are merged by
    the same loop, two lists are chained, and otherwise the input's
    value takes the place. *)
Fixpoint merged (target_k input_k : value) {struct input_k} : value :=
  match target_k, input_k with
  | VDict t, VDict i =>
      VDict
        ((fix dict_merge (target_dict input_dict : list (K * value))
              {struct input_dict} : list (K * value) :=
            match input_dict with
            | [] => target_dict
            | (k, v) :: rest =>
                dict_merge
                  match lookup k target_dict with
                  | Some target_k => setitem k (merged target_k v) target_dict
                  | None => setitem k v target_dict
                  end
                  rest
            end) t i)
  | VList t, VList i => VList (t ++ i)
  | _, _ => input_k
  end.

(** [dict_merge(target_dict, input_dict)] with [copy] false, as the
    contents of [target_dict] when the call returns; the two dictionaries
    are separate objects when it starts.  With [copy] true the loop runs
    on a deep copy that is not returned, and the caller's dictionary
    stays as it was. *)
Fixpoint dict_merge (target_dict input_dict : list (K * value))
    {struct input_dict} : list (K * value) :=
  match input_dict with
  | [] => target_dict
  | (k, v) :: rest =>
      dict_merge
        match lookup k target_dict with
        | Some target_k => setitem k (merged target_k v) target_dict
        | None => setitem k v target_dict
        end
        rest
  end.

(** Whether a dictionary has a key: [k in d]. *)
Definition has_key (k : K) (d : list (K * value)) : bool :=
  match lookup k d with
  | Some _ => true
  | None => false
  end.

End DictMerge.

Arguments VAtom {K Atom} a.
Arguments VList {K Atom} l.
Arguments VDict {K Atom} d.
Arguments lookup {K} K_eq_dec {Atom} k d.
Arguments setitem {K} K_eq_dec {Atom} k v d.
Arguments merged {K} K_eq_dec {Atom} target_k input_k.
Arguments dict_merge {K} K_eq_dec {Atom} target_dict input_dict.
Arguments has_key {K} K_eq_dec {Atom} k d.

End Utils.

(** * Properties *)

Unset Implicit Arguments.

(** ** The matcher *)

Section MatcherProperties.

Variable R : Type.

Lemma consumed_app (a b : str) : consumed (a ++ b) b = a.
Proof.
  unfold consumed. rewrite length_app.
  replace (length a + length b - length b) with (length a) by lia.
  rewrite firstn_app, firstn_all, Nat.sub_diag. simpl. apply app_nil_r.
Qed.

Lemma consumed_prefix (s a b : str) : s = a ++ b -> consumed s b = a.
Proof. intros ->. apply consumed_app. Qed.

(** The equations of the matcher, one per construct. *)
Lemma mt_chr_cons (p : char -> bool) (c : char) (s : str) (e : env)
    (k : cont R) :
  mt (Chr p) (c :: s) e k = if p c then k s e else None.
Proof. reflexivity. Qed.

Lemma mt_chr_nil (p : char -> bool) (e : env) (k : cont R) :
  mt (Chr p) [] e k = None.
Proof. reflexivity. Qed.

Lemma mt_seq (a b : re) (s : str) (e : env) (k : cont R) :
  mt (Seq a b) s e k = mt a s e (fun s' e' => mt b s' e' k).
Proof. reflexivity. Qed.

Lemma mt_alt (a b : re) (s : str) (e : env) (k : cont R) :
  mt (Alt a b) s e k = or_else (mt a s e k) (fun _ => mt b s e k).
Proof. reflexivity. Qed.

Lemma mt_star (a : re) (s : str) (e : env) (k : cont R) :
  mt (Star a) s e k = star_loop (mt a) k (S (length s)) s e.
Proof. reflexivity. Qed.

Lemma mt_rep (lo hi : nat) (a : re) (s : str) (e : env) (k : cont R) :
  mt (Rep lo hi a) s e k = rep_loop (mt a) k hi lo s e.
Proof. reflexivity. Qed.

Lemma mt_group (name : string) (a : re) (s : str) (e : env) (k : cont R) :
  mt (Group name a) s e k
  = mt a s e (fun s' e' => k s' ((name, consumed s s') :: e')).
Proof. reflexivity. Qed.

Lemma mt_ahead (a : re) (s : str) (e : env) (k : cont R) :
  mt (Ahead a) s e k
  = match mt a s e (fun _ e' => Some e') with
    | Some e' => k s e'
    | None => None
    end.
Proof. reflexivity. Qed.

Arguments mt : simpl never.

(** The turn counter of [a*] is never what stops a run over a class. *)
Lemma star_loop_class (p : char -> bool) (k : cont R) (n : nat) :
  forall s e, length s < n ->
    star_loop (mt (Chr p)) k n s e = star_class p s e k.
Proof.
  induction n as [|n IH]; intros s e Hn; [lia|].
  destruct s as [|c s]; [reflexivity|].
  cbn [star_loop star_class]. rewrite mt_chr_cons.
  destruct (p c); [|reflexivity].
  replace (Nat.ltb (length s) (length (c :: s))) with true
    by (symmetry; apply Nat.ltb_lt; simpl; lia).
  rewrite IH by (simpl in Hn; lia). reflexivity.
Qed.

Lemma mt_star_class (p : char -> bool) (s : str) (e : env) (k : cont R) :
  mt (Star (Chr p)) s e k = star_class p s e k.
Proof. rewrite mt_star. apply star_loop_class. lia. Qed.

(** The greedy choice stands when the rest of the pattern accepts it. *)
Lemma star_class_first (p : char -> bool) (run rest : str) (e : env)
    (k : cont R) (x : R) :
  forallb p run = true ->
  star_class p rest e k = Some x ->
  star_class p (run ++ rest) e k = Some x.
Proof.
  intros Hrun Hk. induction run as [|c run IH]; simpl; [exact Hk|].
  simpl in Hrun. apply andb_prop in Hrun. destruct Hrun as [Hc Hrun].
  rewrite Hc, (IH Hrun). reflexivity.
Qed.

Lemma star_class_stops (p : char -> bool) (s : str) (e : env) (k : cont R) :
  stops p s = true -> star_class p s e k = k s e.
Proof.
  destruct s as [|c s]; simpl; [reflexivity|].
  intros H. apply negb_true_iff in H. rewrite H. reflexivity.
Qed.

(** When the rest of the pattern refuses every point of the input, so
    does the run. *)
Lemma star_class_none (p : char -> bool) (s : str) (e : env) (k : cont R) :
  (forall pre t, s = pre ++ t -> k t e = None) ->
  star_class p s e k = None.
Proof.
  induction s as [|c s IH]; intros H; simpl.
  - apply (H [] []). reflexivity.
  - assert (Hs : star_class p s e k = None).
    { apply IH. intros pre t ->. apply (H (c :: pre) t). reflexivity. }
    rewrite Hs. simpl.
    destruct (p c); apply (H [] (c :: s)); reflexivity.
Qed.

(** Backtracking out of a run of class [p] when the rest of the pattern
    refuses every point inside and right after the run. *)
Lemma star_class_run_none (p : char -> bool) (run rest : str) (e : env)
    (k : cont R) :
  stops p rest = true ->
  (forall a b, run = a ++ b -> k (b ++ rest) e = None) ->
  star_class p (run ++ rest) e k = None.
Proof.
  intros Hstop. induction run as [|c run IH]; intros H; simpl.
  - rewrite star_class_stops by exact Hstop. apply (H [] []). reflexivity.
  - assert (Hs : star_class p (run ++ rest) e k = None).
    { apply IH. intros a b ->. apply (H (c :: a) b). reflexivity. }
    rewrite Hs. simpl.
    destruct (p c); apply (H [] (c :: run)); reflexivity.
Qed.

Lemma span_spec (p : char -> bool) (s : str) :
  s = fst (span p s) ++ snd (span p s) /\
  forallb p (fst (span p s)) = true /\ stops p (snd (span p s)) = true.
Proof.
  induction s as [|c s IH]; simpl; [repeat split|].
  destruct (p c) eqn:Hc.
  - destruct (span p s) as [run rest]. simpl in *.
    destruct IH as (-> & Hr & Hs). rewrite Hc. repeat split; assumption.
  - simpl. rewrite Hc. repeat split.
Qed.

(** A greedy [a{lo,hi}] over a class: the longest run within the bounds
    stands when the rest of the pattern accepts it. *)
Lemma rep_loop_first (p : char -> bool) (k : cont R) (x : R) (rest : str)
    (e : env) :
  forall run hi lo,
    forallb p run = true -> lo <= length run -> length run <= hi ->
    length run = hi \/ stops p rest = true ->
    k rest e = Some x ->
    rep_loop (mt (Chr p)) k hi lo (run ++ rest) e = Some x.
Proof.
  induction run as [|c run IH]; intros hi lo Hrun Hlo Hhi Hend Hk.
  - simpl in *. assert (lo = 0) by lia. subst lo.
    destruct hi as [|hi]; [exact Hk|].
    destruct Hend as [Hz|Hstop]; [discriminate|].
    cbn [rep_loop app].
    destruct rest as [|c rest].
    + rewrite mt_chr_nil. exact Hk.
    + rewrite mt_chr_cons.
      simpl in Hstop. apply negb_true_iff in Hstop. rewrite Hstop. exact Hk.
  - simpl in Hrun. apply andb_prop in Hrun. destruct Hrun as [Hc Hrun].
    destruct hi as [|hi]; [simpl in Hhi; lia|].
    cbn [rep_loop app]. rewrite mt_chr_cons, Hc.
    rewrite (IH hi (Nat.pred lo)); [reflexivity|exact Hrun| | | |exact Hk];
      simpl in *; try lia.
    destruct Hend as [Hz|Hstop]; [left; lia|right; exact Hstop].
Qed.

(** What a match of a run over a class looks like. *)
Lemma matches_star_class (p : char -> bool) (s : str) (e : env) (s' : str)
    (e' : env) :
  matches (Star (Chr p)) s e s' e' ->
  e' = e /\ exists run, s = run ++ s' /\ forallb p run = true.
Proof.
  intros H. remember (Star (Chr p)) as r eqn:Er.
  induction H; try discriminate.
  - split; [reflexivity|]. exists []. split; reflexivity.
  - inversion Er; subst.
    match goal with
    | Ha : matches (Chr _) _ _ _ _ |- _ => inversion Ha; subst
    end.
    destruct (IHmatches2 eq_refl) as [-> (run & -> & Hr)].
    split; [reflexivity|]. exists (c :: run). split; [reflexivity|].
    simpl. match goal with Hc : p c = true |- _ => rewrite Hc end. exact Hr.
Qed.

Lemma matches_rep_class (p : char -> bool) (r : re) (s : str) (e : env)
    (s' : str) (e' : env) :
  matches r s e s' e' ->
  forall lo hi, r = Rep lo hi (Chr p) ->
    e' = e /\
    exists run, s = run ++ s' /\ forallb p run = true /\
                lo <= length run <= hi.
Proof.
  intros H. induction H; intros lo' hi' Er; try discriminate.
  - inversion Er; subst. split; [reflexivity|].
    exists []. repeat split; simpl; lia.
  - inversion Er; subst.
    match goal with
    | Ha : matches (Chr _) _ _ _ _ |- _ => inversion Ha; subst
    end.
    destruct (IHmatches2 _ _ eq_refl) as [-> (run & -> & Hr & Hlen)].
    split; [reflexivity|]. exists (c :: run).
    repeat split; simpl; try lia.
    match goal with Hc : p c = true |- _ => rewrite Hc end. exact Hr.
Qed.

Lemma matches_rep_run (p : char -> bool) (lo hi : nat) (s : str) (e : env)
    (s' : str) (e' : env) :
  matches (Rep lo hi (Chr p)) s e s' e' ->
  e' = e /\
  exists run, s = run ++ s' /\ forallb p run = true /\ lo <= length run <= hi.
Proof.
  intros H. exact (matches_rep_class p _ _ _ _ _ H lo hi eq_refl).
Qed.

(** A literal at the head of the input. *)
Lemma mt_str (lit : str) (r : re) (s : str) (e : env) (k : cont R) :
  mt (Str lit r) (lit ++ s) e k = mt r s e k.
Proof.
  induction lit as [|c lit IH]; [reflexivity|].
  cbn [Str app]. rewrite mt_seq. unfold Lit at 1.
  rewrite mt_chr_cons, N.eqb_refl. exact IH.
Qed.

Lemma span_upto_spec (n : nat) (p : char -> bool) :
  forall s,
    s = fst (span_upto n p s) ++ snd (span_upto n p s) /\
    forallb p (fst (span_upto n p s)) = true /\
    length (fst (span_upto n p s)) <= n /\
    (length (fst (span_upto n p s)) = n \/
     stops p (snd (span_upto n p s)) = true).
Proof.
  induction n as [|n IH]; intros s.
  - simpl. destruct s; repeat split; auto.
  - destruct s as [|c s]; simpl.
    + repeat split; auto. lia.
    + destruct (p c) eqn:Hc.
      * specialize (IH s). destruct (span_upto n p s) as [run rest].
        simpl in *. destruct IH as (E & Hr & Hl & Hend).
        rewrite Hc. repeat split; try assumption; try lia.
        -- f_equal. exact E.
        -- destruct Hend; [left; lia|right; assumption].
      * simpl. rewrite Hc. repeat split; auto. lia.
Qed.

(** Two classes that agree on the characters of [s] have the same runs. *)
Lemma span_agree (p q : char -> bool) (s : str) :
  (forall c, In c s -> p c = q c) -> span p s = span q s.
Proof.
  induction s as [|c s IH]; intros H; [reflexivity|].
  simpl. rewrite <- (H c (or_introl eq_refl)).
  rewrite IH by (intros d Hd; apply H; right; exact Hd). reflexivity.
Qed.

Lemma span_rest_incl (p : char -> bool) (s : str) (c : char) :
  In c (snd (span p s)) -> In c s.
Proof.
  destruct (span_spec p s) as (E & _ & _). intros H.
  rewrite E. apply in_or_app. right. exact H.
Qed.

Lemma first_run_agree (p q : char -> bool) (s : str) :
  (forall c, In c s -> p c = q c) -> first_run p s = first_run q s.
Proof.
  induction s as [|c s IH]; intros H; [reflexivity|].
  simpl. rewrite <- (H c (or_introl eq_refl)).
  rewrite (span_agree p q s) by (intros d Hd; apply H; right; exact Hd).
  rewrite IH by (intros d Hd; apply H; right; exact Hd). reflexivity.
Qed.

Lemma first_run_rest_incl (p : char -> bool) (s pre run rest : str) (c : char) :
  first_run p s = Some (pre, run, rest) -> In c rest -> In c s.
Proof.
  revert pre. induction s as [|d s IH]; intros pre H Hc; [discriminate|].
  simpl in H. destruct (p d).
  - pose proof (span_rest_incl p s c) as Hi.
    destruct (span p s) as [run' rest']. inversion H; subst.
    right. apply Hi. exact Hc.
  - destruct (first_run p s) as [[[pre' run'] rest']|]; [|discriminate].
    inversion H; subst. right. eapply IH; [reflexivity|exact Hc].
Qed.

Lemma runs_fuel_agree (p q : char -> bool) (n : nat) :
  forall s, (forall c, In c s -> p c = q c) ->
            runs_fuel n p s = runs_fuel n q s.
Proof.
  induction n as [|n IH]; intros s H; [reflexivity|].
  cbn [runs_fuel]. rewrite <- (first_run_agree p q s H).
  destruct (first_run p s) as [[[pre run] rest]|] eqn:E; [|reflexivity].
  rewrite IH; [reflexivity|].
  intros c Hc. apply H. eapply first_run_rest_incl; eassumption.
Qed.

End MatcherProperties.

(** Whatever the matcher answers comes from a match. *)
Lemma mt_sound (r : re) :
  forall (R : Type) s e (k : cont R) x,
    mt r s e k = Some x ->
    exists s' e', matches r s e s' e' /\ k s' e' = Some x.
Proof.
  induction r as [p|a IHa b IHb|a IHa b IHb|a IHa|lo hi a IHa|name a IHa|a IHa];
    intros R s e k x H.
  - destruct s as [|c s]; [discriminate|]. rewrite mt_chr_cons in H.
    destruct (p c) eqn:Hc; [|discriminate].
    exists s, e. split; [constructor; exact Hc|exact H].
  - rewrite mt_seq in H.
    apply IHa in H. destruct H as (s1 & e1 & Ha & H).
    apply IHb in H. destruct H as (s2 & e2 & Hb & H).
    exists s2, e2. split; [econstructor; eassumption|exact H].
  - rewrite mt_alt in H. unfold or_else in H. destruct (mt a s e k) eqn:E.
    + inversion H; subst. apply IHa in E. destruct E as (s' & e' & Ha & Hk).
      exists s', e'. split; [apply MAltL; exact Ha|exact Hk].
    + apply IHb in H. destruct H as (s' & e' & Hb & Hk).
      exists s', e'. split; [apply MAltR; exact Hb|exact Hk].
  - rewrite mt_star in H. revert H. generalize (S (length s)). intros n.
    revert s e.
    induction n as [|n IHn]; intros s e H; cbn [star_loop] in H.
    + exists s, e. split; [constructor|exact H].
    + unfold or_else in H.
      destruct (mt a s e _) eqn:E.
      * inversion H; subst. apply IHa in E.
        destruct E as (s1 & e1 & Ha & Hk).
        destruct (Nat.ltb (length s1) (length s)); [|discriminate].
        apply IHn in Hk. destruct Hk as (s2 & e2 & Hs & Hk).
        exists s2, e2. split; [econstructor; eassumption|exact Hk].
      * exists s, e. split; [constructor|exact H].
  - rewrite mt_rep in H.
    revert lo s e H.
    induction hi as [|hi IHhi]; intros lo s e H; cbn [rep_loop] in H.
    + destruct lo; [|discriminate].
      exists s, e. split; [constructor|exact H].
    + unfold or_else in H.
      destruct (mt a s e _) eqn:E.
      * inversion H; subst. apply IHa in E.
        destruct E as (s1 & e1 & Ha & Hk).
        apply IHhi in Hk. destruct Hk as (s2 & e2 & Hs & Hk).
        exists s2, e2. split; [econstructor; eassumption|exact Hk].
      * destruct lo; [|discriminate].
        exists s, e. split; [constructor|exact H].
  - rewrite mt_group in H. apply IHa in H. destruct H as (s' & e' & Ha & Hk).
    exists s', ((name, consumed s s') :: e').
    split; [constructor; exact Ha|exact Hk].
  - rewrite mt_ahead in H.
    destruct (mt a s e (fun _ e' => Some e')) as [e1|] eqn:E; [|discriminate].
    apply IHa in E. destruct E as (s' & e' & Ha & Hk).
    inversion Hk; subst. exists s, e1. split; [econstructor; exact Ha|exact H].
Qed.

(** [a+] over a class, at the head of the input. *)
Lemma match_plus_class (p : char -> bool) (s : str) :
  match_ (Plus (Chr p)) s
  = match s with
    | c :: s' =>
        if p c then
          let '(run, rest) := span p s' in Some (mkMatch [] (c :: run) rest [])
        else None
    | [] => None
    end.
Proof.
  unfold match_, Plus. rewrite mt_seq.
  destruct s as [|c s]; [reflexivity|].
  rewrite mt_chr_cons. destruct (p c); [|reflexivity].
  rewrite mt_star_class.
  destruct (span_spec p s) as (E & Hr & Hs).
  destruct (span p s) as [run rest]. simpl in E, Hr, Hs.
  rewrite E at 1.
  erewrite star_class_first; [reflexivity|exact Hr|].
  rewrite star_class_stops by exact Hs.
  rewrite (consumed_prefix (c :: s) (c :: run) rest)
    by (rewrite E; reflexivity).
  reflexivity.
Qed.

(** The leftmost match of [a+] over a class is the first run of it. *)
Lemma search_plus_class (p : char -> bool) (s : str) :
  forall acc,
    search_from (Plus (Chr p)) acc s
    = match first_run p s with
      | Some (pre, run, rest) => Some (mkMatch (rev acc ++ pre) run rest [])
      | None => None
      end.
Proof.
  induction s as [|c s IH]; intros acc.
  - reflexivity.
  - cbn [search_from first_run]. rewrite match_plus_class.
    destruct (p c).
    + destruct (span p s) as [run rest]. cbn [m_text m_post m_env].
      rewrite app_nil_r. reflexivity.
    + rewrite IH. destruct (first_run p s) as [[[pre run] rest]|];
        [|reflexivity].
      cbn [rev]. rewrite <- app_assoc. reflexivity.
Qed.

Lemma first_run_nonempty (p : char -> bool) (s pre run rest : str) :
  first_run p s = Some (pre, run, rest) -> run <> [].
Proof.
  revert pre. induction s as [|c s IH]; intros pre H; [discriminate|].
  simpl in H. destruct (p c).
  - destruct (span p s). inversion H. discriminate.
  - destruct (first_run p s) as [[[pre' run'] rest']|]; [|discriminate].
    inversion H; subst. eapply IH. reflexivity.
Qed.

(** [findall] of [a+] over a class lists the runs of the class. *)
Lemma findall_plus_class (p : char -> bool) (n : nat) :
  forall s, findall_fuel n (Plus (Chr p)) s = runs_fuel n p s.
Proof.
  induction n as [|n IH]; intros s; [reflexivity|].
  cbn [findall_fuel runs_fuel]. unfold search. rewrite search_plus_class.
  destruct (first_run p s) as [[[pre run] rest]|] eqn:E; [|reflexivity].
  cbn [m_text m_post]. apply first_run_nonempty in E.
  destruct run as [|c run]; [congruence|]. rewrite IH. reflexivity.
Qed.

Ltac inv_matches :=
  repeat match goal with
         | H : matches (Seq _ _) _ _ _ _ |- _ => inversion H; subst; clear H
         | H : matches (Alt _ _) _ _ _ _ |- _ => inversion H; subst; clear H
         | H : matches (Group _ _) _ _ _ _ |- _ => inversion H; subst; clear H
         | H : matches (Chr _) _ _ _ _ |- _ => inversion H; subst; clear H
         | H : matches (Ahead _) _ _ _ _ |- _ => inversion H; subst; clear H
         | H : matches (Star (Chr _)) _ _ _ _ |- _ =>
             apply matches_star_class in H;
             let run := fresh "run" in
             let Hr := fresh "Hrun" in
             destruct H as [-> (run & -> & Hr)]
         | H : matches (Rep _ _ (Chr _)) _ _ _ _ |- _ =>
             apply matches_rep_run in H;
             let run := fresh "run" in
             let Hr := fresh "Hrun" in
             let Hl := fresh "Hlen" in
             destruct H as [-> (run & -> & Hr & Hl)]
         end.

(** ** The classifier *)

Import Term Observe Spec.

Section ClassifierProperties.

Local Open Scope string_scope.
Local Open Scope list_scope.

Arguments mt : simpl never.

Lemma mt_lit_same {R} (c : char) (s : str) (e : env) (k : cont R) :
  mt (Lit c) (c :: s) e k = k s e.
Proof. unfold Lit. rewrite mt_chr_cons, N.eqb_refl. reflexivity. Qed.

Lemma mt_lit_other {R} (c d : char) (s : str) (e : env) (k : cont R) :
  c <> d -> mt (Lit c) (d :: s) e k = None.
Proof.
  intros H. unfold Lit. rewrite mt_chr_cons.
  apply N.eqb_neq in H. rewrite H. reflexivity.
Qed.

(** The classes as intervals of code points. *)
Ltac class_arith :=
  repeat match goal with
         | H : _ = true |- _ =>
             rewrite ?orb_true_iff, ?andb_true_iff, ?N.eqb_eq, ?N.leb_le,
               ?N.ltb_lt in H
         end;
  rewrite ?orb_true_iff, ?andb_true_iff, ?orb_false_iff, ?andb_false_iff,
    ?N.eqb_eq, ?N.eqb_neq, ?N.leb_le, ?N.leb_gt, ?N.ltb_lt;
  unfold chr, ESC, BEL, BSL, DQUOTE, LF, EN_DASH in *; cbn in *; lia.

Lemma csi_params_range (c : char) :
  csi_params_class c = true <-> (48 <= c <= 63)%N.
Proof.
  unfold csi_params_class, between, one_of, codes. cbn [existsb map list_ascii_of_string].
  split; intros H; class_arith.
Qed.

Lemma csi_inter_range (c : char) :
  csi_inter_class c = true <-> (33 <= c <= 47)%N.
Proof.
  unfold csi_inter_class, between, one_of, codes. cbn [existsb map list_ascii_of_string].
  split; intros H; class_arith.
Qed.

Lemma csi_final_range (c : char) :
  csi_final_class c = true <->
  ((64 <= c <= 126)%N /\ c <> 92%N) \/ c = 8211%N.
Proof.
  unfold csi_final_class, between, one_of, codes.
  cbn [existsb map list_ascii_of_string app].
  split; intros H; class_arith.
Qed.

Lemma params_not_inter (c : char) :
  csi_params_class c = true -> csi_inter_class c = false.
Proof.
  intros H. apply csi_params_range in H.
  destruct (csi_inter_class c) eqn:E; [|reflexivity].
  apply csi_inter_range in E. lia.
Qed.

Lemma params_not_final (c : char) :
  csi_params_class c = true -> csi_final_class c = false.
Proof.
  intros H. apply csi_params_range in H.
  destruct (csi_final_class c) eqn:E; [|reflexivity].
  apply csi_final_range in E. lia.
Qed.

Lemma inter_not_params (c : char) :
  csi_inter_class c = true -> csi_params_class c = false.
Proof.
  intros H. apply csi_inter_range in H.
  destruct (csi_params_class c) eqn:E; [|reflexivity].
  apply csi_params_range in E. lia.
Qed.

Lemma inter_not_final (c : char) :
  csi_inter_class c = true -> csi_final_class c = false.
Proof.
  intros H. apply csi_inter_range in H.
  destruct (csi_final_class c) eqn:E; [|reflexivity].
  apply csi_final_range in E. lia.
Qed.

Lemma final_not_params (c : char) :
  csi_final_class c = true -> csi_params_class c = false.
Proof.
  intros H. destruct (csi_params_class c) eqn:E; [|reflexivity].
  apply params_not_final in E. congruence.
Qed.

Lemma final_not_inter (c : char) :
  csi_final_class c = true -> csi_inter_class c = false.
Proof.
  intros H. destruct (csi_inter_class c) eqn:E; [|reflexivity].
  apply inter_not_final in E. congruence.
Qed.

(** The pattern after [ESC \[], on parameter bytes, intermediate bytes
    and a final byte: the CSI alternative takes all three. *)
Lemma match_csi (P I : str) (f : char) (rest : str) :
  forallb csi_params_class P = true ->
  forallb csi_inter_class I = true ->
  csi_final_class f = true ->
  match_ CONTROL_RE (ESC :: chr "[" :: P ++ I ++ f :: rest)
  = Some (mkMatch [] (ESC :: chr "[" :: P ++ I ++ [f]) rest
            [("csi", chr "[" :: P ++ I ++ [f]); ("csi_final", [f]);
             ("csi_inter", I); ("csi_params", P)]).
Proof.
  intros HP HI Hf. unfold match_, CONTROL_RE.
  rewrite mt_seq, mt_lit_same.
  rewrite mt_alt, mt_group, mt_seq, mt_lit_same, mt_seq, mt_group,
    mt_star_class.
  erewrite star_class_first; [reflexivity|exact HP|].
  rewrite star_class_stops.
  2:{ destruct I as [|c I]; simpl.
      - rewrite final_not_params by exact Hf. reflexivity.
      - simpl in HI. apply andb_prop in HI. destruct HI as [Hc _].
        rewrite inter_not_params by exact Hc. reflexivity. }
  rewrite mt_seq, mt_group, mt_star_class.
  erewrite star_class_first; [reflexivity|exact HI|].
  rewrite star_class_stops
    by (simpl; rewrite final_not_inter by exact Hf; reflexivity).
  rewrite mt_group, mt_chr_cons, Hf.
  rewrite (consumed_prefix (ESC :: chr "[" :: P ++ I ++ f :: rest)
             (ESC :: chr "[" :: P ++ I ++ [f]) rest)
    by (simpl; rewrite <- !app_assoc; reflexivity).
  rewrite (consumed_prefix (chr "[" :: P ++ I ++ f :: rest)
             (chr "[" :: P ++ I ++ [f]) rest)
    by (simpl; rewrite <- !app_assoc; reflexivity).
  rewrite (consumed_prefix (f :: rest) [f] rest) by reflexivity.
  rewrite (consumed_prefix (I ++ f :: rest) I (f :: rest)) by reflexivity.
  rewrite (consumed_prefix (P ++ I ++ f :: rest) P (I ++ f :: rest))
    by reflexivity.
  reflexivity.
Qed.

(** The same pattern when no final byte follows the two runs: the CSI
    alternative is given up at every point of the runs, the OSC and APC
    alternatives do not start with a bracket, and the Fe alternative
    takes the bracket alone. *)
Lemma match_csi_none (P I r2 : str) :
  forallb csi_params_class P = true ->
  forallb csi_inter_class I = true ->
  stops csi_params_class (I ++ r2) = true ->
  stops csi_inter_class r2 = true ->
  stops csi_final_class r2 = true ->
  match_ CONTROL_RE (ESC :: chr "[" :: P ++ I ++ r2)
  = Some (mkMatch [] [ESC; chr "["] (P ++ I ++ r2) [("fe", [chr "["])]).
Proof.
  intros HP HI Hs1 Hs2 Hsf. unfold match_, CONTROL_RE.
  rewrite mt_seq, mt_lit_same.
  rewrite mt_alt, mt_group, mt_seq, mt_lit_same, mt_seq, mt_group,
    mt_star_class.
  rewrite star_class_run_none; [|exact Hs1|].
  - cbn [or_else].
    rewrite mt_alt, mt_group, mt_seq, mt_lit_other by discriminate.
    cbn [or_else].
    rewrite mt_alt, mt_group, mt_seq, mt_lit_other by discriminate.
    cbn [or_else].
    rewrite mt_group, mt_chr_cons.
    replace (fe_class (chr "[")) with true by reflexivity.
    rewrite (consumed_prefix (ESC :: chr "[" :: P ++ I ++ r2)
               [ESC; chr "["] (P ++ I ++ r2)) by reflexivity.
    rewrite (consumed_prefix (chr "[" :: P ++ I ++ r2)
               [chr "["] (P ++ I ++ r2)) by reflexivity.
    reflexivity.
  - intros a b Hab. rewrite mt_seq, mt_group, mt_star_class.
    destruct b as [|c b].
    + cbn [app]. apply star_class_run_none; [exact Hs2|].
      intros a' b' Hab'. rewrite mt_group.
      destruct b' as [|c' b']; cbn [app].
      * destruct r2 as [|f r2]; [apply mt_chr_nil|].
        rewrite mt_chr_cons. simpl in Hsf. apply negb_true_iff in Hsf.
        rewrite Hsf. reflexivity.
      * rewrite mt_chr_cons.
        rewrite Hab', forallb_app in HI. apply andb_prop in HI.
        destruct HI as [_ HI]. simpl in HI. apply andb_prop in HI.
        destruct HI as [Hc _].
        rewrite inter_not_final by exact Hc. reflexivity.
    + rewrite Hab, forallb_app in HP. apply andb_prop in HP.
      destruct HP as [_ HP]. simpl in HP. apply andb_prop in HP.
      destruct HP as [Hc _].
      rewrite star_class_stops
        by (simpl; rewrite params_not_inter by exact Hc; reflexivity).
      rewrite mt_group. cbn [app]. rewrite mt_chr_cons.
      rewrite params_not_final by exact Hc. reflexivity.
Qed.

(** Every alternative of [CONTROL_RE] starts with the escape character. *)
Lemma match_not_escape (c : char) (s : str) :
  c <> ESC -> match_ CONTROL_RE (c :: s) = None.
Proof.
  intros H. unfold match_, CONTROL_RE.
  rewrite mt_seq, mt_lit_other by congruence. reflexivity.
Qed.

Lemma search_from_skip (pre : str) :
  forall acc s,
    no_escape pre = true ->
    search_from CONTROL_RE acc (pre ++ s)
    = search_from CONTROL_RE (rev pre ++ acc) s.
Proof.
  induction pre as [|c pre IH]; intros acc s H; [reflexivity|].
  simpl in H. apply andb_prop in H. destruct H as [Hc H].
  apply negb_true_iff, N.eqb_neq in Hc.
  cbn [app search_from]. rewrite (match_not_escape c (pre ++ s) Hc).
  rewrite IH by exact H. cbn [rev]. rewrite <- app_assoc. reflexivity.
Qed.

(** The leftmost match of a buffer whose first escape character starts a
    match is that match. *)
Lemma search_first_escape (pre s : str) (m : Match) :
  no_escape pre = true ->
  match_ CONTROL_RE s = Some m ->
  search CONTROL_RE (pre ++ s)
  = Some (mkMatch pre (m_text m) (m_post m) (m_env m)).
Proof.
  intros Hpre Hm. unfold search. rewrite search_from_skip by exact Hpre.
  destruct s as [|c s]; cbn [search_from]; rewrite Hm;
    rewrite app_nil_r, rev_involutive; reflexivity.
Qed.

Lemma csi_split_some (final : char -> bool) (rest P J : str) (f : char) :
  csi_split final rest = Some (P, J, f) ->
  exists r3,
    rest = P ++ J ++ f :: r3 /\ forallb csi_params_class P = true /\
    forallb csi_inter_class J = true /\ final f = true.
Proof.
  unfold csi_split. intros H.
  destruct (span_spec csi_params_class rest) as (E1 & HP & _).
  destruct (span csi_params_class rest) as [P0 r1]. simpl in *.
  destruct (span_spec csi_inter_class r1) as (E2 & HI & _).
  destruct (span csi_inter_class r1) as [J0 r2]. simpl in *.
  destruct r2 as [|f0 r3]; [discriminate|].
  destruct (final f0) eqn:Hf; [|discriminate].
  inversion H; subst. exists r3. repeat split; assumption.
Qed.

Lemma csi_split_none (final : char -> bool) (rest : str) :
  csi_split final rest = None ->
  exists P J r2,
    rest = P ++ J ++ r2 /\ forallb csi_params_class P = true /\
    forallb csi_inter_class J = true /\
    stops csi_params_class (J ++ r2) = true /\
    stops csi_inter_class r2 = true /\ stops final r2 = true.
Proof.
  unfold csi_split. intros H.
  destruct (span_spec csi_params_class rest) as (E1 & HP & Hs1).
  destruct (span csi_params_class rest) as [P r1]. simpl in *.
  destruct (span_spec csi_inter_class r1) as (E2 & HI & Hs2).
  destruct (span csi_inter_class r1) as [J r2]. simpl in *.
  exists P, J, r2. subst r1 rest. repeat split; try assumption.
  destruct r2 as [|f r3]; [reflexivity|]. simpl.
  destruct (final f); [discriminate|reflexivity].
Qed.

(** What the classifier makes of a buffer whose first escape character is
    followed by a bracket. *)
Lemma classify_bracket (pre rest : str) :
  no_escape pre = true ->
  classify (pre ++ ESC :: chr "[" :: rest)
  = Some match csi_split csi_final_class rest with
         | Some (P, J, f) => csi_dict P J [f]
         | None => fe_dict (chr "[")
         end.
Proof.
  intros Hpre. unfold classify.
  destruct (csi_split csi_final_class rest) as [[[P J] f]|] eqn:E.
  - apply csi_split_some in E. destruct E as (r3 & -> & HP & HI & Hf).
    rewrite (search_first_escape pre _ _ Hpre (match_csi P J f r3 HP HI Hf)).
    reflexivity.
  - apply csi_split_none in E.
    destruct E as (P & J & r2 & -> & HP & HI & Hs1 & Hs2 & Hsf).
    rewrite (search_first_escape pre _ _ Hpre
               (match_csi_none P J r2 HP HI Hs1 Hs2 Hsf)).
    reflexivity.
Qed.

Lemma has_terminator_suffix (pre t : str) :
  has_terminator (pre ++ t) = false -> terminator_here t = false.
Proof.
  induction pre as [|c pre IH]; intros H.
  - destruct t as [|c t]; [reflexivity|].
    cbn [app has_terminator] in H. apply orb_false_iff in H. apply H.
  - cbn [app has_terminator] in H. apply orb_false_iff in H.
    apply IH, H.
Qed.

Lemma has_st_suffix (pre t : str) :
  has_st (pre ++ t) = false -> st_here t = false.
Proof.
  induction pre as [|c pre IH]; intros H.
  - destruct t as [|c t]; [reflexivity|].
    cbn [app has_st] in H. apply orb_false_iff in H. apply H.
  - cbn [app has_st] in H. apply orb_false_iff in H.
    apply IH, H.
Qed.

(** The lookahead of [osc_string] fails where no terminator starts. *)
Lemma ahead_terminator_none {R} (t : str) (e : env) (k : cont R) :
  terminator_here t = false -> mt (Ahead ST_or_BEL) t e k = None.
Proof.
  intros H. rewrite mt_ahead. unfold ST_or_BEL, ST.
  rewrite mt_alt, mt_seq.
  destruct t as [|c t]; [reflexivity|].
  cbn [terminator_here] in H. apply orb_false_iff in H. destruct H as [Hb He].
  destruct (N.eqb_spec c ESC) as [->|Hne].
  - rewrite mt_lit_same. simpl in He.
    destruct t as [|d t].
    + unfold Lit. rewrite mt_chr_nil. cbn [or_else].
      rewrite mt_chr_cons. reflexivity.
    + destruct (N.eqb_spec d BSL) as [->|Hd]; [discriminate|].
      rewrite mt_lit_other by congruence. cbn [or_else].
      rewrite mt_lit_other by discriminate. reflexivity.
  - rewrite mt_lit_other by congruence. cbn [or_else].
    rewrite mt_lit_other; [reflexivity|].
    intros <-. rewrite N.eqb_refl in Hb. discriminate.
Qed.

(** The lookahead of [apc_string] fails where no [ESC \\] starts. *)
Lemma ahead_st_none {R} (t : str) (e : env) (k : cont R) :
  st_here t = false -> mt (Ahead ST) t e k = None.
Proof.
  intros H. rewrite mt_ahead. unfold ST. rewrite mt_seq.
  destruct t as [|c t]; [reflexivity|].
  destruct (N.eqb_spec c ESC) as [->|Hne].
  - rewrite mt_lit_same. destruct t as [|d t]; [reflexivity|].
    cbn [st_here] in H. rewrite N.eqb_refl in H. simpl in H.
    apply N.eqb_neq in H. rewrite mt_lit_other by congruence. reflexivity.
  - rewrite mt_lit_other by congruence. reflexivity.
Qed.

(** An OSC string without a terminator: the OSC alternative is given up,
    and the Fe alternative takes the closing bracket alone. *)
Lemma match_osc_open (payload : str) :
  has_terminator payload = false ->
  match_ CONTROL_RE (ESC :: chr "]" :: payload)
  = Some (mkMatch [] [ESC; chr "]"] payload [("fe", [chr "]"])]).
Proof.
  intros H. unfold match_, CONTROL_RE.
  rewrite mt_seq, mt_lit_same.
  rewrite mt_alt, mt_group, mt_seq, mt_lit_other by discriminate.
  cbn [or_else].
  rewrite mt_alt, mt_group, mt_seq, mt_lit_same, mt_seq, mt_group, mt_seq,
    mt_star_class.
  rewrite star_class_none.
  2:{ intros pre t Hp. apply ahead_terminator_none.
      apply (has_terminator_suffix pre t). rewrite <- Hp. exact H. }
  cbn [or_else].
  rewrite mt_alt, mt_group, mt_seq, mt_lit_other by discriminate.
  cbn [or_else].
  rewrite mt_group, mt_chr_cons.
  replace (fe_class (chr "]")) with true by reflexivity.
  rewrite (consumed_prefix (ESC :: chr "]" :: payload)
             [ESC; chr "]"] payload) by reflexivity.
  rewrite (consumed_prefix (chr "]" :: payload) [chr "]"] payload)
    by reflexivity.
  reflexivity.
Qed.

(** The same for an APC string without [ESC \\]. *)
Lemma match_apc_open (payload : str) :
  has_st payload = false ->
  match_ CONTROL_RE (ESC :: chr "_" :: payload)
  = Some (mkMatch [] [ESC; chr "_"] payload [("fe", [chr "_"])]).
Proof.
  intros H. unfold match_, CONTROL_RE.
  rewrite mt_seq, mt_lit_same.
  rewrite mt_alt, mt_group, mt_seq, mt_lit_other by discriminate.
  cbn [or_else].
  rewrite mt_alt, mt_group, mt_seq, mt_lit_other by discriminate.
  cbn [or_else].
  rewrite mt_alt, mt_group, mt_seq, mt_lit_same, mt_seq, mt_group, mt_seq,
    mt_star_class.
  rewrite star_class_none.
  2:{ intros pre t Hp. apply ahead_st_none.
      apply (has_st_suffix pre t). rewrite <- Hp. exact H. }
  cbn [or_else].
  rewrite mt_group, mt_chr_cons.
  replace (fe_class (chr "_")) with true by reflexivity.
  rewrite (consumed_prefix (ESC :: chr "_" :: payload)
             [ESC; chr "_"] payload) by reflexivity.
  rewrite (consumed_prefix (chr "_" :: payload) [chr "_"] payload)
    by reflexivity.
  reflexivity.
Qed.

Lemma mt_term_bel {R} (t : str) (e : env) (k : cont R) :
  mt ST_or_BEL (BEL :: t) e k = k t e.
Proof.
  unfold ST_or_BEL, ST. rewrite mt_alt, mt_seq, mt_lit_other by discriminate.
  cbn [or_else]. apply mt_lit_same.
Qed.

Lemma mt_st {R} (t : str) (e : env) (k : cont R) :
  mt ST (ESC :: BSL :: t) e k = k t e.
Proof. unfold ST. rewrite mt_seq, !mt_lit_same. reflexivity. Qed.

Lemma mt_term_st {R} (t : str) (e : env) (k : cont R) :
  mt ST_or_BEL (ESC :: BSL :: t) e k = k t e.
Proof.
  unfold ST_or_BEL. rewrite mt_alt, mt_st.
  rewrite mt_lit_other by discriminate. destruct (k t e); reflexivity.
Qed.

Lemma star_dot_bel {R} (e : env) (k : cont R) :
  k [] e = None -> star_class dot [BEL] e k = k [BEL] e.
Proof. intros H. cbn [star_class]. rewrite H. reflexivity. Qed.

Lemma star_dot_st {R} (e : env) (k : cont R) :
  k [] e = None -> k [BSL] e = None ->
  star_class dot [ESC; BSL] e k = k [ESC; BSL] e.
Proof. intros H0 H1. cbn [star_class]. rewrite H0, H1. reflexivity. Qed.

(** An OSC string closed by BEL: the string is all that lies between the
    bracket and the bell. *)
Lemma match_osc_bel (payload : str) :
  forallb dot payload = true ->
  match_ CONTROL_RE (ESC :: chr "]" :: payload ++ [BEL])
  = Some (mkMatch [] (ESC :: chr "]" :: payload ++ [BEL]) []
            [("osc", chr "]" :: payload ++ [BEL]); ("osc_term", [BEL]);
             ("osc_string", payload)]).
Proof.
  intros H. unfold match_, CONTROL_RE.
  rewrite mt_seq, mt_lit_same.
  rewrite mt_alt, mt_group, mt_seq, mt_lit_other by discriminate.
  cbn [or_else].
  rewrite mt_alt, mt_group, mt_seq, mt_lit_same, mt_seq, mt_group, mt_seq,
    mt_star_class.
  erewrite star_class_first; [reflexivity|exact H|].
  rewrite star_dot_bel by (apply ahead_terminator_none; reflexivity).
  rewrite mt_ahead, mt_term_bel, mt_group, mt_term_bel.
  rewrite (consumed_prefix (payload ++ [BEL]) payload [BEL]) by reflexivity.
  rewrite (consumed_prefix [BEL] [BEL] []) by reflexivity.
  rewrite (consumed_prefix (chr "]" :: payload ++ [BEL])
             (chr "]" :: payload ++ [BEL]) [])
    by (rewrite app_nil_r; reflexivity).
  rewrite (consumed_prefix (ESC :: chr "]" :: payload ++ [BEL])
             (ESC :: chr "]" :: payload ++ [BEL]) [])
    by (rewrite app_nil_r; reflexivity).
  reflexivity.
Qed.

(** An OSC string closed by [ESC \\]. *)
Lemma match_osc_st (payload : str) :
  forallb dot payload = true ->
  match_ CONTROL_RE (ESC :: chr "]" :: payload ++ [ESC; BSL])
  = Some (mkMatch [] (ESC :: chr "]" :: payload ++ [ESC; BSL]) []
            [("osc", chr "]" :: payload ++ [ESC; BSL]);
             ("osc_term", [ESC; BSL]); ("osc_string", payload)]).
Proof.
  intros H. unfold match_, CONTROL_RE.
  rewrite mt_seq, mt_lit_same.
  rewrite mt_alt, mt_group, mt_seq, mt_lit_other by discriminate.
  cbn [or_else].
  rewrite mt_alt, mt_group, mt_seq, mt_lit_same, mt_seq, mt_group, mt_seq,
    mt_star_class.
  erewrite star_class_first; [reflexivity|exact H|].
  rewrite star_dot_st by (apply ahead_terminator_none; reflexivity).
  rewrite mt_ahead, mt_term_st, mt_group, mt_term_st.
  rewrite (consumed_prefix (payload ++ [ESC; BSL]) payload [ESC; BSL])
    by reflexivity.
  rewrite (consumed_prefix [ESC; BSL] [ESC; BSL] []) by reflexivity.
  rewrite (consumed_prefix (chr "]" :: payload ++ [ESC; BSL])
             (chr "]" :: payload ++ [ESC; BSL]) [])
    by (rewrite app_nil_r; reflexivity).
  rewrite (consumed_prefix (ESC :: chr "]" :: payload ++ [ESC; BSL])
             (ESC :: chr "]" :: payload ++ [ESC; BSL]) [])
    by (rewrite app_nil_r; reflexivity).
  reflexivity.
Qed.

(** An APC string closed by [ESC \\]. *)
Lemma match_apc_st (payload : str) :
  forallb dot payload = true ->
  match_ CONTROL_RE (ESC :: chr "_" :: payload ++ [ESC; BSL])
  = Some (mkMatch [] (ESC :: chr "_" :: payload ++ [ESC; BSL]) []
            [("apc", chr "_" :: payload ++ [ESC; BSL]);
             ("apc_term", [ESC; BSL]); ("apc_string", payload)]).
Proof.
  intros H. unfold match_, CONTROL_RE.
  rewrite mt_seq, mt_lit_same.
  rewrite mt_alt, mt_group, mt_seq, mt_lit_other by discriminate.
  cbn [or_else].
  rewrite mt_alt, mt_group, mt_seq, mt_lit_other by discriminate.
  cbn [or_else].
  rewrite mt_alt, mt_group, mt_seq, mt_lit_same, mt_seq, mt_group, mt_seq,
    mt_star_class.
  erewrite star_class_first; [reflexivity|exact H|].
  rewrite star_dot_st by (apply ahead_st_none; reflexivity).
  rewrite mt_ahead, mt_st, mt_group, mt_st.
  rewrite (consumed_prefix (payload ++ [ESC; BSL]) payload [ESC; BSL])
    by reflexivity.
  rewrite (consumed_prefix [ESC; BSL] [ESC; BSL] []) by reflexivity.
  rewrite (consumed_prefix (chr "_" :: payload ++ [ESC; BSL])
             (chr "_" :: payload ++ [ESC; BSL]) [])
    by (rewrite app_nil_r; reflexivity).
  rewrite (consumed_prefix (ESC :: chr "_" :: payload ++ [ESC; BSL])
             (ESC :: chr "_" :: payload ++ [ESC; BSL]) [])
    by (rewrite app_nil_r; reflexivity).
  reflexivity.
Qed.

Lemma classify_at_start (s : str) (m : Match) :
  match_ CONTROL_RE s = Some m ->
  classify s = Some (groupdict CONTROL_RE m).
Proof.
  intros H. unfold classify.
  pose proof (search_first_escape [] s m eq_refl H) as Hs.
  cbn [app] in Hs. rewrite Hs. reflexivity.
Qed.

(** On bytes the final class of the pattern is the listed alphabet with
    the four signs after [z]. *)
Lemma final_byte_range (c : char) :
  final_byte c = true <-> (64 <= c <= 126)%N /\ c <> 92%N.
Proof.
  unfold final_byte, spec_final_byte, between, one_of, codes.
  cbn [existsb map list_ascii_of_string].
  split; intros H; class_arith.
Qed.

Lemma final_byte_agrees (c : char) :
  is_byte c = true -> final_byte c = csi_final_class c.
Proof.
  intros Hb. unfold is_byte in Hb. apply N.ltb_lt in Hb.
  destruct (final_byte c) eqn:E1, (csi_final_class c) eqn:E2; try reflexivity.
  - apply final_byte_range in E1.
    assert (csi_final_class c = true) by (apply csi_final_range; lia).
    congruence.
  - apply csi_final_range in E2.
    assert (final_byte c = true) by (apply final_byte_range; lia).
    congruence.
Qed.

Lemma csi_split_agree (f1 f2 : char -> bool) (rest : str) :
  (forall c, In c rest -> f1 c = f2 c) ->
  csi_split f1 rest = csi_split f2 rest.
Proof.
  intros H. unfold csi_split.
  destruct (span_spec csi_params_class rest) as (E1 & _ & _).
  destruct (span csi_params_class rest) as [P r1]. simpl in *.
  destruct (span_spec csi_inter_class r1) as (E2 & _ & _).
  destruct (span csi_inter_class r1) as [J r2]. simpl in *.
  destruct r2 as [|f r3]; [reflexivity|].
  rewrite (H f); [reflexivity|].
  subst rest r1. apply in_or_app. right. apply in_or_app. right.
  left. reflexivity.
Qed.

Lemma is_csi_csi_dict (P J F : str) : is_csi (Some (csi_dict P J F)) = true.
Proof. reflexivity. Qed.

Lemma is_csi_fe_dict (c : char) : is_csi (Some (fe_dict c)) = false.
Proof. reflexivity. Qed.

End ClassifierProperties.

(** C6, as amended. A buffer of bytes whose first escape character is
    followed by a bracket classifies as a CSI sequence exactly when the
    longest run of parameter bytes and the longest run of intermediate
    bytes after the bracket are followed by one final byte out of the
    letters, the signs from the at sign to the backquote without the
    backslash, and the four signs after [z]; the three fields of the
    match are the two runs and that byte.  Otherwise the buffer
    classifies as the bare Fe sequence of the bracket. *)
Theorem csi_classified_by_final_byte (pre rest : str) :
  no_escape pre = true ->
  forallb is_byte rest = true ->
  classify (pre ++ ESC :: chr "[" :: rest)
  = Some match csi_split final_byte rest with
         | Some (P, J, f) => csi_dict P J [f]
         | None => fe_dict (chr "[")
         end /\
  (is_csi (classify (pre ++ ESC :: chr "[" :: rest)) = true <->
   csi_split final_byte rest <> None).
Proof.
  intros Hpre Hbytes.
  assert (E : csi_split final_byte rest = csi_split csi_final_class rest).
  { apply csi_split_agree. intros c Hc. apply final_byte_agrees.
    rewrite forallb_forall in Hbytes. apply Hbytes, Hc. }
  rewrite (classify_bracket pre rest Hpre), E.
  split; [reflexivity|].
  destruct (csi_split csi_final_class rest) as [[[P J] f]|].
  - rewrite is_csi_csi_dict. split; [discriminate|reflexivity].
  - rewrite is_csi_fe_dict. split; [discriminate|congruence].
Qed.

(** A sequence with a tilde as its final byte. *)
Lemma csi_classified_by_final_byte_witness :
  classify (codes "ab" ++ ESC :: chr "[" :: codes "15;2~" )
  = Some (csi_dict (codes "15;2") [] (codes "~")) /\
  (is_csi (classify (codes "ab" ++ ESC :: chr "[" :: codes "15;2~")) = true <->
   csi_split final_byte (codes "15;2~") <> None).
Proof.
  apply (csi_classified_by_final_byte (codes "ab") (codes "15;2~"));
    reflexivity.
Defined.

(** C6 as worded fails: [ESC \[ ~] classifies as a CSI sequence, and the
    tilde is no letter and none of the six listed signs. *)
Lemma tilde_is_a_final_byte : ~ csi_exactly_when spec_final_byte.
Proof.
  intros H. destruct (H (codes "~")) as [H1 _].
  apply H1; reflexivity.
Qed.

(** A leftmost match is a match at the head of some tail of the buffer. *)
Lemma search_from_match (r : re) (s : str) :
  forall acc m,
    search_from r acc s = Some m ->
    exists s0 m0, match_ r s0 = Some m0 /\ m_env m = m_env m0.
Proof.
  induction s as [|c s IH]; intros acc m H; cbn [search_from] in H.
  - destruct (match_ r []) as [m0|] eqn:E; [|discriminate].
    inversion H; subst. exists [], m0. split; [exact E|reflexivity].
  - destruct (match_ r (c :: s)) as [m0|] eqn:E.
    + inversion H; subst. exists (c :: s), m0. split; [exact E|reflexivity].
    + eapply IH. exact H.
Qed.

(** The [csi_params] of a match of [CONTROL_RE] are parameter bytes. *)
Lemma match_params_class (s : str) (m : Match) (params : str) :
  match_ CONTROL_RE s = Some m ->
  lookup "csi_params" (m_env m) = Some params ->
  forallb csi_params_class params = true.
Proof.
  unfold match_. intros H Hl. apply mt_sound in H.
  destruct H as (s' & e' & Hm & Hk). inversion Hk; subst; clear Hk.
  cbn [m_env] in Hl.
  unfold CONTROL_RE, ST_or_BEL, ST, Lit in Hm.
  inv_matches; cbn in Hl; try discriminate.
  inversion Hl; subst. rewrite consumed_app. assumption.
Qed.

Lemma classify_groupdict (output : str) (d : dict) :
  classify output = Some d ->
  exists s0 m0, match_ CONTROL_RE s0 = Some m0 /\ d = groupdict CONTROL_RE m0.
Proof.
  unfold classify, search. intros H.
  destruct (search_from CONTROL_RE [] output) as [m|] eqn:E; [|discriminate].
  inversion H; subst. apply search_from_match in E.
  destruct E as (s0 & m0 & Hm & He). exists s0, m0. split; [exact Hm|].
  unfold groupdict. rewrite He. reflexivity.
Qed.

(** What a classification holds under [csi_params], whatever default the
    lookup is given, is a string of parameter bytes. *)
Lemma classify_params (output : str) (d : dict) :
  classify output = Some d ->
  truthy (Some d) = Some d /\
  forall default,
    dict_get d "csi_params" default = dict_get d "csi_params" None /\
    forall params,
      dict_get d "csi_params" None = Some params ->
      forallb csi_params_class params = true.
Proof.
  intros H. apply classify_groupdict in H.
  destruct H as (s0 & m0 & Hm & ->).
  split; [reflexivity|]. intros default. split; [reflexivity|].
  intros params Hp. apply (match_params_class s0 m0 params Hm). exact Hp.
Qed.

Lemma final_byte_in_class (f : char) :
  final_byte f = true -> csi_final_class f = true.
Proof.
  intros H. rewrite <- final_byte_agrees; [exact H|].
  apply final_byte_range in H. unfold is_byte. apply N.ltb_lt. lia.
Qed.

(** C5, as amended. A buffer built around a payload gives the payload
    back: parameter bytes between [ESC \[] and the rest of a CSI sequence
    come back as [csi_params]; a payload without a newline between
    [ESC \]] and either terminator comes back as [osc_string], the
    terminator as [osc_term]; a payload without a newline between
    [ESC _] and [ESC \\] comes back as [apc_string], the terminator as
    [apc_term].  An OSC or APC buffer that holds no terminator of its kind
    has no string value: it classifies as the bare Fe sequence of its
    second character. *)
Theorem classifier_round_trip (P J : str) (f : char) (payload : str) :
  (forallb csi_params_class P = true ->
   forallb csi_inter_class J = true -> final_byte f = true ->
   classify (ESC :: chr "[" :: P ++ J ++ [f]) = Some (csi_dict P J [f])) /\
  (forallb dot payload = true ->
   classify (ESC :: chr "]" :: payload ++ [BEL])
   = Some (osc_dict payload [BEL]) /\
   classify (ESC :: chr "]" :: payload ++ [ESC; BSL])
   = Some (osc_dict payload [ESC; BSL]) /\
   classify (ESC :: chr "_" :: payload ++ [ESC; BSL])
   = Some (apc_dict payload [ESC; BSL])) /\
  (has_terminator payload = false ->
   classify (ESC :: chr "]" :: payload) = Some (fe_dict (chr "]"))) /\
  (has_st payload = false ->
   classify (ESC :: chr "_" :: payload) = Some (fe_dict (chr "_"))).
Proof.
  repeat split.
  - intros HP HJ Hf. apply final_byte_in_class in Hf.
    rewrite (classify_at_start _ _ (match_csi P J f [] HP HJ Hf)).
    reflexivity.
  - rewrite (classify_at_start _ _ (match_osc_bel payload H)). reflexivity.
  - rewrite (classify_at_start _ _ (match_osc_st payload H)). reflexivity.
  - rewrite (classify_at_start _ _ (match_apc_st payload H)). reflexivity.
  - intros H. rewrite (classify_at_start _ _ (match_osc_open payload H)).
    reflexivity.
  - intros H. rewrite (classify_at_start _ _ (match_apc_open payload H)).
    reflexivity.
Qed.

(** The answers to the pixel-size and background-colour probes, and an
    APC payload in which a bell does not count as a terminator. *)
Lemma classifier_round_trip_witness :
  classify (ESC :: chr "[" :: codes "4;600;800" ++ [] ++ [chr "t"])
  = Some (csi_dict (codes "4;600;800") [] [chr "t"]) /\
  classify (ESC :: chr "]" :: codes "11;rgb:1234/5678/9abc" ++ [ESC; BSL])
  = Some (osc_dict (codes "11;rgb:1234/5678/9abc") [ESC; BSL]) /\
  classify (ESC :: chr "_" :: codes "Gi=1;OK" ++ [BEL])
  = Some (fe_dict (chr "_")).
Proof.
  destruct (classifier_round_trip (codes "4;600;800") [] (chr "t")
              (codes "11;rgb:1234/5678/9abc")) as (Hcsi & Hosc & _ & _).
  destruct (classifier_round_trip [] [] (chr "t") (codes "Gi=1;OK" ++ [BEL]))
    as (_ & _ & _ & Hapc).
  split; [apply Hcsi; reflexivity|].
  split; [apply (Hosc eq_refl)|].
  apply Hapc. reflexivity.
Defined.

(** C5 as worded fails in its last sentence: the unterminated buffer
    [ESC \] 11;rgb:] classifies, as the Fe sequence [ESC \]]. *)
Lemma unterminated_osc_classifies : ~ unterminated_unclassified.
Proof.
  intros H. specialize (H (codes "11;rgb:") eq_refl). discriminate H.
Qed.

(** Two more buffers the round trip does not cover: a newline inside an
    OSC payload ends the string the pattern can take, and a bell does not
    close an APC string; both classify as bare Fe sequences. *)
Lemma osc_payload_with_newline :
  classify (ESC :: chr "]" :: codes "a" ++ [LF] ++ codes "b" ++ [BEL])
  = Some (fe_dict (chr "]")).
Proof. reflexivity. Qed.

Lemma apc_closed_by_bell :
  classify (ESC :: chr "_" :: codes "Gi=1;OK" ++ [BEL])
  = Some (fe_dict (chr "_")).
Proof. reflexivity. Qed.

(** ** The colour report *)

Section ColorProperties.

Local Open Scope string_scope.
Local Open Scope list_scope.

Arguments mt : simpl never.

Ltac assoc_eq :=
  repeat (rewrite <- app_assoc || rewrite <- app_comm_cons); reflexivity.

(** A payload that starts as a colour report matches the pattern: the
    first two fields are taken whole, the third with the hexadecimal
    digits that may follow it, up to four in all. *)
Lemma match_color_report (payload R G B rest : str) :
  color_report payload R G B rest ->
  exists text Bx rest',
    match_ background_color_pattern payload
    = Some (mkMatch [] text rest' [("b", B ++ Bx); ("g", G); ("r", R)]).
Proof.
  intros ((HRl & HR) & (HGl & HG) & (HBl & HB) & ->).
  destruct (span_upto_spec (4 - length B) hexdigit rest)
    as (E & Hx & Hxl & Hend).
  destruct (span_upto (4 - length B) hexdigit rest) as [Bx rest'].
  cbn [fst snd] in E, Hx, Hxl, Hend. subst rest.
  exists (codes "11;rgb:" ++ R ++ chr "/" :: G ++ chr "/" :: B ++ Bx),
    Bx, rest'.
  unfold match_, background_color_pattern.
  rewrite mt_str, mt_seq, mt_group, mt_rep.
  erewrite rep_loop_first;
    [reflexivity|exact HR|lia|lia|right; reflexivity|].
  rewrite mt_seq, mt_lit_same, mt_seq, mt_group, mt_rep.
  erewrite rep_loop_first;
    [reflexivity|exact HG|lia|lia|right; reflexivity|].
  rewrite mt_seq, mt_lit_same, mt_group, mt_rep.
  rewrite (app_assoc B Bx rest').
  erewrite (rep_loop_first _ _ _ _ rest' _ (B ++ Bx));
    [reflexivity
    |rewrite forallb_app, HB, Hx; reflexivity
    |rewrite length_app; lia
    |rewrite length_app; lia
    |rewrite length_app; destruct Hend; [left; lia|right; assumption]
    |].
  rewrite (consumed_prefix ((B ++ Bx) ++ rest') (B ++ Bx) rest')
    by reflexivity.
  rewrite (consumed_prefix (G ++ chr "/" :: (B ++ Bx) ++ rest') G
             (chr "/" :: (B ++ Bx) ++ rest')) by reflexivity.
  rewrite (consumed_prefix
             (R ++ chr "/" :: G ++ chr "/" :: (B ++ Bx) ++ rest')
             R (chr "/" :: G ++ chr "/" :: (B ++ Bx) ++ rest'))
    by reflexivity.
  rewrite (consumed_prefix
             (codes "11;rgb:" ++ R ++ chr "/" :: G ++ chr "/"
                :: (B ++ Bx) ++ rest')
             (codes "11;rgb:" ++ R ++ chr "/" :: G ++ chr "/" :: B ++ Bx)
             rest')
    by assoc_eq.
  reflexivity.
Qed.

(** A payload the pattern matches starts as a colour report. *)
Lemma match_color_sound (payload : str) (m : Match) :
  match_ background_color_pattern payload = Some m ->
  exists R G B rest, color_report payload R G B rest.
Proof.
  unfold match_. intros H. apply mt_sound in H.
  destruct H as (s' & e' & Hm & _).
  unfold background_color_pattern in Hm.
  cbn [codes map list_ascii_of_string Str] in Hm. unfold Lit in Hm.
  inv_matches.
  repeat match goal with
         | H : N.eqb _ _ = true |- _ => apply N.eqb_eq in H; subst
         end.
  match goal with
  | |- context [?a ++ _ :: ?b ++ _ :: ?c ++ s'] => exists a, b, c, s'
  end.
  unfold color_report, hex_field. repeat split; assumption || lia.
Qed.

Lemma take_two_of_field (B Bx : str) :
  2 <= length B -> take 2 (B ++ Bx) = take 2 B.
Proof.
  intros H. unfold take. rewrite firstn_app.
  replace (2 - length B) with 0 by lia. apply app_nil_r.
Qed.

End ColorProperties.

Import Term Observe.

Section TermProperties.

Local Open Scope string_scope.
Local Open Scope list_scope.

Variable unicode_decimal : char -> bool.

Lemma restorations_app (a b : list event) :
  restorations (a ++ b) = restorations a ++ restorations b.
Proof.
  induction a as [|ev a IH]; simpl; [reflexivity|].
  destruct ev; simpl; rewrite IH; reflexivity.
Qed.

Lemma queries_app (a b : list event) :
  queries (a ++ b) = queries a + queries b.
Proof.
  induction a as [|ev a IH]; simpl; [reflexivity|].
  destruct ev; simpl; rewrite IH; reflexivity.
Qed.

Lemma mode_switches_app (a b : list event) :
  mode_switches (a ++ b) = mode_switches a + mode_switches b.
Proof.
  induction a as [|ev a IH]; simpl; [reflexivity|].
  destruct ev; simpl; rewrite IH; reflexivity.
Qed.

(** The read loop writes and reads, and does nothing else: the terminal
    attributes, the memo slots and the sizes stay, and the events it adds
    hold no query, no mode switch and no restoration. *)
Lemma read_loop_effects (code : str) (input : list (option char)) :
  forall output started sent w o w',
    read_loop unicode_decimal code input output started sent w = (o, w') ->
    same_process w w' /\
    exists evs, trace w' = evs ++ trace w /\
                restorations evs = [] /\ queries evs = 0 /\
                mode_switches evs = 0.
Proof.
  induction input as [|r rest IH]; intros output started sent w o w' H.
  - simpl in H. inversion H; subst. split; [repeat split|].
    exists []. repeat split.
  - simpl in H. destruct r as [c|].
    + set (w1 := log ERead (set_stdin rest w)) in H.
      set (w2 := if sent then w1
                 else log EFlush (log (EWriteRaw code) w1)) in H.
      assert (Hw2 : same_process w w2 /\
                exists evs, trace w2 = evs ++ trace w /\
                  restorations evs = [] /\ queries evs = 0 /\
                  mode_switches evs = 0).
      { subst w2 w1. destruct sent; simpl.
        - split; [repeat split|]. exists [ERead]. repeat split.
        - split; [repeat split|].
          exists [EFlush; EWriteRaw code; ERead]. repeat split. }
      destruct Hw2 as [Hs2 (evs2 & Ht2 & Hr2 & Hq2 & Hm2)].
      destruct (search (device_pattern unicode_decimal) (output ++ [c])).
      * destruct started; simpl in H.
        -- inversion H; subst o w'. split; [exact Hs2|].
           exists evs2. repeat split; assumption.
        -- apply IH in H. destruct H as [Hs (evs & Ht & Hr & Hq & Hm)].
           split.
           ++ unfold same_process in *. simpl in Hs. intuition congruence.
           ++ exists (evs ++ [EFlush; EWriteRaw QueryCodes.device] ++ evs2).
              rewrite Ht. simpl. rewrite Ht2.
              rewrite restorations_app, queries_app, mode_switches_app.
              simpl. rewrite Hr, Hq, Hm, Hr2, Hq2, Hm2.
              repeat split. rewrite <- app_assoc. reflexivity.
      * apply IH in H. destruct H as [Hs (evs & Ht & Hr & Hq & Hm)].
        split.
        -- unfold same_process in *. intuition congruence.
        -- exists (evs ++ evs2). rewrite Ht, Ht2.
           rewrite restorations_app, queries_app, mode_switches_app.
           rewrite Hr, Hq, Hm, Hr2, Hq2, Hm2.
           repeat split. rewrite app_assoc. reflexivity.
    + inversion H; subst. split; [repeat split|].
      exists [ERead]. repeat split.
Qed.

(** The guard on its own: whatever body sits under [try], if the body
    comes to an end, by value or by exception, and sets no attributes
    itself, then [finally: tcsetattr(a)] sets [a] exactly once. *)
Lemma try_finally_restores (A : Type) (body : M A) (a : tattr) (w : world)
    (o : outcome A) (w' : world) :
  (forall o1 w1, body w = (o1, w1) ->
                 exists evs, trace w1 = evs ++ trace w /\ restorations evs = []) ->
  try_finally body (tcsetattr a) w = (o, w') ->
  o <> Block ->
  term_attr w' = a /\
  exists evs, trace w' = evs ++ trace w /\ restorations evs = [a].
Proof.
  intros Hbody H Hb. unfold try_finally, tcsetattr in H.
  destruct (body w) as [o1 w1] eqn:E.
  destruct (Hbody o1 w1 eq_refl) as (evs & Ht & Hr).
  destruct o1 as [v|e|]; inversion H; subst;
    try (exfalso; apply Hb; reflexivity);
    (split; [reflexivity|]; exists (ETcsetattr a :: evs); simpl;
     rewrite Ht, Hr; split; reflexivity).
Qed.

(** The shape of a [_query_term] run on a platform with termios: the
    attributes are read, cbreak mode is entered once, the loop runs, and
    when the loop is left the attributes read at the start are set again. *)
Lemma query_term_run (code : str) (w : world) (o : outcome (option dict))
    (w' : world) :
  have_termios w = true ->
  _query_term unicode_decimal code w = (o, w') ->
  exists evs,
    trace w' = evs ++ trace w /\ queries evs = 1 /\ mode_switches evs = 1 /\
    have_termios w' = have_termios w /\ winsize w' = winsize w /\
    out_size w' = out_size w /\ sixel_memo w' = sixel_memo w /\
    kitty_memo w' = kitty_memo w /\
    match o with
    | Block => restorations evs = [] /\ term_attr w' = cbreak_of (term_attr w)
    | _ => restorations evs = [term_attr w] /\ term_attr w' = term_attr w /\
           exists evs', evs = ETcsetattr (term_attr w) :: evs'
    end.
Proof.
  intros Hh H. unfold _query_term in H. simpl in H. rewrite Hh in H.
  unfold bind, tcgetattr, try_finally, setcbreak, write_raw, flush in H.
  simpl in H.
  match type of H with
  | context [read_loop _ _ ?i ?out ?st ?qs ?w0] =>
      destruct (read_loop unicode_decimal code i out st qs w0) as [o1 w1] eqn:E
  end.
  apply read_loop_effects in E.
  destruct E as [(Hh1 & Ha1 & Hw1 & Hs1 & Hx1 & Hk1) (evs & Ht & Hr & Hq & Hm)].
  simpl in *.
  destruct o1 as [output|e|].
  - unfold tcsetattr in H. simpl in H.
    destruct (search CONTROL_RE _); unfold ret in H; inversion H; subst o w';
      simpl;
      (exists (ETcsetattr (term_attr w) :: evs ++
               [EFlush; EWriteRaw QueryCodes.device; ESetcbreak; ETcgetattr;
                EQuery code]));
      rewrite Ht; simpl;
      rewrite restorations_app, queries_app, mode_switches_app;
      simpl; rewrite Hr, Hq, Hm; simpl;
      (repeat split; try assumption; try reflexivity;
       try (rewrite <- app_assoc; reflexivity); eexists; reflexivity).
  - unfold tcsetattr in H. simpl in H. inversion H; subst o w'. simpl.
    exists (ETcsetattr (term_attr w) :: evs ++
            [EFlush; EWriteRaw QueryCodes.device; ESetcbreak; ETcgetattr;
             EQuery code]).
    rewrite Ht. simpl.
    rewrite restorations_app, queries_app, mode_switches_app.
    simpl. rewrite Hr, Hq, Hm. simpl.
    repeat split; try assumption; try reflexivity;
      try (rewrite <- app_assoc; reflexivity). eexists; reflexivity.
  - inversion H; subst o w'. simpl.
    exists (evs ++
            [EFlush; EWriteRaw QueryCodes.device; ESetcbreak; ETcgetattr;
             EQuery code]).
    rewrite Ht.
    rewrite restorations_app, queries_app, mode_switches_app.
    simpl. rewrite Hr, Hq, Hm. simpl.
    repeat split; try assumption; try reflexivity.
    rewrite <- app_assoc. reflexivity.
Qed.

(** C2. A [_query_term] run that enters cbreak mode and comes to an end,
    by returning or by an exception of the read loop, calls
    [termios.tcsetattr] exactly once, with the attributes read before the
    switch, and leaves the terminal with those attributes. *)
Theorem query_term_restores_once (code : str) (w : world)
    (o : outcome (option dict)) (w' : world) :
  have_termios w = true ->
  _query_term unicode_decimal code w = (o, w') ->
  o <> Block ->
  exists evs,
    trace w' = evs ++ trace w /\ mode_switches evs = 1 /\
    restorations evs = [term_attr w] /\ term_attr w' = term_attr w.
Proof.
  intros Hh H Hb.
  destruct (query_term_run code w o w' Hh H)
    as (evs & Ht & _ & Hm & _ & _ & _ & _ & _ & Ho).
  exists evs. destruct o; try (exfalso; apply Hb; reflexivity);
    destruct Ho as (Hr & Ha & _); repeat split; assumption.
Qed.

(** Without termios the query does nothing to the terminal. *)
Lemma query_term_no_termios (code : str) (w : world) :
  have_termios w = false ->
  _query_term unicode_decimal code w = (Ret None, log (EQuery code) w).
Proof.
  intros Hh. unfold _query_term. simpl. rewrite Hh. reflexivity.
Qed.

(** Every [_query_term] call is one more query in the trace. *)
Lemma query_term_counts (code : str) (w : world) (o : outcome (option dict))
    (w' : world) :
  _query_term unicode_decimal code w = (o, w') ->
  queries (trace w') = S (queries (trace w)) /\
  sixel_memo w' = sixel_memo w /\ kitty_memo w' = kitty_memo w.
Proof.
  intros H. destruct (have_termios w) eqn:Hh.
  - destruct (query_term_run code w o w' Hh H)
      as (evs & Ht & Hq & _ & _ & _ & _ & Hs & Hk & _).
    rewrite Ht, queries_app, Hq. repeat split; assumption.
  - rewrite (query_term_no_termios code w Hh) in H. inversion H; subst.
    repeat split.
Qed.

(** [lru_cache]: once the body has returned, the slot answers. *)
Lemma memoized_again (memo : world -> option bool)
    (set_memo : option bool -> world -> world) (body : M bool) :
  (forall v w, memo (set_memo v w) = v) ->
  forall w v w1,
    memoized memo set_memo body w = (Ret v, w1) ->
    memoized memo set_memo body w1 = (Ret v, w1).
Proof.
  intros Hset w v w1 H. unfold memoized in *.
  destruct (memo w) as [v0|] eqn:Hm.
  - inversion H; subst. rewrite Hm. reflexivity.
  - destruct (body w) as [[v'|e|] w'] eqn:Hb; inversion H; subst.
    rewrite Hset. reflexivity.
Qed.

(** A first access runs the body at most once, whatever its end. *)
Lemma memoized_queries (memo : world -> option bool)
    (set_memo : option bool -> world -> world) (body : M bool) :
  (forall v w, trace (set_memo v w) = trace w) ->
  (forall w o w', body w = (o, w') ->
                  queries (trace w') <= S (queries (trace w))) ->
  forall w o w',
    memoized memo set_memo body w = (o, w') ->
    queries (trace w') <= S (queries (trace w)).
Proof.
  intros Htr Hbody w o w' H. unfold memoized in H.
  destruct (memo w) as [v0|].
  - inversion H; subst. lia.
  - destruct (body w) as [[v'|e|] w2] eqn:Hb; inversion H; subst;
      try rewrite Htr; eapply Hbody; eassumption.
Qed.

Lemma sixel_body_queries (w : world) (o : outcome bool) (w' : world) :
  has_sixel_graphics_body unicode_decimal w = (o, w') ->
  queries (trace w') <= S (queries (trace w)).
Proof.
  unfold has_sixel_graphics_body, bind. intros H.
  destruct (_query_term unicode_decimal QueryCodes.sixel w) as [o1 w1] eqn:E.
  apply query_term_counts in E. destruct E as (E & _).
  destruct o1 as [r|e|]; [|inversion H; subst; lia..].
  destruct (truthy r) as [d|]; [|inversion H; subst; lia].
  unfold findall_opt in H.
  destruct (dict_get d "csi_params" (Some [])); [|inversion H; subst; lia].
  unfold ret in H. simpl in H.
  repeat match type of H with
         | context [if ?b then _ else _] => destruct b
         | context [match ?l with [] => _ | _ :: _ => _ end] => destruct l
         end; inversion H; subst; lia.
Qed.

Lemma kitty_body_queries (w : world) (o : outcome bool) (w' : world) :
  has_kitty_graphics_body unicode_decimal w = (o, w') ->
  queries (trace w') <= S (queries (trace w)).
Proof.
  unfold has_kitty_graphics_body, bind. intros H.
  destruct (_query_term unicode_decimal QueryCodes.kitty w) as [o1 w1] eqn:E.
  apply query_term_counts in E. destruct E as (E & _).
  destruct o1 as [r|e|]; [|inversion H; subst; lia..].
  destruct (truthy r) as [d|]; [|inversion H; subst; lia].
  unfold startswith_opt in H.
  destruct (dict_get d "apc_string" (Some [])); [|inversion H; subst; lia].
  unfold ret in H. simpl in H.
  repeat match type of H with
         | context [if ?b then _ else _] => destruct b
         | context [match ?l with Some _ => _ | None => _ end] => destruct l
         end; inversion H; subst; lia.
Qed.

(** [term_size_px] probes when, and only when, the ioctl reports no
    pixel width. *)
Lemma term_size_px_queries (w : world) (o : outcome (Z * Z)) (w' : world) :
  term_size_px unicode_decimal w = (o, w') ->
  queries (trace w')
  = queries (trace w) + (if Z.eqb (ioctl_px w) 0 then 1 else 0).
Proof.
  unfold term_size_px, bind, _tiocgwnsz, ioctl_px. intros H.
  destruct (have_termios w);
    [destruct (winsize w) as [[[rows cols] px] py]; destruct (Z.eqb px 0)
    |change (Z.eqb 0 0) with true in *];
    cbn beta iota in H;
    try (inversion H; subst; lia);
    (destruct (_query_term unicode_decimal QueryCodes.pixel_dimensions w)
       as [o1 w1] eqn:E;
     apply query_term_counts in E; destruct E as (E & _);
     destruct o1 as [r|e|]; [|inversion H; subst; lia..];
     destruct (truthy r) as [d|]; [|inversion H; subst; lia];
     unfold match_opt in H;
     destruct (dict_get d "csi_params" (Some [])) as [params|];
       [|inversion H; subst; lia];
     unfold ret in H; cbn beta iota in H;
     repeat match type of H with
            | context [if ?b then _ else _] => destruct b
            | context [match ?l with [] => _ | _ :: _ => _ end] => destruct l
            | context [match ?l with Some _ => _ | None => _ end] => destruct l
            end; inversion H; subst; lia).
Qed.

(** [char_size_px] probes as [term_size_px] does. *)
Lemma char_size_px_queries (w : world) (o : outcome (Z * Z)) (w' : world) :
  char_size_px unicode_decimal w = (o, w') ->
  queries (trace w')
  = queries (trace w) + (if Z.eqb (ioctl_px w) 0 then 1 else 0).
Proof.
  unfold char_size_px, bind. intros H.
  destruct (term_size_px unicode_decimal w) as [o1 w1] eqn:E.
  apply term_size_px_queries in E.
  destruct o1 as [[px py]|e|]; [|inversion H; subst; exact E..].
  unfold get_size in H. destruct (out_size w1) as [rows cols].
  unfold floordiv, ret, raise in H.
  repeat match type of H with
         | context [if ?b then _ else _] => destruct b
         end; inversion H; subst; exact E.
Qed.

(** C1, as amended. For the two accessors under [lru_cache],
    [has_sixel_graphics] and [has_kitty_graphics]: once an access has
    returned a value, the next access returns that value out of the memo
    slot and leaves the process as it is, so the two accesses together
    issue one [_query_term] call at most.  [term_size_px] and
    [char_size_px] keep no memo: every access issues one [_query_term]
    call when the ioctl reports no pixel width, and none otherwise. *)
Theorem memoized_accessors_probe_once (w : world) (v : bool) (w1 : world) :
  (has_sixel_graphics unicode_decimal w = (Ret v, w1) ->
   has_sixel_graphics unicode_decimal w1 = (Ret v, w1) /\
   queries (trace w1) <= S (queries (trace w))) /\
  (has_kitty_graphics unicode_decimal w = (Ret v, w1) ->
   has_kitty_graphics unicode_decimal w1 = (Ret v, w1) /\
   queries (trace w1) <= S (queries (trace w))) /\
  (forall o w',
     term_size_px unicode_decimal w = (o, w') ->
     queries (trace w')
     = queries (trace w) + (if Z.eqb (ioctl_px w) 0 then 1 else 0)) /\
  (forall o w',
     char_size_px unicode_decimal w = (o, w') ->
     queries (trace w')
     = queries (trace w) + (if Z.eqb (ioctl_px w) 0 then 1 else 0)).
Proof.
  split; [|split; [|split]].
  - intros H. split.
    + eapply memoized_again; [|exact H]. intros ? []; reflexivity.
    + eapply memoized_queries; [| |exact H].
      * intros ? []; reflexivity.
      * apply sixel_body_queries.
  - intros H. split.
    + eapply memoized_again; [|exact H]. intros ? []; reflexivity.
    + eapply memoized_queries; [| |exact H].
      * intros ? []; reflexivity.
      * apply kitty_body_queries.
  - apply term_size_px_queries.
  - apply char_size_px_queries.
Qed.

(** C10. With [(px, py)] the size [term_size_px] reports and
    [(rows, cols)] the size of the output: the guess [(10, 22)] is the
    answer when [px] is zero, whatever the cell counts; otherwise the
    answer is [(px // cols, py // rows)], and a zero [cols] or [rows]
    makes the division raise [ZeroDivisionError]. *)
Theorem char_size_px_cases (w w1 : world) (px py rows cols : Z) :
  term_size_px unicode_decimal w = (Ret (px, py), w1) ->
  out_size w1 = (rows, cols) ->
  (px = 0%Z -> char_size_px unicode_decimal w = (Ret (10, 22)%Z, w1)) /\
  (px <> 0%Z -> cols <> 0%Z -> rows <> 0%Z ->
   char_size_px unicode_decimal w = (Ret (px / cols, py / rows)%Z, w1)) /\
  (px <> 0%Z -> cols = 0%Z \/ rows = 0%Z ->
   char_size_px unicode_decimal w = (Raise ZeroDivisionError, w1)).
Proof.
  intros Hpx Hsz. unfold char_size_px, bind. rewrite Hpx.
  unfold get_size. rewrite Hsz. repeat split.
  - intros ->. reflexivity.
  - intros Hn Hc Hr. apply Z.eqb_neq in Hn, Hc, Hr.
    rewrite Hn. unfold floordiv. rewrite Hc. unfold ret. rewrite Hr.
    reflexivity.
  - intros Hn Hz. apply Z.eqb_neq in Hn. rewrite Hn. unfold floordiv.
    destruct (Z.eqb cols 0) eqn:Hc; [reflexivity|].
    destruct Hz as [->| ->]; [discriminate|]. reflexivity.
Qed.

(** What [_query_term] returns is what the classifier makes of some
    buffer. *)
Lemma query_term_classifies (code : str) (w : world) (d : dict) (w' : world) :
  _query_term unicode_decimal code w = (Ret (Some d), w') ->
  exists output, classify output = Some d.
Proof.
  unfold _query_term. cbn [have_termios log].
  destruct (have_termios w); [|discriminate].
  unfold bind, tcgetattr, try_finally, setcbreak, write_raw, flush.
  cbn [stdin log set_term_attr].
  match goal with
  | |- context [read_loop _ _ ?i ?out ?st ?qs ?w0] =>
      destruct (read_loop unicode_decimal code i out st qs w0) as [[output|e|] w1]
  end; unfold tcsetattr; try discriminate.
  intros H.
  exists (sub_first_empty (device_pattern unicode_decimal) output).
  unfold classify.
  destruct (search CONTROL_RE _); unfold ret in H; inversion H; reflexivity.
Qed.

Hypothesis table_ok : decimal_table_ok unicode_decimal.

(** On parameter bytes [\d+] finds the runs of ASCII digits. *)
Lemma findall_sixel_params (params : str) :
  forallb csi_params_class params = true ->
  findall (sixel_pattern unicode_decimal) params = runs ascii_digit params.
Proof.
  intros H. unfold findall, sixel_pattern, runs.
  rewrite findall_plus_class. apply runs_fuel_agree.
  intros c Hc. apply table_ok.
  rewrite forallb_forall in H. apply H, csi_params_range in Hc. lia.
Qed.

Lemma sixel_check (l : list Z) :
  (if Nat.leb 3 (length l) then
     match firstn 3 l with
     | [Pi; Ps; Pv] => if Z.eqb Ps 0 then ret true else ret false
     | _ => ret false
     end
   else ret false)
  = ret (second_of_three_is_zero l).
Proof.
  destruct l as [|a [|b [|c l]]]; try reflexivity.
  simpl. destruct (Z.eqb b 0); reflexivity.
Qed.

(** The value of the sixel probe, by what the query returned. *)
Lemma sixel_body_value (w : world) (r : option dict) (w1 : world) :
  _query_term unicode_decimal QueryCodes.sixel w = (Ret r, w1) ->
  has_sixel_graphics_body unicode_decimal w
  = match r with
    | None => (Ret false, w1)
    | Some d =>
        match dict_get d "csi_params" None with
        | Some params =>
            (Ret (second_of_three_is_zero (numeric_params params)), w1)
        | None => (Raise TypeError, w1)
        end
    end.
Proof.
  intros H. unfold has_sixel_graphics_body, bind. rewrite H.
  destruct r as [d|]; [|reflexivity].
  destruct (query_term_classifies _ _ _ _ H) as (output & Hc).
  destruct (classify_params output d Hc) as (Ht & Hd).
  rewrite Ht. destruct (Hd (Some [])) as (-> & Hp).
  destruct (dict_get d "csi_params" None) as [params|]; [|reflexivity].
  unfold findall_opt, ret at 1.
  rewrite (findall_sixel_params params (Hp params eq_refl)).
  fold (numeric_params params). rewrite sixel_check. reflexivity.
Qed.

(** C7, as amended. On a first access, with [r] what the sixel probe
    returned: [has_sixel_graphics] returns true if and only if [r] is a
    classification with CSI parameters that hold at least three numbers
    the second of which is zero; when the probe returned nothing, no
    classification and no answer alike, it returns false. *)
Theorem sixel_iff_second_of_three_zero (w : world) (r : option dict)
    (w1 : world) :
  sixel_memo w = None ->
  _query_term unicode_decimal QueryCodes.sixel w = (Ret r, w1) ->
  (fst (has_sixel_graphics unicode_decimal w) = Ret true <->
   exists d params,
     r = Some d /\ dict_get d "csi_params" None = Some params /\
     second_of_three_is_zero (numeric_params params) = true) /\
  (r = None ->
   has_sixel_graphics unicode_decimal w
   = (Ret false, set_sixel_memo (Some false) w1)).
Proof.
  intros Hmemo Hq. unfold has_sixel_graphics, memoized. rewrite Hmemo.
  rewrite (sixel_body_value w r w1 Hq).
  split.
  - destruct r as [d|].
    + destruct (dict_get d "csi_params" None) as [params|] eqn:Ep; simpl.
      * split.
        -- intros H. injection H as Hv. exists d, params.
           repeat split; try assumption; reflexivity.
        -- intros (d' & params' & Hd & Hp & Hz).
           injection Hd as <-. rewrite Ep in Hp. injection Hp as <-.
           rewrite Hz. reflexivity.
      * split; [discriminate|].
        intros (d' & params' & Hd & Hp & _). injection Hd as <-.
        rewrite Ep in Hp. discriminate.
    + simpl. split; [discriminate|].
      intros (d' & params' & Hd & _). discriminate.
  - intros ->. reflexivity.
Qed.

(** The value of [bg_color], by what the query returned. *)
Lemma bg_color_value (w : world) (r : option dict) (w1 : world) :
  _query_term unicode_decimal QueryCodes.background_color w = (Ret r, w1) ->
  bg_color unicode_decimal w
  = match r with
    | Some d =>
        match dict_get d "osc_string" None with
        | Some payload =>
            match match_ background_color_pattern payload with
            | Some m =>
                match lookup "r" (m_env m), lookup "g" (m_env m),
                      lookup "b" (m_env m) with
                | Some R, Some G, Some B =>
                    (Ret (Some (chr "#" :: take 2 R ++ take 2 G ++ take 2 B)),
                     w1)
                | _, _, _ => (Raise TypeError, w1)
                end
            | None => (Ret None, w1)
            end
        | None => (Ret None, w1)
        end
    | None => (Ret None, w1)
    end.
Proof.
  intros H. unfold bg_color, bind. rewrite H.
  destruct r as [d|]; [|reflexivity].
  destruct d as [|entry d]; [reflexivity|].
  cbn [truthy].
  destruct (dict_get (entry :: d) "osc_string" None) as [payload|];
    [|reflexivity].
  destruct payload as [|c payload]; [reflexivity|].
  destruct (match_ background_color_pattern (c :: payload)) as [m|];
    [|reflexivity].
  change (groupdict background_color_pattern m)
    with [("r", lookup "r" (m_env m)); ("g", lookup "g" (m_env m));
          ("b", lookup "b" (m_env m))].
  cbn [length Nat.leb dict_get String.eqb Ascii.eqb Bool.eqb].
  destruct (lookup "r" (m_env m)); [|reflexivity].
  cbn [slice2 ret].
  destruct (lookup "g" (m_env m)); [|reflexivity].
  cbn [slice2 ret].
  destruct (lookup "b" (m_env m)); reflexivity.
Qed.

(** C8, as amended. With [r] what the background-colour probe returned:
    when [r] is a classification whose OSC string starts as a colour
    report [11;rgb:R/G/B], each field of two to four hexadecimal digits,
    whatever follows the third field, [bg_color] returns the number sign
    followed by the first two characters of [R], of [G] and of [B]; when
    the probe returned nothing, or a classification without an OSC
    string, or an OSC string that does not start so, [bg_color] returns
    [None]. *)
Theorem bg_color_first_two_hex_digits (w : world) (r : option dict)
    (w1 : world) :
  _query_term unicode_decimal QueryCodes.background_color w = (Ret r, w1) ->
  (r = None -> bg_color unicode_decimal w = (Ret None, w1)) /\
  (forall d, r = Some d -> dict_get d "osc_string" None = None ->
             bg_color unicode_decimal w = (Ret None, w1)) /\
  (forall d payload,
     r = Some d -> dict_get d "osc_string" None = Some payload ->
     (forall R G B rest,
        color_report payload R G B rest ->
        bg_color unicode_decimal w
        = (Ret (Some (chr "#" :: take 2 R ++ take 2 G ++ take 2 B)), w1)) /\
     ((forall R G B rest, ~ color_report payload R G B rest) ->
      bg_color unicode_decimal w = (Ret None, w1))).
Proof.
  intros Hq. rewrite (bg_color_value w r w1 Hq). repeat split.
  - intros ->. reflexivity.
  - intros d -> Hd. rewrite Hd. reflexivity.
  - intros R G B rest Hform. subst r. rewrite H0.
    destruct (match_color_report payload R G B rest Hform)
      as (text & Bx & rest' & ->).
    cbn [m_env lookup String.eqb Ascii.eqb Bool.eqb].
    rewrite take_two_of_field; [reflexivity|].
    destruct Hform as (_ & _ & (Hl & _) & _). lia.
  - intros Hnot. subst r. rewrite H0.
    destruct (match_ background_color_pattern payload) as [m|] eqn:E;
      [|reflexivity].
    apply match_color_sound in E. destruct E as (R & G & B & rest & Hform).
    exfalso. exact (Hnot R G B rest Hform).
Qed.

(** A match of the pixel-size pattern has both of its groups. *)
Lemma pixel_match_groups (params : str) (m : Match) :
  match_ (pixel_dimensions_pattern unicode_decimal) params = Some m ->
  exists y x,
    groupdict (pixel_dimensions_pattern unicode_decimal) m
    = [("y", Some y); ("x", Some x)].
Proof.
  unfold match_. intros H. apply mt_sound in H.
  destruct H as (s' & e' & Hm & Hk). inversion Hk; subst; clear Hk.
  unfold pixel_dimensions_pattern, Plus in Hm.
  cbn [codes map list_ascii_of_string Str] in Hm. unfold Lit in Hm.
  inv_matches. eexists. eexists. reflexivity.
Qed.

(** Whatever digits the answer to the pixel-size probe carries,
    [term_size_px] makes [(1, 1)] of it. *)
Lemma term_size_px_ignores_digits (w : world) (rows cols py : Z) (d : dict)
    (w1 : world) (params : str) (m : Match) :
  have_termios w = true ->
  winsize w = (rows, cols, 0, py)%Z ->
  _query_term unicode_decimal QueryCodes.pixel_dimensions w
  = (Ret (Some d), w1) ->
  dict_get d "csi_params" None = Some params ->
  match_ (pixel_dimensions_pattern unicode_decimal) params = Some m ->
  term_size_px unicode_decimal w = (Ret (1, 1)%Z, w1).
Proof.
  intros Hh Hws Hq Hp Hm.
  unfold term_size_px, bind, _tiocgwnsz. rewrite Hh, Hws. cbn beta iota.
  change (Z.eqb 0 0) with true. cbn beta iota. rewrite Hq.
  destruct (query_term_classifies _ _ _ _ Hq) as (output & Hc).
  destruct (classify_params output d Hc) as (Ht & Hd).
  rewrite Ht. destruct (Hd (Some [])) as (-> & _). rewrite Hp.
  unfold match_opt, ret at 1. rewrite Hm.
  destruct (pixel_match_groups params m Hm) as (y & x & ->).
  reflexivity.
Qed.

End TermProperties.

Import Samples.

Local Open Scope string_scope.
Local Open Scope list_scope.

(** On the sample terminal with a failing read the query ends with the
    exception, and the attributes are restored once. *)
Lemma query_term_restores_once_witness :
  let r := _query_term ascii_digit QueryCodes.sixel failing_read in
  fst r = Raise ReadError /\
  exists evs,
    trace (snd r) = evs ++ trace failing_read /\ mode_switches evs = 1 /\
    restorations evs = [term_attr failing_read] /\
    term_attr (snd r) = term_attr failing_read.
Proof.
  intro r. split; [vm_compute; reflexivity|].
  apply (query_term_restores_once ascii_digit QueryCodes.sixel failing_read
           (fst r) (snd r));
    [reflexivity | apply surjective_pairing | vm_compute; discriminate].
Defined.

(** C1, as the specification words it, fails for [term_size_px]: on a
    terminal whose ioctl reports no pixel width, two accesses in a row
    issue two probes. *)
Lemma term_size_px_probes_twice :
  ~ Spec.probes_at_most_once (term_size_px ascii_digit).
Proof.
  intros H.
  pose (r1 := term_size_px ascii_digit two_pixel_probes).
  pose (r2 := term_size_px ascii_digit (snd r1)).
  destruct (H two_pixel_probes (fst r1) (snd r1) (fst r2) (snd r2)
              (surjective_pairing r1) (surjective_pairing r2)) as [Hq _].
  vm_compute in Hq. lia.
Qed.

(** [bg_color] has no memo slot either. *)
Lemma bg_color_probes_twice :
  ~ Spec.probes_at_most_once (bg_color ascii_digit).
Proof.
  intros H.
  pose (w := process (answers (fenced color_answer ++ fenced color_answer))
                     (24, 80, 0, 0)%Z (24, 80)%Z).
  pose (r1 := bg_color ascii_digit w).
  pose (r2 := bg_color ascii_digit (snd r1)).
  destruct (H w (fst r1) (snd r1) (fst r2) (snd r2)
              (surjective_pairing r1) (surjective_pairing r2)) as [Hq _].
  vm_compute in Hq. lia.
Qed.

(** A first sixel probe that returns, and the second access after it. *)
Lemma memoized_accessors_probe_once_witness :
  let w := process (answers (fenced (sixel_answer "0;0;0")))
                   (24, 80, 0, 0)%Z (24, 80)%Z in
  let r := has_sixel_graphics ascii_digit w in
  fst r = Ret true /\
  has_sixel_graphics ascii_digit (snd r) = (Ret true, snd r) /\
  queries (trace (snd r)) <= S (queries (trace w)).
Proof.
  intros w r. split; [vm_compute; reflexivity|].
  apply (proj1 (memoized_accessors_probe_once ascii_digit w true (snd r))).
  vm_compute. reflexivity.
Defined.

(** A terminal of 800 by 600 pixels whose output reports no columns. *)
Lemma char_size_px_cases_witness :
  char_size_px ascii_digit no_columns = (Raise ZeroDivisionError, no_columns).
Proof.
  destruct (char_size_px_cases ascii_digit no_columns no_columns
              800 600 24 0 eq_refl eq_refl) as (_ & _ & H).
  apply H; [discriminate | left; reflexivity].
Defined.

(** C4, the code at the failing input: the ioctl reports no pixel width,
    the probe answer carries 600 rows and 800 columns of pixels, and
    [term_size_px] returns [(1, 1)]: the two names are bound to the
    outcome of the [is not None] tests, not to the captured digits. *)
Theorem term_size_px_probe_gives_ones :
  winsize one_pixel_probe = (24, 80, 0, 0)%Z /\
  fst (_query_term ascii_digit QueryCodes.pixel_dimensions one_pixel_probe)
  = Ret (Some (groupdict CONTROL_RE
                 (mkMatch [] pixel_answer []
                    [("csi", codes "[4;600;800t"); ("csi_final", codes "t");
                     ("csi_inter", []); ("csi_params", codes "4;600;800")])))
  /\
  fst (term_size_px ascii_digit one_pixel_probe) = Ret (1, 1)%Z.
Proof.
  repeat split; vm_compute; reflexivity.
Qed.

Lemma ascii_table_ok : decimal_table_ok ascii_digit.
Proof. intros c _. reflexivity. Qed.

(** The answer [0;0;0] to the sixel probe. *)
Lemma sixel_iff_second_of_three_zero_witness :
  fst (has_sixel_graphics ascii_digit
         (process (answers (fenced (sixel_answer "0;0;0")))
                  (24, 80, 0, 0)%Z (24, 80)%Z))
  = Ret true.
Proof.
  pose (w := process (answers (fenced (sixel_answer "0;0;0")))
                     (24, 80, 0, 0)%Z (24, 80)%Z).
  pose (q := _query_term ascii_digit QueryCodes.sixel w).
  assert (Hq : q = (Ret (Some (csi_dict (codes "?0;0;0") [] (codes "S"))),
                    snd q)) by (vm_compute; reflexivity).
  apply (proj2 (proj1 (sixel_iff_second_of_three_zero ascii_digit
                         ascii_table_ok w _ _ eq_refl Hq))).
  exists (csi_dict (codes "?0;0;0") [] (codes "S")), (codes "?0;0;0").
  repeat split.
Defined.

(** The answer [0;1;0]. *)
Lemma sixel_second_parameter_one :
  fst (has_sixel_graphics ascii_digit
         (process (answers (fenced (sixel_answer "0;1;0")))
                  (24, 80, 0, 0)%Z (24, 80)%Z))
  = Ret false.
Proof. vm_compute. reflexivity. Qed.

(** C7 as worded fails: to the answer [0;0], whose second number is zero,
    [has_sixel_graphics] returns false, for want of a third number. *)
Lemma sixel_two_parameters : ~ sixel_iff_second_is_zero ascii_digit.
Proof.
  intros H.
  pose (w := process (answers (fenced (sixel_answer "0;0")))
                     (24, 80, 0, 0)%Z (24, 80)%Z).
  pose (q := _query_term ascii_digit QueryCodes.sixel w).
  assert (Hq : q = (Ret (Some (csi_dict (codes "?0;0") [] (codes "S"))),
                    snd q)) by (vm_compute; reflexivity).
  destruct (H w _ _ eq_refl Hq) as [_ H2].
  assert (Hr : fst (has_sixel_graphics ascii_digit w) = Ret true).
  { apply H2.
    exists (csi_dict (codes "?0;0") [] (codes "S")), (codes "?0;0").
    repeat split. }
  vm_compute in Hr. discriminate Hr.
Qed.

(** An answer that classifies as an OSC string makes the sixel accessor
    raise: the key [csi_params] is bound to [None], which the default of
    the lookup does not replace. *)
Lemma sixel_probe_answered_by_osc :
  fst (has_sixel_graphics ascii_digit
         (process (answers (fenced color_answer))
                  (24, 80, 0, 0)%Z (24, 80)%Z))
  = Raise TypeError.
Proof. vm_compute. reflexivity. Qed.

(** The colour report [11;rgb:1234/5678/9abc]. *)
Lemma bg_color_first_two_hex_digits_witness :
  fst (bg_color ascii_digit
         (process (answers (fenced color_answer))
                  (24, 80, 0, 0)%Z (24, 80)%Z))
  = Ret (Some (codes "#12569a")).
Proof.
  pose (w := process (answers (fenced color_answer))
                     (24, 80, 0, 0)%Z (24, 80)%Z).
  pose (q := _query_term ascii_digit QueryCodes.background_color w).
  assert (Hq : q = (Ret (Some (osc_dict (codes "11;rgb:1234/5678/9abc")
                                 [ESC; BSL])), snd q))
    by (vm_compute; reflexivity).
  destruct (bg_color_first_two_hex_digits ascii_digit w _ _ Hq)
    as (_ & _ & H).
  destruct (H _ (codes "11;rgb:1234/5678/9abc") eq_refl eq_refl) as [Hc _].
  change (fst (bg_color ascii_digit w) = Ret (Some (codes "#12569a"))).
  rewrite (Hc (codes "1234") (codes "5678") (codes "9abc") []).
  - reflexivity.
  - unfold color_report, hex_field. repeat split; simpl; lia.
Defined.

(** A field of two to four characters in front of a text: the cases. *)
Ltac field_cases X Hl :=
  destruct X as [|? [|? [|? [|? [|? X]]]]];
  cbn [length] in Hl; try lia.

Ltac peel :=
  repeat match goal with
         | H : _ :: _ = [] |- _ => discriminate H
         | H : [] = _ :: _ |- _ => discriminate H
         | H : _ :: _ = _ :: _ |- _ => injection H as ? H
         | H : _ = ?y |- _ => is_var y; subst y
         | H : ?a = ?b |- _ => discriminate H
         end.

(** The payload [11;rgb:12/34/56789] is no colour report: its third
    field would have five digits. *)
Lemma fifth_digit_is_no_report :
  ~ exact_color_report (codes "11;rgb:12/34/56789").
Proof.
  intros (R & G & B & (HRl & HR) & (HGl & HG) & (HBl & HB) & E).
  cbn [codes map list_ascii_of_string app] in E.
  field_cases R HRl; cbn [app] in E; peel.
  match goal with H : _ = G ++ _ |- _ => rename H into E end.
  field_cases G HGl; cbn [app] in E; peel.
  match goal with
  | H : _ = B ++ [] |- _ => rewrite app_nil_r in H; subst B
  end.
  simpl in HBl. lia.
Qed.

(** C8, as the specification words it, fails: the pattern is matched at
    the start of the payload and takes at most four digits of the third
    field, so for the payload [11;rgb:12/34/56789], which is not of the
    form, [bg_color] returns the colour [#123456] and not [None]. *)
Lemma color_with_a_fifth_digit : ~ none_unless_color_report ascii_digit.
Proof.
  intros H.
  pose (w := process (answers (fenced long_color_answer))
                     (24, 80, 0, 0)%Z (24, 80)%Z).
  pose (q := _query_term ascii_digit QueryCodes.background_color w).
  assert (Hq : q = (Ret (Some (osc_dict (codes "11;rgb:12/34/56789")
                                 [ESC; BSL])), snd q))
    by (vm_compute; reflexivity).
  specialize (H w _ _ _ Hq eq_refl fifth_digit_is_no_report).
  vm_compute in H. discriminate H.
Qed.

(** What it returns there. *)
Lemma color_with_a_fifth_digit_value :
  fst (bg_color ascii_digit
         (process (answers (fenced long_color_answer))
                  (24, 80, 0, 0)%Z (24, 80)%Z))
  = Ret (Some (codes "#123456")).
Proof. vm_compute. reflexivity. Qed.

(** ** The render cache *)

Import Control CacheInv.

Section ControlProperties.

Variable Data : Type.
Variable renderer_render : Data -> Z -> Z -> str.
Variable line_len : str -> Z.

Lemma key_eqb_refl (k : key) : key_eqb k k = true.
Proof. unfold key_eqb. destruct (key_eq_dec k k); congruence. Qed.

Lemma key_eqb_neq (k k' : key) : k <> k' -> key_eqb k k' = false.
Proof. unfold key_eqb. destruct (key_eq_dec k k'); congruence. Qed.

Lemma key_eqb_eq (k k' : key) : key_eqb k k' = true -> k = k'.
Proof. unfold key_eqb. destruct (key_eq_dec k k'); congruence. Qed.

Lemma dict_find_set_same {V} (k : key) (v : V) (d : list (key * V)) :
  dict_find k (dict_set k v d) = Some v.
Proof.
  induction d as [|[k' v'] d IH]; simpl.
  - rewrite key_eqb_refl. reflexivity.
  - destruct (key_eqb k' k) eqn:E; simpl; rewrite E; [reflexivity|exact IH].
Qed.

Lemma dict_find_set_other {V} (k k1 : key) (v : V) (d : list (key * V)) :
  k1 <> k -> dict_find k1 (dict_set k v d) = dict_find k1 d.
Proof.
  intros Hn. induction d as [|[k' v'] d IH]; simpl.
  - rewrite key_eqb_neq; congruence.
  - destruct (key_eqb k' k) eqn:E; simpl.
    + apply key_eqb_eq in E. subst k'. rewrite key_eqb_neq; congruence.
    + destruct (key_eqb k' k1); [reflexivity|exact IH].
Qed.

Lemma dict_find_del_other {V} (k k1 : key) (d : list (key * V)) :
  k1 <> k -> dict_find k1 (dict_del k d) = dict_find k1 d.
Proof.
  intros Hn. induction d as [|[k' v'] d IH]; simpl; [reflexivity|].
  destruct (key_eqb k' k) eqn:E; simpl.
  - apply key_eqb_eq in E. subst k'. rewrite key_eqb_neq; congruence.
  - destruct (key_eqb k' k1); [reflexivity|exact IH].
Qed.

Lemma dict_find_del_none {V} (k k1 : key) (d : list (key * V)) :
  dict_find k1 d = None -> dict_find k1 (dict_del k d) = None.
Proof.
  induction d as [|[k' v'] d IH]; simpl; [reflexivity|].
  destruct (key_eqb k' k1) eqn:E1; [discriminate|].
  intros H. destruct (key_eqb k' k); simpl; [exact H|].
  rewrite E1. apply IH, H.
Qed.

Lemma dict_set_length_new {V} (k : key) (v : V) (d : list (key * V)) :
  dict_find k d = None -> length (dict_set k v d) = S (length d).
Proof.
  induction d as [|[k' v'] d IH]; simpl; [reflexivity|].
  destruct (key_eqb k' k); [discriminate|]. intros H. simpl.
  rewrite IH; auto.
Qed.

(** Storing under a key the cache does not hold: the key is found
    afterwards, and a key that was not held is still not. *)
Lemma cache_store_new {V} (k : key) (v : V) (c : SimpleCache V) :
  cache_ok c -> dict_find k (_data c) = None ->
  dict_find k (_data (cache_store k v c)) = Some v /\
  forall k1, k1 <> k -> dict_find k1 (_data c) = None ->
             dict_find k1 (_data (cache_store k v c)) = None.
Proof.
  intros (Hpos & Hnd & Hlen & Hin) Hk. unfold cache_store.
  rewrite (dict_set_length_new k v _ Hk).
  destruct (Nat.ltb (maxsize c) (S (length (_data c)))) eqn:Hfull.
  - destruct (_keys c) as [|k0 keys] eqn:Hkeys; simpl.
    + apply Nat.ltb_lt in Hfull. simpl in Hlen. lia.
    + assert (Hk0 : k <> k0).
      { intros ->. apply (Hin k0); [left; reflexivity|exact Hk]. }
      split.
      * rewrite dict_find_del_other by exact Hk0. apply dict_find_set_same.
      * intros k1 Hn H1. apply dict_find_del_none.
        rewrite dict_find_set_other by exact Hn. exact H1.
  - simpl. split; [apply dict_find_set_same|].
    intros k1 Hn H1. rewrite dict_find_set_other by exact Hn. exact H1.
Qed.

Lemma get_lines_hit (c : control Data) (width height : Z) (lines : list str) :
  dict_find (width, extra_keys c) (_data (_format_cache c)) = Some lines ->
  get_rendered_lines renderer_render c width height = (lines, c).
Proof. intros H. unfold get_rendered_lines. rewrite H. reflexivity. Qed.

Lemma get_lines_miss (c : control Data) (width height : Z) :
  cache_ok (_format_cache c) ->
  dict_find (width, extra_keys c) (_data (_format_cache c)) = None ->
  exists c',
    get_rendered_lines renderer_render c width height
    = (splitlines (rstrip [LF] (renderer_render (data c) width height)), c') /\
    rendered c' = (width, height) :: rendered c /\
    extra_keys c' = extra_keys c /\ data c' = data c /\
    rendered_lines c' = rendered_lines c /\
    dict_find (width, extra_keys c) (_data (_format_cache c'))
    = Some (splitlines (rstrip [LF] (renderer_render (data c) width height))) /\
    forall k1, k1 <> (width, extra_keys c) ->
               dict_find k1 (_data (_format_cache c)) = None ->
               dict_find k1 (_data (_format_cache c')) = None.
Proof.
  intros Hok Hk. unfold get_rendered_lines. rewrite Hk. simpl.
  eexists. split; [reflexivity|]. simpl.
  destruct (cache_store_new (width, extra_keys c)
              (splitlines (rstrip [LF] (renderer_render (data c) width height)))
              (_format_cache c) Hok Hk) as [Hs Ho].
  repeat split; assumption.
Qed.

(** Calls at a width that is cached are all answered from the cache. *)
Lemma get_lines_each_hits (c : control Data) (width : Z) (lines : list str)
    (heights : list Z) :
  dict_find (width, extra_keys c) (_data (_format_cache c)) = Some lines ->
  get_rendered_lines_each renderer_render c width heights
  = (map (fun _ => lines) heights, c).
Proof.
  intros H. induction heights as [|h hs IH]; simpl; [reflexivity|].
  rewrite (get_lines_hit c width h lines H), IH. reflexivity.
Qed.

(** C3. On a control that holds no lines for [width] yet, any number of
    [get_rendered_lines] calls at that width, whatever their heights,
    call the renderer once, at the first height, and all give the lines
    of that call; a call at another width the cache does not hold calls
    the renderer again. *)
Theorem render_once_per_width (c : control Data) (width width' : Z)
    (h h' : Z) (hs : list Z) :
  cache_ok (_format_cache c) ->
  dict_find (width, extra_keys c) (_data (_format_cache c)) = None ->
  dict_find (width', extra_keys c) (_data (_format_cache c)) = None ->
  width' <> width ->
  let first := splitlines (rstrip [LF] (renderer_render (data c) width h)) in
  let run := get_rendered_lines_each renderer_render c width (h :: hs) in
  fst run = first :: map (fun _ => first) hs /\
  rendered (snd run) = (width, h) :: rendered c /\
  rendered (snd (get_rendered_lines renderer_render (snd run) width' h'))
  = (width', h') :: (width, h) :: rendered c.
Proof.
  intros Hok Hk Hk' Hne first run. subst run. simpl.
  destruct (get_lines_miss c width h Hok Hk)
    as (c1 & Hget & Hr & He & Hd & _ & Hfound & Hother).
  rewrite Hget. fold first in Hfound.
  rewrite <- He in Hfound.
  rewrite (get_lines_each_hits c1 width first hs Hfound). simpl.
  repeat split; [exact Hr|].
  unfold get_rendered_lines.
  rewrite He, Hother; [simpl; rewrite Hr; reflexivity| |exact Hk'].
  intros E. inversion E. contradiction.
Qed.

(** [max] of a list that is not empty: one of its members, and no member
    is greater. *)
Lemma max_of_spec (l : list Z) :
  forall x,
    In (max_of x l) (x :: l) /\
    forall y, In y (x :: l) -> (y <= max_of x l)%Z.
Proof.
  unfold max_of. induction l as [|a l IH]; intros x; cbn [fold_left].
  - split; [left; reflexivity|]. intros y [<-|[]]. lia.
  - destruct (IH (Z.max x a)) as [Hin Hle]. split.
    + destruct Hin as [Hm|Hm]; [|right; right; exact Hm].
      rewrite <- Hm. destruct (Z.max_spec x a) as [[_ ->]|[_ ->]];
        [right; left; reflexivity|left; reflexivity].
    + intros y [<-|[<-|Hy]].
      * specialize (Hle (Z.max x a) (or_introl eq_refl)). lia.
      * specialize (Hle (Z.max x a) (or_introl eq_refl)). lia.
      * apply Hle. right. exact Hy.
Qed.

(** When the two size queries call the renderer. *)
Lemma preferred_sizes_render (c : control Data) (width : Z)
    (max_available_height max_available_width : Z) :
  let k := (width, extra_keys c) in
  let after := snd (preferred_height renderer_render c width max_available_height) in
  snd (preferred_width line_len c max_available_width) = c /\
  (dict_find k (_data (_format_cache c)) <> None ->
   rendered after = rendered c) /\
  (rendered_lines c <> [] -> after = c) /\
  (rendered after <> rendered c ->
   rendered_lines c = [] /\ dict_find k (_data (_format_cache c)) = None /\
   rendered after = (width, max_available_height) :: rendered c).
Proof.
  intros k after. subst after k. repeat split.
  - unfold preferred_width. destruct (map line_len (rendered_lines c)); reflexivity.
  - intros Hc. unfold preferred_height.
    destruct (rendered_lines c); [|reflexivity].
    destruct (dict_find (width, extra_keys c) (_data (_format_cache c)))
      as [lines|] eqn:E; [|congruence].
    rewrite (get_lines_hit c width max_available_height lines E). reflexivity.
  - intros Hl. unfold preferred_height.
    destruct (rendered_lines c); [congruence|reflexivity].
  - revert H. unfold preferred_height.
    destruct (rendered_lines c); [reflexivity|]. simpl. congruence.
  - revert H. unfold preferred_height, get_rendered_lines.
    destruct (rendered_lines c); [|simpl; congruence].
    destruct (dict_find (width, extra_keys c) (_data (_format_cache c)));
      [simpl; congruence|reflexivity].
  - revert H. unfold preferred_height, get_rendered_lines.
    destruct (rendered_lines c); [|simpl; congruence].
    destruct (dict_find (width, extra_keys c) (_data (_format_cache c)));
      [simpl; congruence|reflexivity].
Qed.

(** C9. The two size queries answer from the lines that are there.
    [preferred_width] never renders and leaves the control as it is: it
    returns the greatest display length among the lines the control
    holds, and [None] exactly when it holds none.  [preferred_height]
    returns the number of the lines the control holds when it holds
    some, and changes nothing; when it holds none and the format cache
    has lines for the width asked, it takes those, returns their number
    and calls no renderer; only when the cache has none for that width
    does it call the renderer, once, and return the number of the lines
    of that rendering. *)
Theorem preferred_sizes_reuse_lines (c : control Data) (width : Z)
    (max_available_height max_available_width : Z) :
  let k := (width, extra_keys c) in
  let asked_width := preferred_width line_len c max_available_width in
  let asked_height :=
    preferred_height renderer_render c width max_available_height in
  let after := snd asked_height in
  snd asked_width = c /\
  (dict_find k (_data (_format_cache c)) <> None ->
   rendered after = rendered c) /\
  (rendered_lines c <> [] -> after = c) /\
  (rendered after <> rendered c ->
   rendered_lines c = [] /\ dict_find k (_data (_format_cache c)) = None /\
   rendered after = (width, max_available_height) :: rendered c) /\
  (fst asked_width = None <-> rendered_lines c = []) /\
  (forall m,
     fst asked_width = Some m ->
     (exists line, In line (rendered_lines c) /\ line_len line = m) /\
     (forall line, In line (rendered_lines c) -> (line_len line <= m)%Z)) /\
  (rendered_lines c <> [] ->
   fst asked_height = length (rendered_lines c)) /\
  (forall lines,
     rendered_lines c = [] ->
     dict_find k (_data (_format_cache c)) = Some lines ->
     asked_height = (length lines, set_rendered_lines lines c)) /\
  (rendered_lines c = [] ->
   dict_find k (_data (_format_cache c)) = None ->
   let lines :=
     splitlines (rstrip [LF]
                   (renderer_render (data c) width max_available_height)) in
   fst asked_height = length lines /\
   rendered_lines after = lines /\
   rendered after = (width, max_available_height) :: rendered c).
Proof.
  intros k asked_width asked_height after.
  destruct (preferred_sizes_render c width max_available_height
              max_available_width) as (Hw & Hhit & Hheld & Hmiss).
  split; [exact Hw|]. split; [exact Hhit|]. split; [exact Hheld|].
  split; [exact Hmiss|]. clear Hw Hhit Hheld Hmiss.
  subst after asked_height asked_width k.
  split; [|split; [|split; [|split]]].
  - unfold preferred_width. destruct (rendered_lines c) as [|l ls];
      cbn [map fst]; split; congruence.
  - intros m. unfold preferred_width.
    destruct (rendered_lines c) as [|l ls]; cbn [map fst]; [discriminate|].
    intros [= <-].
    destruct (max_of_spec (map line_len ls) (line_len l)) as [Hin Hle].
    change (line_len l :: map line_len ls) with (map line_len (l :: ls))
      in Hin, Hle.
    split.
    + apply in_map_iff in Hin. destruct Hin as (line & E & Hi).
      exists line. split; [exact Hi|exact E].
    + intros line Hi. apply Hle, in_map, Hi.
  - intros Hl. unfold preferred_height.
    destruct (rendered_lines c); [congruence|reflexivity].
  - intros lines Hl Hk. unfold preferred_height. rewrite Hl.
    rewrite (get_lines_hit c width max_available_height lines Hk).
    reflexivity.
  - intros Hl Hk lines. unfold preferred_height, get_rendered_lines.
    rewrite Hl, Hk. cbn [render fst snd rendered_lines rendered
                         set_rendered_lines set_format_cache].
    repeat split.
Qed.

Lemma dict_del_length {V} (k : key) (d : list (key * V)) :
  dict_find k d <> None -> S (length (dict_del k d)) = length d.
Proof.
  induction d as [|[k' v'] d IH]; simpl; [congruence|].
  destruct (key_eqb k' k); [reflexivity|].
  intros H. simpl. rewrite IH; auto.
Qed.

Lemma new_cache_ok {V} (size : nat) : 0 < size -> cache_ok (@new_cache V size).
Proof.
  intros H. unfold cache_ok, new_cache. simpl.
  repeat split; [exact H|constructor|]. intros k [].
Qed.

(** [SimpleCache.get] on a miss keeps the cache well formed. *)
Lemma cache_store_ok {V} (k : key) (v : V) (c : SimpleCache V) :
  cache_ok c -> dict_find k (_data c) = None -> cache_ok (cache_store k v c).
Proof.
  intros (Hpos & Hnd & Hlen & Hin) Hk.
  assert (Hnotin : ~ In k (_keys c)).
  { intros Hi. apply (Hin k Hi), Hk. }
  assert (Hnd' : NoDup (_keys c ++ [k])).
  { apply NoDup_app; [exact Hnd|repeat constructor; intros []|].
    intros x Hx [<-|[]]. contradiction. }
  assert (Hin' : forall k1, In k1 (_keys c ++ [k]) ->
                            dict_find k1 (dict_set k v (_data c)) <> None).
  { intros k1 Hi. destruct (key_eq_dec k1 k) as [->|Hne].
    - rewrite dict_find_set_same. discriminate.
    - rewrite dict_find_set_other by exact Hne. apply Hin.
      apply in_app_or in Hi. destruct Hi as [Hi|[Hi|[]]]; [exact Hi|].
      congruence. }
  unfold cache_store. rewrite (dict_set_length_new k v _ Hk).
  destruct (Nat.ltb (maxsize c) (S (length (_data c)))) eqn:Hfull.
  - destruct (_keys c ++ [k]) as [|k0 keys] eqn:Hkeys.
    + destruct (_keys c); discriminate.
    + unfold cache_ok. simpl. inversion Hnd' as [|? ? Hk0 Hnd'']; subst.
      repeat split; [exact Hpos|exact Hnd''| |].
      * assert (Hl : S (length keys) = S (length (_data c))).
        { change (S (length keys)) with (length (k0 :: keys)).
          rewrite <- Hkeys, length_app, Hlen. simpl. lia. }
        assert (Hd := dict_del_length k0 (dict_set k v (_data c))
                        (Hin' k0 (or_introl eq_refl))).
        rewrite (dict_set_length_new k v _ Hk) in Hd. lia.
      * intros k1 Hi. rewrite dict_find_del_other.
        -- apply Hin'. right. exact Hi.
        -- intros ->. contradiction.
  - unfold cache_ok. simpl. repeat split; [exact Hpos|exact Hnd'| |exact Hin'].
    rewrite length_app, (dict_set_length_new k v _ Hk), Hlen. simpl. lia.
Qed.

(** A new control has well-formed caches, and [get_rendered_lines] keeps
    the format cache well formed. *)
Lemma init_cache_ok (cl : control_class) (d : Data) (g : option bool) :
  cache_ok (_format_cache (init cl d g)).
Proof. apply new_cache_ok. simpl. lia. Qed.

Lemma get_rendered_lines_ok (c : control Data) (width height : Z) :
  cache_ok (_format_cache c) ->
  cache_ok (_format_cache (snd (get_rendered_lines renderer_render c width height))).
Proof.
  intros Hok. unfold get_rendered_lines.
  destruct (dict_find (width, extra_keys c) (_data (_format_cache c))) eqn:E;
    simpl; [exact Hok|].
  apply cache_store_ok; assumption.
Qed.

End ControlProperties.

(** The sample control: three calls at width 80 and one at width 81. *)
Lemma render_once_per_width_witness :
  let first := splitlines (rstrip [LF] (echo_renderer (data text_control) 80 24)) in
  let run := get_rendered_lines_each echo_renderer text_control 80 [24; 30; 24]%Z in
  fst run = first :: map (fun _ => first) [30; 24]%Z /\
  rendered (snd run) = (80, 24)%Z :: rendered text_control /\
  rendered (snd (get_rendered_lines echo_renderer (snd run) 81 24))
  = (81, 24)%Z :: (80, 24)%Z :: rendered text_control.
Proof.
  apply (render_once_per_width str echo_renderer text_control 80 81 24 24
           [30; 24]%Z).
  - apply init_cache_ok.
  - reflexivity.
  - reflexivity.
  - discriminate.
Defined.

(** The sample control after a first render at width 80: its format cache
    has the two lines, and [preferred_height] at that width takes them,
    answers 2 and calls no renderer. *)
Lemma preferred_sizes_reuse_lines_witness :
  let c := snd (get_rendered_lines echo_renderer text_control 80 24) in
  rendered c = [(80, 24)%Z] /\
  rendered (snd (preferred_height echo_renderer c 80 10)) = rendered c /\
  preferred_height echo_renderer c 80 10
  = (2, set_rendered_lines [codes "one"; codes "two"] c).
Proof.
  intro c. split; [reflexivity|].
  pose proof (preferred_sizes_reuse_lines str echo_renderer plain_len
                c 80 10 10) as H.
  cbv zeta in H. split.
  - apply (proj1 (proj2 H)). vm_compute. discriminate.
  - apply (proj1 (proj2 (proj2 (proj2 (proj2 (proj2 (proj2 (proj2 H)))))))
             [codes "one"; codes "two"]); reflexivity.
Defined.

(** * Further properties *)

(** ** The classifier, in full *)

Import Shapes.

Section ClassifierShapes.

Local Open Scope string_scope.
Local Open Scope list_scope.

Arguments mt : simpl never.

Ltac assoc_eq :=
  repeat (rewrite <- app_assoc || rewrite <- app_comm_cons); reflexivity.

(** Replace the consumed text of the first group of the environment. *)
Ltac drop_consumed pre :=
  match goal with
  | |- context [(_, consumed ?a ?b) :: _] =>
      rewrite (consumed_prefix a pre b) by assoc_eq
  end.

Ltac eqb_subst :=
  repeat match goal with
         | H : N.eqb _ _ = true |- _ => apply N.eqb_eq in H; subst
         end.

Lemma match_classification (s : str) (m : Match) :
  match_ CONTROL_RE s = Some m -> classification (groupdict CONTROL_RE m).
Proof.
  unfold match_. intros H. apply mt_sound in H.
  destruct H as (s' & e' & Hm & Hk). inversion Hk; subst; clear Hk.
  unfold CONTROL_RE, ST_or_BEL, ST, Lit in Hm.
  inv_matches; eqb_subst; try discriminate.
  - drop_consumed (chr "[" :: run ++ run0 ++ [c]).
    drop_consumed [c]. drop_consumed run0. drop_consumed run.
    exact (IsCsi run run0 c Hrun Hrun0 H0).
  - drop_consumed (chr "]" :: run ++ [ESC; BSL]).
    drop_consumed [ESC; BSL]. drop_consumed run.
    exact (IsOsc run [ESC; BSL] Hrun (or_intror eq_refl)).
  - drop_consumed (chr "]" :: run ++ [BEL]).
    drop_consumed [BEL]. drop_consumed run.
    exact (IsOsc run [BEL] Hrun (or_introl eq_refl)).
  - drop_consumed (chr "_" :: run ++ [ESC; BSL]).
    drop_consumed [ESC; BSL]. drop_consumed run.
    exact (IsApc run Hrun).
  - drop_consumed [c].
    exact (IsFe c H0).
Qed.

(** A match starts with an escape character and one character of the Fe
    class, the openers of the three other kinds included. *)
Lemma match_starts_with_fe (s : str) (m : Match) :
  match_ CONTROL_RE s = Some m ->
  exists c rest, s = ESC :: c :: rest /\ fe_class c = true.
Proof.
  unfold match_. intros H. apply mt_sound in H.
  destruct H as (s' & e' & Hm & Hk). inversion Hk; subst; clear Hk.
  unfold CONTROL_RE, ST_or_BEL, ST, Lit in Hm.
  inv_matches; eqb_subst; try discriminate;
    eexists; eexists; (split; [reflexivity|]); try reflexivity; assumption.
Qed.

Lemma mt_alt_right {R} (a b : re) (s : str) (e : env) (k : cont R) :
  mt b s e k <> None -> mt (Alt a b) s e k <> None.
Proof.
  intros H. rewrite mt_alt. destruct (mt a s e k); [discriminate|exact H].
Qed.

Lemma match_fe_start (c : char) (rest : str) :
  fe_class c = true -> match_ CONTROL_RE (ESC :: c :: rest) <> None.
Proof.
  intros H. unfold match_, CONTROL_RE. rewrite mt_seq.
  unfold Lit at 1. rewrite mt_chr_cons, N.eqb_refl.
  do 3 apply mt_alt_right.
  rewrite mt_group, mt_chr_cons, H. discriminate.
Qed.

Lemma search_from_suffix (r : re) (s : str) :
  forall acc m,
    search_from r acc s = Some m ->
    exists pre s0 m0, s = pre ++ s0 /\ match_ r s0 = Some m0 /\
                      m_env m = m_env m0.
Proof.
  induction s as [|c s IH]; intros acc m H; cbn [search_from] in H.
  - destruct (match_ r []) as [m0|] eqn:E; [|discriminate].
    inversion H; subst. exists [], [], m0. repeat split. exact E.
  - destruct (match_ r (c :: s)) as [m0|] eqn:E.
    + inversion H; subst. exists [], (c :: s), m0. repeat split. exact E.
    + apply IH in H. destruct H as (pre & s0 & m0 & -> & Hm & He).
      exists (c :: pre), s0, m0. repeat split; assumption.
Qed.

Lemma search_from_reaches (r : re) (pre s0 : str) :
  match_ r s0 <> None -> forall acc, search_from r acc (pre ++ s0) <> None.
Proof.
  intros H. induction pre as [|c pre IH]; intros acc.
  - cbn [app]. destruct s0 as [|c s0]; cbn [search_from];
      destruct (match_ r _); [discriminate|congruence|discriminate|congruence].
  - cbn [app search_from]. destruct (match_ r (c :: pre ++ s0));
      [discriminate|apply IH].
Qed.

Lemma has_fe_escape_split (s : str) :
  has_fe_escape s = true <->
  exists pre c rest, s = pre ++ ESC :: c :: rest /\ fe_class c = true.
Proof.
  split.
  - induction s as [|a s IH]; [discriminate|]. cbn [has_fe_escape].
    intros H. apply orb_true_iff in H. destruct H as [H|H].
    + apply andb_prop in H. destruct H as [Ha Hd].
      apply N.eqb_eq in Ha. subst a. destruct s as [|d s]; [discriminate|].
      exists [], d, s. split; [reflexivity|exact Hd].
    + destruct (IH H) as (pre & c & rest & -> & Hc).
      exists (a :: pre), c, rest. split; [reflexivity|exact Hc].
  - intros (pre & c & rest & -> & Hc).
    induction pre as [|a pre IH]; cbn [app has_fe_escape].
    + rewrite N.eqb_refl, Hc. reflexivity.
    + rewrite IH. apply orb_true_r.
Qed.

End ClassifierShapes.

(** X1. Whatever buffer it is given, the classifier answers with a
    dictionary of one of four shapes and no other: a CSI sequence whose
    fields are parameter bytes, intermediate bytes and one final
    character, with [csi] their concatenation after the bracket; an OSC
    string without a newline and its terminator, BEL or ESC backslash; an
    APC string without a newline closed by ESC backslash; or one character
    of the Fe class.  The groups of the three other kinds are [None]. *)
Theorem classify_shape (s : str) (d : dict) :
  classify s = Some d -> classification d.
Proof.
  intros H. apply classify_groupdict in H.
  destruct H as (s0 & m0 & Hm & ->). exact (match_classification s0 m0 Hm).
Qed.

Lemma classify_shape_witness :
  classification (csi_dict (codes "?1;0;256") [] (codes "S")).
Proof.
  apply (classify_shape (codes "noise" ++ ESC :: codes "[?1;0;256S")).
  reflexivity.
Defined.

(** X2. The classifier answers exactly when some escape character of the
    buffer is followed at once by one of [N O P \[ \\ \] X ^ _]; a buffer
    without such a pair, one without escape character among them, gives
    [None]. *)
Theorem classify_iff_fe_escape (s : str) :
  classify s <> None <-> has_fe_escape s = true.
Proof.
  rewrite has_fe_escape_split. unfold classify, search. split.
  - destruct (search_from CONTROL_RE [] s) as [m|] eqn:E; [|congruence].
    intros _. apply search_from_suffix in E.
    destruct E as (pre & s0 & m0 & -> & Hm & _).
    apply match_starts_with_fe in Hm. destruct Hm as (c & rest & -> & Hc).
    exists pre, c, rest. split; [reflexivity|exact Hc].
  - intros (pre & c & rest & -> & Hc).
    pose proof (search_from_reaches CONTROL_RE pre _
                  (match_fe_start c rest Hc) []) as H.
    destruct (search_from CONTROL_RE [] _); [discriminate|congruence].
Qed.

(** ** The exchange of [_query_term] *)

Import Protocol.

Section ExchangeProperties.

Variable unicode_decimal : char -> bool.

Lemma after_io_nil (w : world) : after_io (stdin w) [] w = w.
Proof. destruct w; reflexivity. Qed.

Lemma repeat_cons_app {A} (x : A) (n : nat) (l : list A) :
  repeat x n ++ x :: l = x :: repeat x n ++ l.
Proof. induction n as [|n IH]; simpl; [reflexivity|]. rewrite IH. reflexivity. Qed.

Lemma read_step_world (rest : list (option char)) (evs : list event)
    (i : list (option char)) (w : world) :
  log ERead (set_stdin rest (after_io i evs w)) = after_io rest (ERead :: evs) w.
Proof. reflexivity. Qed.

Lemma log_after_io (ev : event) (i : list (option char)) (evs : list event)
    (w : world) :
  log ev (after_io i evs w) = after_io i (ev :: evs) w.
Proof. reflexivity. Qed.

(** One turn of the loop once the query is sent, when the test fails. *)
Lemma read_loop_turn_none (code : str) (c : char) (rest : list (option char))
    (out : str) (started : bool) (w : world) :
  has_report unicode_decimal (out ++ [c]) = false ->
  read_loop unicode_decimal code (Some c :: rest) out started true w
  = read_loop unicode_decimal code rest (out ++ [c]) started true
      (log ERead (set_stdin rest w)).
Proof.
  unfold has_report. intros H. cbn [read_loop].
  destruct (search (device_pattern unicode_decimal) (out ++ [c]));
    [discriminate|reflexivity].
Qed.

(** The loop reads on while the test fails. *)
Lemma read_loop_skip (code : str) (cs : str) :
  forall (rest : list (option char)) (out : str) (started : bool)
         (i : list (option char)) (evs : list event) (w : world),
    cs <> [] ->
    (forall n, 0 < n <= length cs -> has_report unicode_decimal (out ++ firstn n cs) = false) ->
    read_loop unicode_decimal code (answers cs ++ rest) out started true (after_io i evs w)
    = read_loop unicode_decimal code rest (out ++ cs) started true
        (after_io rest (repeat ERead (length cs) ++ evs) w).
Proof.
  induction cs as [|c cs IH]; intros rest out started i evs w Hne Hno;
    [congruence|].
  cbn [answers map app].
  rewrite read_loop_turn_none by (apply (Hno 1); simpl; lia).
  rewrite read_step_world.
  destruct cs as [|c' cs'].
  - reflexivity.
  - change (map Some (c' :: cs') ++ rest) with (answers (c' :: cs') ++ rest).
    rewrite IH.
    + rewrite <- app_assoc. cbn [app length repeat].
      rewrite repeat_cons_app. reflexivity.
    + discriminate.
    + intros n Hn. rewrite <- app_assoc. apply (Hno (S n)). simpl in *. lia.
Qed.


(** One turn of the loop once the query is sent, when the test holds. *)
Lemma read_loop_turn_some (code : str) (c : char) (rest : list (option char))
    (out : str) (started : bool) (w : world) :
  has_report unicode_decimal (out ++ [c]) = true ->
  read_loop unicode_decimal code (Some c :: rest) out started true w
  = if started then (Ret (out ++ [c]), log ERead (set_stdin rest w))
    else read_loop unicode_decimal code rest [] true true
           (log EFlush (log (EWriteRaw QueryCodes.device)
                            (log ERead (set_stdin rest w)))).
Proof.
  unfold has_report. intros H. cbn [read_loop].
  destruct (search (device_pattern unicode_decimal) (out ++ [c]));
    [|discriminate].
  destruct started; reflexivity.
Qed.

(** The loop reads up to the end of the next report. *)
Lemma read_loop_chunk (code : str) (s : str) (rest : list (option char))
    (out : str) (started : bool) (i : list (option char))
    (evs : list event) (w : world) :
  s <> [] ->
  (forall n, 0 < n < length s ->
             has_report unicode_decimal (out ++ firstn n s) = false) ->
  has_report unicode_decimal (out ++ s) = true ->
  read_loop unicode_decimal code (answers s ++ rest) out started true
    (after_io i evs w)
  = if started
    then (Ret (out ++ s), after_io rest (repeat ERead (length s) ++ evs) w)
    else read_loop unicode_decimal code rest [] true true
           (after_io rest
              (EFlush :: EWriteRaw QueryCodes.device
                      :: repeat ERead (length s) ++ evs) w).
Proof.
  intros Hne Hno Hyes.
  destruct (exists_last Hne) as (cs & c & ->).
  assert (Hlen : length (cs ++ [c]) = S (length cs))
    by (rewrite length_app; simpl; lia).
  rewrite Hlen in *. unfold answers. rewrite map_app, <- app_assoc.
  cbn [map app]. rewrite app_assoc in Hyes.
  destruct cs as [|c0 cs0].
  - rewrite app_nil_r in Hyes. cbn [map app].
    rewrite read_loop_turn_some by exact Hyes.
    destruct started; reflexivity.
  - change (map Some (c0 :: cs0)) with (answers (c0 :: cs0)).
    rewrite read_loop_skip.
    + rewrite read_loop_turn_some by exact Hyes.
      rewrite read_step_world, <- (app_assoc out).
      destruct started; reflexivity.
    + discriminate.
    + intros n Hn. specialize (Hno n).
      rewrite firstn_app in Hno.
      replace (n - length (c0 :: cs0)) with 0 in Hno by lia.
      cbn [firstn] in Hno. rewrite app_nil_r in Hno. apply Hno. lia.
Qed.

Lemma ends_first_report_inv (s : str) :
  ends_first_report unicode_decimal s = true ->
  s <> [] /\ has_report unicode_decimal s = true /\
  forall n, 0 < n < length s ->
            has_report unicode_decimal (firstn n s) = false.
Proof.
  unfold ends_first_report. destruct s as [|c s]; [discriminate|].
  intros H. apply andb_prop in H. destruct H as [H1 H2].
  split; [discriminate|]. split; [exact H1|].
  intros n Hn. rewrite forallb_forall in H2.
  apply negb_true_iff, (H2 n), in_seq. simpl in *. lia.
Qed.

Lemma no_report_upto_inv (s : str) :
  no_report_upto unicode_decimal s = true ->
  forall n, 0 < n <= length s ->
            has_report unicode_decimal (firstn n s) = false.
Proof.
  unfold no_report_upto. intros H n Hn. rewrite forallb_forall in H.
  apply negb_true_iff, (H n), in_seq. lia.
Qed.

(** The first turn sends the query; the loop then reads up to the end of
    the first report and asks for the second. *)
Lemma read_loop_first (code : str) (pre : str) (rest : list (option char))
    (i : list (option char)) (evs : list event) (w : world) :
  ends_first_report unicode_decimal pre = true ->
  read_loop unicode_decimal code (answers pre ++ rest) [] false false
    (after_io i evs w)
  = read_loop unicode_decimal code rest [] true true
      (after_io rest
         (EFlush :: EWriteRaw QueryCodes.device
                 :: repeat ERead (length pre - 1)
                 ++ EFlush :: EWriteRaw code :: ERead :: evs) w).
Proof.
  intros H. apply ends_first_report_inv in H. destruct H as (Hne & Hyes & Hno).
  destruct pre as [|c0 pre']; [congruence|].
  cbn [answers map app read_loop].
  destruct pre' as [|c1 pre''].
  - unfold has_report in Hyes. cbn [app].
    destruct (search (device_pattern unicode_decimal) [c0]); [|discriminate].
    reflexivity.
  - assert (H1 := Hno 1 ltac:(simpl; lia)). unfold has_report in H1.
    cbn [firstn] in H1. cbn [app].
    destruct (search (device_pattern unicode_decimal) [c0]); [discriminate|].
    change (map Some (c1 :: pre'') ++ rest)
      with (answers (c1 :: pre'') ++ rest).
    change (log EFlush (log (EWriteRaw code)
              (log ERead (set_stdin (answers (c1 :: pre'') ++ rest)
                                    (after_io i evs w)))))
      with (after_io (answers (c1 :: pre'') ++ rest)
              (EFlush :: EWriteRaw code :: ERead :: evs) w).
    rewrite (read_loop_chunk code (c1 :: pre'') rest [c0] false).
    + reflexivity.
    + discriminate.
    + intros n Hn. apply (Hno (S n)). simpl in *. lia.
    + exact Hyes.
Qed.

(** [_query_term] on a platform with termios, around its loop. *)
Lemma query_term_unfold (code : str) (w : world) :
  have_termios w = true ->
  _query_term unicode_decimal code w
  = match read_loop unicode_decimal code (stdin w) [] false false
            (after_io (stdin w)
               [EFlush; EWriteRaw QueryCodes.device; ESetcbreak; ETcgetattr;
                EQuery code]
               (set_term_attr (cbreak_of (term_attr w)) w)) with
    | (Ret output, w1) =>
        (Ret (classify (sub_first_empty (device_pattern unicode_decimal) output)),
         log (ETcsetattr (term_attr w)) (set_term_attr (term_attr w) w1))
    | (Raise e, w1) =>
        (Raise e, log (ETcsetattr (term_attr w)) (set_term_attr (term_attr w) w1))
    | (Block, w1) => (Block, w1)
    end.
Proof.
  intros Hh.
  match goal with
  | |- _ = match ?rl with _ => _ end =>
      assert (E : exists o1 w1, rl = (o1, w1))
        by (destruct rl as [o1 w1]; exists o1, w1; reflexivity);
      destruct E as (o1 & w1 & E); rewrite E
  end.
  unfold _query_term. simpl. rewrite Hh.
  unfold bind, tcgetattr, try_finally, setcbreak, write_raw, flush. simpl.
  match goal with
  | |- context [read_loop unicode_decimal code ?i ?o ?a ?b ?w0] =>
      replace (read_loop unicode_decimal code i o a b w0) with (o1, w1)
        by (symmetry; exact E)
  end.
  destruct o1 as [output|e|]; try reflexivity.
  unfold tcsetattr, classify. simpl.
  destruct (search CONTROL_RE _); reflexivity.
Qed.

Lemma rev_repeat_same {A} (x : A) (n : nat) : rev (repeat x n) = repeat x n.
Proof.
  induction n as [|n IH]; simpl; [reflexivity|].
  rewrite IH, repeat_cons_app, app_nil_r. reflexivity.
Qed.

Lemma rev_exchange (code : str) (n1 n2 : nat) :
  rev (exchange code n1 n2)
  = repeat ERead n2
    ++ EFlush :: EWriteRaw QueryCodes.device
    :: repeat ERead (n1 - 1)
    ++ [EFlush; EWriteRaw code; ERead; EFlush; EWriteRaw QueryCodes.device].
Proof.
  unfold exchange. rewrite !rev_app_distr, !rev_repeat_same. simpl.
  rewrite <- !app_assoc. reflexivity.
Qed.

Lemma restorations_repeat_read (n : nat) : restorations (repeat ERead n) = [].
Proof. induction n; simpl; auto. Qed.

Ltac no_restoration :=
  repeat (cbn [restorations app];
          rewrite ?restorations_app, ?restorations_repeat_read);
  reflexivity.

(** X4. A call of [_query_term] never returns when the terminal stays
    silent too early: with nothing to read at all, or with input that
    runs out before the first device report is complete, or before the
    second one is.  The [finally] clause is not reached, so the terminal
    is left in cbreak mode with no [tcsetattr] call made. *)
Theorem query_term_blocks (code pre body : str) (w : world) :
  have_termios w = true ->
  stdin w = answers (pre ++ body) ->
  pre = [] \/ ends_first_report unicode_decimal pre = true ->
  no_report_upto unicode_decimal body = true ->
  let run := _query_term unicode_decimal code w in
  fst run = Block /\
  term_attr (snd run) = cbreak_of (term_attr w) /\
  restorations (trace (snd run)) = restorations (trace w) /\
  stdin (snd run) = [].
Proof.
  intros Hh Hin Hpre Hbody run. subst run.
  rewrite (query_term_unfold code w Hh), Hin.
  pose proof (no_report_upto_inv body Hbody) as Hno.
  destruct Hpre as [->|Hpre].
  - cbn [app]. destruct body as [|c body'].
    + cbn [answers map read_loop fst snd after_io set_term_attr term_attr
           trace stdin app restorations]. repeat split.
    + cbn [answers map read_loop].
      assert (H1 := Hno 1 ltac:(simpl; lia)). unfold has_report in H1.
      cbn [firstn app] in H1. cbn [app].
      destruct (search (device_pattern unicode_decimal) [c]);
        [discriminate|].
      rewrite read_step_world, !log_after_io.
      destruct body' as [|c' body''].
      * cbn [map read_loop fst snd after_io set_term_attr term_attr trace
             stdin app restorations]. repeat split.
      * change (map Some (c' :: body'')) with (answers (c' :: body'')).
        rewrite <- (app_nil_r (answers (c' :: body''))).
        rewrite read_loop_skip.
        -- cbn [read_loop fst snd after_io set_term_attr term_attr trace
                stdin]. repeat split. no_restoration.
        -- discriminate.
        -- intros n Hn. apply (Hno (S n)). simpl in *. lia.
  - unfold answers. rewrite map_app.
    change (map Some pre) with (answers pre).
    rewrite (read_loop_first code pre (map Some body) _ _ _ Hpre).
    destruct body as [|c body'].
    + cbn [map read_loop fst snd after_io set_term_attr term_attr trace
           stdin]. repeat split. no_restoration.
    + change (map Some (c :: body')) with (answers (c :: body')).
      rewrite <- (app_nil_r (answers (c :: body'))).
      rewrite read_loop_skip.
      * cbn [read_loop fst snd after_io set_term_attr term_attr trace stdin].
        repeat split. no_restoration.
      * discriminate.
      * intros n Hn. apply (Hno n). exact Hn.
Qed.

(** X5. When the terminal sends a first device report, then more text
    that ends with the second one, [_query_term] reads exactly that
    much: what came up to the end of the first report is dropped, what
    came after it is classified once the first device report in it has
    been cut out, and input that arrives behind the second report stays
    unread for the application. *)
Theorem query_term_reads_two_reports (code pre body : str)
    (rest : list (option char)) (w : world) :
  have_termios w = true ->
  stdin w = answers (pre ++ body) ++ rest ->
  ends_first_report unicode_decimal pre = true ->
  ends_first_report unicode_decimal body = true ->
  let run := _query_term unicode_decimal code w in
  fst run
  = Ret (classify (sub_first_empty (device_pattern unicode_decimal) body)) /\
  stdin (snd run) = rest /\
  term_attr (snd run) = term_attr w.
Proof.
  intros Hh Hin Hpre Hbody run. subst run.
  rewrite (query_term_unfold code w Hh), Hin.
  unfold answers. rewrite map_app, <- app_assoc.
  change (map Some pre) with (answers pre).
  change (map Some body) with (answers body).
  rewrite (read_loop_first code pre _ _ _ _ Hpre).
  apply ends_first_report_inv in Hbody. destruct Hbody as (Hne & Hyes & Hno).
  rewrite (read_loop_chunk code body rest [] true _ _ _ Hne Hno Hyes).
  cbn [app fst snd stdin term_attr log set_term_attr after_io].
  repeat split.
Qed.

End ExchangeProperties.

Section ExchangeOrder.

Variable unicode_decimal : char -> bool.

Lemma ends_first_report_intro (s : str) :
  s <> [] -> has_report unicode_decimal s = true ->
  (forall n, 0 < n < length s ->
             has_report unicode_decimal (firstn n s) = false) ->
  ends_first_report unicode_decimal s = true.
Proof.
  intros Hne Hyes Hno. unfold ends_first_report.
  destruct s as [|c s]; [congruence|]. rewrite Hyes. cbn [andb].
  apply forallb_forall. intros n Hn. apply in_seq in Hn.
  apply negb_true_iff, Hno. simpl in *. lia.
Qed.

(** A loop past its first report that returns has read on to the end of
    the next report, and done nothing else. *)
Lemma read_loop_ret_started (code : str) (input : list (option char)) :
  forall out i evs w o w',
    read_loop unicode_decimal code input out true true (after_io i evs w)
    = (Ret o, w') ->
    exists s rest,
      input = answers s ++ rest /\ s <> [] /\ o = out ++ s /\
      has_report unicode_decimal (out ++ s) = true /\
      (forall n, 0 < n < length s ->
                 has_report unicode_decimal (out ++ firstn n s) = false) /\
      w' = after_io rest (repeat ERead (length s) ++ evs) w.
Proof.
  induction input as [|[c|] rest IH]; intros out i evs w o w' H;
    cbn [read_loop] in H; try discriminate.
  rewrite read_step_world in H.
  destruct (search (device_pattern unicode_decimal) (out ++ [c])) eqn:E.
  - cbn [negb] in H. injection H as <- <-. exists [c], rest.
    split; [reflexivity|]. split; [discriminate|]. split; [reflexivity|].
    split; [unfold has_report; rewrite E; reflexivity|].
    split; [intros n Hn; simpl in Hn; lia|reflexivity].
  - apply IH in H.
    destruct H as (s & rest' & -> & Hne & -> & Hyes & Hno & ->).
    exists (c :: s), rest'. rewrite <- app_assoc in Hyes.
    split; [reflexivity|]. split; [discriminate|].
    split; [rewrite <- app_assoc; reflexivity|]. split; [exact Hyes|].
    split.
    + intros [|n] Hn; [lia|]. destruct n as [|n].
      * cbn [firstn]. unfold has_report. rewrite E. reflexivity.
      * specialize (Hno (S n)). rewrite <- app_assoc in Hno.
        apply Hno. simpl in Hn |- *. lia.
    + cbn [length repeat app]. rewrite repeat_cons_app. reflexivity.
Qed.

(** A loop that has sent its query and returns has read to the end of the
    first report, asked for the second, and read to its end. *)
Lemma read_loop_ret_unstarted (code : str) (input : list (option char)) :
  forall out i evs w o w',
    read_loop unicode_decimal code input out false true (after_io i evs w)
    = (Ret o, w') ->
    exists s body rest,
      input = answers s ++ answers body ++ rest /\ s <> [] /\
      has_report unicode_decimal (out ++ s) = true /\
      (forall n, 0 < n < length s ->
                 has_report unicode_decimal (out ++ firstn n s) = false) /\
      ends_first_report unicode_decimal body = true /\ o = body /\
      w' = after_io rest
             (repeat ERead (length body)
              ++ EFlush :: EWriteRaw QueryCodes.device
              :: repeat ERead (length s) ++ evs) w.
Proof.
  induction input as [|[c|] rest IH]; intros out i evs w o w' H;
    cbn [read_loop] in H; try discriminate.
  rewrite read_step_world in H.
  destruct (search (device_pattern unicode_decimal) (out ++ [c])) eqn:E.
  - cbn [negb] in H. rewrite !log_after_io in H.
    apply read_loop_ret_started in H.
    destruct H as (body & rest' & -> & Hne & -> & Hyes & Hno & ->).
    exists [c], body, rest'.
    split; [reflexivity|]. split; [discriminate|].
    split; [unfold has_report; rewrite E; reflexivity|].
    split; [intros n Hn; simpl in Hn; lia|].
    split; [apply ends_first_report_intro; assumption|].
    split; reflexivity.
  - apply IH in H.
    destruct H as (s & body & rest' & -> & Hne & Hyes & Hno & Hb & -> & ->).
    exists (c :: s), body, rest'. rewrite <- app_assoc in Hyes.
    split; [reflexivity|]. split; [discriminate|]. split; [exact Hyes|].
    split.
    + intros [|n] Hn; [lia|]. destruct n as [|n].
      * cbn [firstn]. unfold has_report. rewrite E. reflexivity.
      * specialize (Hno (S n)). rewrite <- app_assoc in Hno.
        apply Hno. simpl in Hn |- *. lia.
    + split; [exact Hb|]. split; [reflexivity|].
      cbn [length repeat app]. rewrite repeat_cons_app. reflexivity.
Qed.

(** The whole loop, when it returns. *)
Lemma read_loop_ret (code : str) (input : list (option char)) :
  forall i evs w o w',
    read_loop unicode_decimal code input [] false false (after_io i evs w)
    = (Ret o, w') ->
    exists pre body rest,
      input = answers pre ++ answers body ++ rest /\
      ends_first_report unicode_decimal pre = true /\
      ends_first_report unicode_decimal body = true /\ o = body /\
      w' = after_io rest
             (repeat ERead (length body)
              ++ EFlush :: EWriteRaw QueryCodes.device
              :: repeat ERead (length pre - 1)
              ++ EFlush :: EWriteRaw code :: ERead :: evs) w.
Proof.
  destruct input as [|[c|] rest]; intros i evs w o w' H;
    cbn [read_loop] in H; try discriminate.
  rewrite read_step_world in H.
  change (log EFlush (log (EWriteRaw code) (after_io rest (ERead :: evs) w)))
    with (after_io rest (EFlush :: EWriteRaw code :: ERead :: evs) w) in H.
  cbn [app] in H.
  destruct (search (device_pattern unicode_decimal) [c]) eqn:E.
  - cbn [negb] in H. rewrite !log_after_io in H.
    apply read_loop_ret_started in H.
    destruct H as (body & rest' & -> & Hne & -> & Hyes & Hno & ->).
    exists [c], body, rest'.
    split; [reflexivity|].
    split; [apply ends_first_report_intro;
            [discriminate|unfold has_report; rewrite E; reflexivity
            |intros n Hn; simpl in Hn; lia]|].
    split; [apply ends_first_report_intro; assumption|].
    split; reflexivity.
  - apply read_loop_ret_unstarted in H.
    destruct H as (s & body & rest' & -> & Hne & Hyes & Hno & Hb & -> & ->).
    exists (c :: s), body, rest'.
    split; [reflexivity|]. split.
    + apply ends_first_report_intro; [discriminate|exact Hyes|].
      intros [|n] Hn; [lia|]. destruct n as [|n].
      * cbn [firstn]. unfold has_report. rewrite E. reflexivity.
      * apply (Hno (S n)). simpl in Hn |- *. lia.
    + split; [exact Hb|]. split; [reflexivity|].
      cbn [length Nat.sub]. rewrite Nat.sub_0_r. reflexivity.
Qed.

(** X3. A call of [_query_term] that returns has dealt with the terminal
    in this order and no other: attributes read, cbreak mode, the device
    request written and flushed, one character read, the query written
    and flushed, the rest of the input up to the character that
    completes the first device report read, the device request written
    and flushed again, the input up to the character that completes the
    second report read, the attributes set back.  The query is written
    once, never before the first character has arrived; no character
    behind the end of the second report is read; and what is returned
    is the classification of what was read after the first report. *)
Theorem query_term_exchange (code : str) (w : world) (r : option dict)
    (w' : world) :
  have_termios w = true ->
  _query_term unicode_decimal code w = (Ret r, w') ->
  exists pre body rest,
    stdin w = answers (pre ++ body) ++ rest /\
    ends_first_report unicode_decimal pre = true /\
    ends_first_report unicode_decimal body = true /\
    rev (trace w')
    = rev (trace w) ++ [EQuery code; ETcgetattr; ESetcbreak]
      ++ exchange code (length pre) (length body)
      ++ [ETcsetattr (term_attr w)] /\
    stdin w' = rest /\
    r = classify (sub_first_empty (device_pattern unicode_decimal) body).
Proof.
  intros Hh H. rewrite (query_term_unfold unicode_decimal code w Hh) in H.
  destruct (read_loop unicode_decimal code (stdin w) [] false false _)
    as [[output|e|] w1] eqn:E; try discriminate.
  apply read_loop_ret in E.
  destruct E as (pre & body & rest & Hin & Hpre & Hbody & -> & ->).
  injection H as <- <-. exists pre, body, rest.
  split; [rewrite Hin; unfold answers; rewrite map_app, <- app_assoc;
          reflexivity|].
  split; [exact Hpre|]. split; [exact Hbody|].
  split; [|split; reflexivity].
  cbn [trace log set_term_attr after_io].
  rewrite <- (rev_involutive (exchange code (length pre) (length body))) at 1.
  rewrite rev_exchange.
  cbn [rev]. rewrite !rev_app_distr. cbn [rev app].
  rewrite !rev_app_distr. cbn [rev app].
  rewrite <- !app_assoc. cbn [app]. rewrite <- !app_assoc. reflexivity.
Qed.

End ExchangeOrder.

(** The sixel answer between two reports, and a key typed behind them:
    ten characters are read for the first report, twenty for the answer
    and the second report, and the key stays. *)
Lemma query_term_exchange_witness :
  let w := process (answers (fenced (sixel_answer "0;0;0")) ++ [Some (chr "q")])
                   (24, 80, 0, 0)%Z (24, 80)%Z in
  let run := _query_term ascii_digit QueryCodes.sixel w in
  exists pre body rest,
    stdin w = answers (pre ++ body) ++ rest /\
    ends_first_report ascii_digit pre = true /\
    ends_first_report ascii_digit body = true /\
    rev (trace (snd run))
    = rev (trace w) ++ [EQuery QueryCodes.sixel; ETcgetattr; ESetcbreak]
      ++ exchange QueryCodes.sixel (length pre) (length body)
      ++ [ETcsetattr (term_attr w)] /\
    stdin (snd run) = rest /\
    Some (csi_dict (codes "?0;0;0") [] (codes "S"))
    = classify (sub_first_empty (device_pattern ascii_digit) body).
Proof.
  intros w run.
  apply (query_term_exchange ascii_digit QueryCodes.sixel w
           (Some (csi_dict (codes "?0;0;0") [] (codes "S"))) (snd run));
    [reflexivity | vm_compute; reflexivity].
Defined.


(** A terminal that stops in the middle of its answer. *)
Lemma query_term_blocks_witness :
  let w := process (answers (device_report ++ ESC :: codes "[?0;0"))
                   (24, 80, 0, 0)%Z (24, 80)%Z in
  let run := _query_term ascii_digit QueryCodes.sixel w in
  fst run = Block /\
  term_attr (snd run) = cbreak_of (term_attr w) /\
  restorations (trace (snd run)) = restorations (trace w) /\
  stdin (snd run) = [].
Proof.
  intros w.
  apply (query_term_blocks ascii_digit QueryCodes.sixel device_report
           (ESC :: codes "[?0;0") w);
    [reflexivity | reflexivity | right; vm_compute; reflexivity
    | vm_compute; reflexivity].
Defined.

(** The sixel answer between two reports, and a key typed behind them. *)
Lemma query_term_reads_two_reports_witness :
  let w := process (answers (device_report
                             ++ sixel_answer "0;0;0" ++ device_report)
                    ++ [Some (chr "q")])
                   (24, 80, 0, 0)%Z (24, 80)%Z in
  let run := _query_term ascii_digit QueryCodes.sixel w in
  fst run
  = Ret (classify (sub_first_empty (device_pattern ascii_digit)
                     (sixel_answer "0;0;0" ++ device_report))) /\
  stdin (snd run) = [Some (chr "q")] /\
  term_attr (snd run) = term_attr w.
Proof.
  intros w.
  apply (query_term_reads_two_reports ascii_digit QueryCodes.sixel
           device_report (sixel_answer "0;0;0" ++ device_report)
           [Some (chr "q")] w);
    [reflexivity | reflexivity | vm_compute; reflexivity
    | vm_compute; reflexivity].
Defined.

(** ** The accessors, answer by answer *)

Import Answers.

Section StringProperties.

Local Open Scope string_scope.
Local Open Scope list_scope.

Lemma str_eqb_eq (a b : str) : str_eqb a b = true <-> a = b.
Proof.
  revert b. induction a as [|x a IH]; intros [|y b]; simpl;
    try (split; [discriminate|congruence]); [tauto|].
  rewrite andb_true_iff, N.eqb_eq, IH. split; [intros [-> ->]|intros H];
    [reflexivity|inversion H; auto].
Qed.

(** What [lstrip] removes is made of the characters to strip. *)
Lemma lstrip_decompose (chars s : str) :
  exists k, s = k ++ lstrip chars s /\ forallb (one_of chars) k = true.
Proof.
  induction s as [|c s (k & E & Hk)]; [exists []; split; reflexivity|].
  simpl. destruct (one_of chars c) eqn:Hc.
  - exists (c :: k). simpl. rewrite Hc, Hk. split; [congruence|reflexivity].
  - exists []. split; reflexivity.
Qed.

(** [lstrip] stops at the first character it is not to strip. *)
Lemma lstrip_app_stop (chars a : str) (c : char) (t : str) :
  one_of chars c = false ->
  lstrip chars (a ++ c :: t) = lstrip chars a ++ c :: t.
Proof.
  intros Hc. induction a as [|x a IH]; simpl.
  - rewrite Hc. reflexivity.
  - destruct (one_of chars x); [exact IH|reflexivity].
Qed.

Lemma lstrip_strip (chars : str) (c : char) (s : str) :
  one_of chars c = true -> lstrip chars (c :: s) = lstrip chars s.
Proof. intros H. simpl. rewrite H. reflexivity. Qed.

Lemma lstrip_in (chars s : str) (x : char) :
  In x (lstrip chars s) -> In x s.
Proof.
  induction s as [|c s IH]; simpl; [tauto|].
  destruct (one_of chars c); [intros H; right; apply IH, H|tauto].
Qed.

(** The first field of [split]: a text without separator is one field, and
    a separator behind it starts the next field. *)
Lemma split_on_field (sep : char) (a : str) :
  ~ In sep a ->
  forall cur,
    split_on sep cur a = [rev cur ++ a] /\
    forall r, split_on sep cur (a ++ sep :: r)
              = (rev cur ++ a) :: split_on sep [] r.
Proof.
  induction a as [|c a IH]; intros Hn cur.
  - simpl. rewrite N.eqb_refl, app_nil_r. split; reflexivity.
  - assert (Hc : N.eqb c sep = false).
    { apply N.eqb_neq. intros ->. apply Hn. left. reflexivity. }
    assert (Ha : ~ In sep a) by (intros H; apply Hn; right; exact H).
    destruct (IH Ha (c :: cur)) as [H1 H2].
    simpl. rewrite Hc. simpl in H1, H2. rewrite <- app_assoc in H1, H2.
    split; [exact H1|exact H2].
Qed.

(** Every text is a first field, alone or followed by a separator. *)
Lemma split_on_inv (sep : char) (s : str) :
  forall cur,
  exists a,
    ~ In sep a /\
    ((s = a /\ split_on sep cur s = [rev cur ++ a]) \/
     exists r, s = a ++ sep :: r /\
               split_on sep cur s = (rev cur ++ a) :: split_on sep [] r).
Proof.
  induction s as [|c s IH]; intros cur.
  - exists []. split; [intros []|]. left. simpl. rewrite app_nil_r.
    split; reflexivity.
  - simpl. destruct (N.eqb c sep) eqn:Hc.
    + apply N.eqb_eq in Hc. subst c. exists []. split; [intros []|].
      right. exists s. rewrite app_nil_r. split; reflexivity.
    + destruct (IH (c :: cur)) as (a & Ha & H).
      exists (c :: a). split.
      * intros [->|Hi]; [rewrite N.eqb_refl in Hc; discriminate|tauto].
      * simpl in H. rewrite <- app_assoc in H. simpl in H.
        destruct H as [[-> H]|(r & -> & H)].
        -- left. split; [reflexivity|exact H].
        -- right. exists r. split; [reflexivity|exact H].
Qed.

(** The test of [has_kitty_graphics], spelled out. *)
Lemma kitty_reply_ok_iff (payload : str) :
  kitty_reply_ok payload = true <-> kitty_ok_payload payload.
Proof.
  unfold kitty_reply_ok, kitty_ok_payload. split.
  - intros H. apply andb_prop in H. destruct H as [Hs H].
    destruct payload as [|g p]; [discriminate|].
    cbn [startswith codes map list_ascii_of_string] in Hs.
    rewrite andb_true_r in Hs. apply N.eqb_eq in Hs. subst g.
    change (lstrip (codes "G") (N_of_ascii "G" :: p))
      with (lstrip (codes "G") p) in H.
    destruct (lstrip_decompose (codes "G") p) as (k & Ep & Hk).
    assert (Hk' : ~ In (chr ";") k).
    { intros Hi. rewrite forallb_forall in Hk. apply Hk in Hi.
      discriminate Hi. }
    unfold split in H.
    destruct (split_on_inv (chr ";") (lstrip (codes "G") p) [])
      as (a & Ha & [[Eq Hsp]|(r & Eq & Hsp)]); rewrite Hsp in H;
      [discriminate|].
    destruct (split_on_inv (chr ";") r [])
      as (b & Hb & [[Er Hsr]|(r' & Er & Hsr)]); rewrite Hsr in H;
      cbn [rev app] in H; apply str_eqb_eq in H; subst b.
    + exists (k ++ a), []. rewrite Ep, Eq, Er.
      split; [rewrite <- !app_assoc; reflexivity|].
      split; [|left; reflexivity].
      intros Hi. apply in_app_or in Hi. tauto.
    + exists (k ++ a), (chr ";" :: r'). rewrite Ep, Eq, Er.
      split; [rewrite <- !app_assoc; reflexivity|].
      split; [|right; exists r'; reflexivity].
      intros Hi. apply in_app_or in Hi. tauto.
  - intros (a & rest & -> & Ha & Hrest).
    change (codes ";OK" ++ rest) with (chr ";" :: codes "OK" ++ rest).
    apply andb_true_intro. split; [reflexivity|].
    rewrite lstrip_strip by reflexivity.
    rewrite lstrip_app_stop by reflexivity.
    assert (Ha' : ~ In (chr ";") (lstrip (codes "G") a))
      by (intros Hi; apply Ha, (lstrip_in _ _ _ Hi)).
    unfold split.
    rewrite (proj2 (split_on_field (chr ";") _ Ha' []) (codes "OK" ++ rest)).
    assert (Hok : ~ In (chr ";") (codes "OK")).
    { simpl. intros [H|[H|[]]]; discriminate H. }
    destruct Hrest as [->|(r & ->)].
    + rewrite app_nil_r.
      rewrite (proj1 (split_on_field (chr ";") _ Hok [])). reflexivity.
    + rewrite (proj2 (split_on_field (chr ";") _ Hok []) r). reflexivity.
Qed.

End StringProperties.

Section AccessorProperties.

Variable unicode_decimal : char -> bool.

Local Open Scope string_scope.
Local Open Scope list_scope.

Lemma read_loop_raise (code : str) (input : list (option char)) :
  forall out started sent w e w',
    read_loop unicode_decimal code input out started sent w = (Raise e, w') ->
    e = ReadError.
Proof.
  induction input as [|[c|] rest IH]; intros out started sent w e w' H;
    cbn [read_loop] in H; try discriminate.
  - destruct (search (device_pattern unicode_decimal) (out ++ [c])).
    + destruct started; cbn [negb] in H; [discriminate|].
      apply IH in H. exact H.
    + apply IH in H. exact H.
  - inversion H. reflexivity.
Qed.

(** The only exception of [_query_term] is the one of the read. *)
Lemma query_term_raise (code : str) (w : world) (e : exn) (w' : world) :
  _query_term unicode_decimal code w = (Raise e, w') -> e = ReadError.
Proof.
  destruct (have_termios w) eqn:Hh.
  - rewrite (query_term_unfold unicode_decimal code w Hh).
    destruct (read_loop unicode_decimal code (stdin w) [] false false _)
      as [[output|e1|] w1] eqn:E; try discriminate.
    intros H. inversion H; subst. apply read_loop_raise in E. exact E.
  - rewrite (query_term_no_termios unicode_decimal code w Hh). discriminate.
Qed.

(** What [_query_term] returns has one of the four shapes. *)
Lemma query_term_shape (code : str) (w : world) (d : dict) (w' : world) :
  _query_term unicode_decimal code w = (Ret (Some d), w') -> classification d.
Proof.
  intros H. apply query_term_classifies in H. destruct H as (output & H).
  apply classify_groupdict in H. destruct H as (s0 & m0 & Hm & ->).
  exact (match_classification s0 m0 Hm).
Qed.

Lemma match_color_groups (payload : str) (m : Match) :
  match_ background_color_pattern payload = Some m ->
  exists R G B,
    lookup "r" (m_env m) = Some R /\ lookup "g" (m_env m) = Some G /\
    lookup "b" (m_env m) = Some B /\
    hex_field R /\ hex_field G /\ hex_field B.
Proof.
  unfold match_. intros H. apply mt_sound in H.
  destruct H as (s' & e' & Hm & Hk). inversion Hk; subst; clear Hk.
  unfold background_color_pattern in Hm.
  cbn [codes map list_ascii_of_string Str] in Hm. unfold Lit in Hm.
  inv_matches.
  repeat match goal with
         | H : N.eqb _ _ = true |- _ => apply N.eqb_eq in H; subst
         end.
  exists run, run0, run1. cbn [m_env].
  rewrite (consumed_prefix (run1 ++ s') run1 s') by reflexivity.
  rewrite (consumed_prefix _ run0 (_ :: run1 ++ s')) by reflexivity.
  rewrite (consumed_prefix _ run (_ :: run0 ++ _)) by reflexivity.
  unfold hex_field. repeat split; try assumption; lia.
Qed.

Lemma forallb_firstn {A} (p : A -> bool) (n : nat) (l : list A) :
  forallb p l = true -> forallb p (firstn n l) = true.
Proof.
  revert n. induction l as [|x l IH]; intros [|n]; simpl; auto.
  intros H. apply andb_prop in H. destruct H as [-> H]. simpl. auto.
Qed.

Lemma take_two_hex (R : str) :
  hex_field R ->
  length (take 2 R) = 2 /\ forallb hexdigit (take 2 R) = true.
Proof.
  intros [Hl Hh]. unfold take. split.
  - apply firstn_length_le. lia.
  - apply forallb_firstn, Hh.
Qed.

(** X7. [bg_color] adds no failure of its own to the probe, and hides
    none.  Its outcome follows that of its one call of [_query_term]:
    when the call raised, [bg_color] raises the same exception; when
    the call did not return, neither does [bg_color]; when the call
    returned, [bg_color] returns, and never raises on a colour it could
    not take apart.  In each case it leaves the process as the call
    left it.  A colour it returns comes from an answer of the call and
    is [#] followed by exactly six hexadecimal digits. *)
Theorem bg_color_outcome (w : world) (o : outcome (option str)) (w' : world) :
  bg_color unicode_decimal w = (o, w') ->
  exists o1,
    _query_term unicode_decimal QueryCodes.background_color w = (o1, w') /\
    match o1 with
    | Ret r =>
        exists v, o = Ret v /\
                  (r = None -> v = None) /\
                  (forall c, v = Some c -> is_hex_color c = true)
    | Raise e => o = Raise e
    | Block => o = Block
    end.
Proof.
  destruct (_query_term unicode_decimal QueryCodes.background_color w)
    as [[r|e|] w1] eqn:E.
  - rewrite (bg_color_value unicode_decimal w r w1 E).
    assert (Hdone : forall v : option str,
              v = None ->
              (Ret v, w1) = (o, w') ->
              exists o1,
                (Ret r, w1) = (o1, w') /\
                match o1 with
                | Ret r =>
                    exists v, o = Ret v /\
                              (r = None -> v = None) /\
                              (forall c, v = Some c -> is_hex_color c = true)
                | Raise e => o = Raise e
                | Block => o = Block
                end).
    { intros v -> H. inversion H; subst. exists (Ret r).
      split; [reflexivity|]. exists None.
      split; [reflexivity|]. split; [reflexivity|discriminate]. }
    destruct r as [d|]; [|apply Hdone; reflexivity].
    destruct (dict_get d "osc_string" None) as [payload|];
      [|apply Hdone; reflexivity].
    destruct (match_ background_color_pattern payload) as [m|] eqn:Em;
      [|apply Hdone; reflexivity].
    destruct (match_color_groups payload m Em)
      as (R & G & B & -> & -> & -> & HR & HG & HB).
    clear Hdone. intros [= <- <-]. exists (Ret (Some d)).
    split; [reflexivity|].
    exists (Some (chr "#" :: take 2 R ++ take 2 G ++ take 2 B)).
    split; [reflexivity|]. split; [discriminate|].
    intros c [= <-].
    change (is_hex_color (chr "#" :: take 2 R ++ take 2 G ++ take 2 B) = true).
    destruct (take_two_hex R HR) as [Rl Rh].
    destruct (take_two_hex G HG) as [Gl Gh].
    destruct (take_two_hex B HB) as [Bl Bh].
    unfold is_hex_color. rewrite N.eqb_refl, !length_app, Rl, Gl, Bl.
    rewrite !forallb_app, Rh, Gh, Bh. reflexivity.
  - unfold bg_color, bind. rewrite E. intros H. inversion H; subst.
    exists (Raise e). split; reflexivity.
  - unfold bg_color, bind. rewrite E. intros H. inversion H; subst.
    exists Block. split; reflexivity.
Qed.

Lemma kitty_check (response : list str) :
  (if Nat.leb 2 (length response) then
     match nth_error response 1 with
     | Some field =>
         if str_eqb field (codes "OK") then ret true else ret false
     | None => @ret bool false
     end
   else ret false)
  = ret match response with
        | _ :: field :: _ => str_eqb field (codes "OK")
        | _ => false
        end.
Proof.
  destruct response as [|a [|b l]]; try reflexivity.
  simpl. destruct (str_eqb b _); reflexivity.
Qed.

(** The value of the kitty probe, by what the query returned. *)
Lemma kitty_body_value (w : world) (r : option dict) (w1 : world) :
  _query_term unicode_decimal QueryCodes.kitty w = (Ret r, w1) ->
  has_kitty_graphics_body unicode_decimal w
  = match r with
    | None => (Ret false, w1)
    | Some d =>
        match dict_get d "apc_string" None with
        | Some payload => (Ret (kitty_reply_ok payload), w1)
        | None => (Raise AttributeError, w1)
        end
    end.
Proof.
  intros H. unfold has_kitty_graphics_body, bind. rewrite H.
  destruct r as [d|]; [|reflexivity].
  destruct (query_term_shape _ _ _ _ H) as [P J f _ _ _|p t _ _|p _|c _];
    try reflexivity.
  assert (Hg : forall dflt,
            dict_get (apc_dict p [ESC; BSL]) "apc_string" dflt = Some p)
    by reflexivity.
  rewrite (Hg None).
  change (truthy (Some (apc_dict p [ESC; BSL])))
    with (Some (apc_dict p [ESC; BSL])).
  cbn beta iota. rewrite (Hg (Some [])).
  unfold startswith_opt, ret at 1. cbn beta iota.
  unfold kitty_reply_ok.
  destruct (startswith (codes "G") p); [|reflexivity].
  rewrite kitty_check. reflexivity.
Qed.

(** X8. On a first access whose probe returned, [has_kitty_graphics]
    is true exactly when the answer is an APC sequence whose string is
    [G], a first field without semicolon, then the field [OK], alone or
    followed by more fields; the value is memoized.  When the probe
    returned nothing the value is false. *)
Theorem kitty_probe_outcome (w : world) (r : option dict) (w1 : world) :
  kitty_memo w = None ->
  _query_term unicode_decimal QueryCodes.kitty w = (Ret r, w1) ->
  match r with
  | None =>
      has_kitty_graphics unicode_decimal w
      = (Ret false, set_kitty_memo (Some false) w1)
  | Some d =>
      forall payload term,
        d = apc_dict payload term ->
        exists b,
          has_kitty_graphics unicode_decimal w
          = (Ret b, set_kitty_memo (Some b) w1) /\
          (b = true <-> kitty_ok_payload payload)
  end.
Proof.
  intros Hm H. unfold has_kitty_graphics, memoized. rewrite Hm.
  rewrite (kitty_body_value w r w1 H). destruct r as [d|]; [|reflexivity].
  intros payload term ->.
  change (dict_get (apc_dict payload term) "apc_string" None)
    with (Some payload).
  exists (kitty_reply_ok payload). split; [reflexivity|].
  apply kitty_reply_ok_iff.
Qed.

Lemma tiocgwnsz_run (w : world) :
  exists size, _tiocgwnsz w = (Ret size, w).
Proof.
  unfold _tiocgwnsz. destruct (have_termios w); eexists; reflexivity.
Qed.

(** The value of [term_size_px] when the ioctl reports no pixel width,
    by what the probe returned. *)
Lemma term_size_px_value (w : world) (rows cols py : Z) (r : option dict)
    (w1 : world) :
  fst (_tiocgwnsz w) = Ret (rows, cols, 0, py)%Z ->
  _query_term unicode_decimal QueryCodes.pixel_dimensions w = (Ret r, w1) ->
  term_size_px unicode_decimal w
  = match r with
    | None => (Ret (0, py)%Z, w1)
    | Some d =>
        match dict_get d "csi_params" None with
        | None => (Raise TypeError, w1)
        | Some params =>
            match match_ (pixel_dimensions_pattern unicode_decimal) params with
            | Some _ => (Ret (1, 1)%Z, w1)
            | None => (Ret (0, py)%Z, w1)
            end
        end
    end.
Proof.
  intros Hs H. unfold term_size_px, bind.
  destruct (tiocgwnsz_run w) as (size & E). rewrite E in Hs |- *.
  cbn [fst] in Hs. injection Hs as ->. cbn beta iota.
  change (Z.eqb 0 0) with true. cbn beta iota. rewrite H.
  destruct r as [d|]; [|reflexivity].
  destruct (query_term_classifies _ _ _ _ _ H) as (output & Hc).
  destruct (classify_params output d Hc) as (Ht & Hd).
  rewrite Ht. destruct (Hd (Some [])) as (-> & _).
  destruct (dict_get d "csi_params" None) as [params|]; [|reflexivity].
  unfold match_opt, ret at 1. cbn beta iota.
  destruct (match_ (pixel_dimensions_pattern unicode_decimal) params)
    as [m|] eqn:Em; [|reflexivity].
  destruct (pixel_match_groups unicode_decimal params m Em) as (y & x & ->).
  reflexivity.
Qed.

(** X9. When the window-size ioctl returns, [term_size_px] with a pixel
    width from it returns the ioctl's pair and leaves the terminal
    alone.  With none, it probes once, and its outcome follows that of
    its call of [_query_term]: when the call raised, the same exception
    is raised; when the call did not return, neither does
    [term_size_px]; when the call returned, [term_size_px] returns the
    ioctl's zero width with the ioctl's height, or [(1, 1)], never a
    size the terminal reported, or it raises [TypeError], and this only
    on an answer that has no CSI parameters. *)
Theorem term_size_px_outcome (w : world) (rows cols px py : Z)
    (o : outcome (Z * Z)) (w' : world) :
  fst (_tiocgwnsz w) = Ret (rows, cols, px, py) ->
  term_size_px unicode_decimal w = (o, w') ->
  (px <> 0%Z -> o = Ret (px, py) /\ w' = w) /\
  (px = 0%Z ->
   exists o1,
     _query_term unicode_decimal QueryCodes.pixel_dimensions w = (o1, w') /\
     match o1 with
     | Ret r =>
         (r = None -> o = Ret (0, py)%Z) /\
         (o = Ret (0, py)%Z \/ o = Ret (1, 1)%Z \/
          o = Raise TypeError /\
          exists d, r = Some d /\ dict_get d "csi_params" None = None)
     | Raise e => o = Raise e
     | Block => o = Block
     end).
Proof.
  intros Hs H. split.
  - intros Hpx. unfold term_size_px, bind in H.
    destruct (tiocgwnsz_run w) as (size & E). rewrite E in Hs, H.
    cbn [fst] in Hs. injection Hs as ->. cbn beta iota in H.
    apply Z.eqb_neq in Hpx. rewrite Hpx in H.
    unfold ret in H. injection H as <- <-. split; reflexivity.
  - intros ->.
    destruct (_query_term unicode_decimal QueryCodes.pixel_dimensions w)
      as [[r|e|] w1] eqn:E.
    + rewrite (term_size_px_value w rows cols py r w1 Hs E) in H.
      destruct r as [d|].
      * destruct (dict_get d "csi_params" None) as [params|] eqn:Ep;
          [destruct (match_ (pixel_dimensions_pattern unicode_decimal) params)|];
          injection H as <- <-; exists (Ret (Some d));
          (split; [reflexivity|]); (split; [discriminate|]); auto.
        right. right. split; [reflexivity|]. exists d. split; [reflexivity|exact Ep].
      * injection H as <- <-. exists (Ret None).
        split; [reflexivity|]. split; [reflexivity|]. left. reflexivity.
    + unfold term_size_px, bind in H.
      destruct (tiocgwnsz_run w) as (size & E0). rewrite E0 in Hs, H.
      cbn [fst] in Hs. injection Hs as ->. cbn beta iota in H.
      change (Z.eqb 0 0) with true in H. cbn beta iota in H.
      rewrite E in H. injection H as <- <-.
      exists (Raise e). split; reflexivity.
    + unfold term_size_px, bind in H.
      destruct (tiocgwnsz_run w) as (size & E0). rewrite E0 in Hs, H.
      cbn [fst] in Hs. injection Hs as ->. cbn beta iota in H.
      change (Z.eqb 0 0) with true in H. cbn beta iota in H.
      rewrite E in H. injection H as <- <-.
      exists Block. split; reflexivity.
Qed.

(** X10. An answer of another kind than the one the accessor asked for:
    [has_sixel_graphics], [term_size_px] and with it [char_size_px]
    raise [TypeError] when the classified answer is no CSI sequence,
    [has_kitty_graphics] raises [AttributeError] when it is no APC
    sequence, and nothing is memoized; [bg_color] alone takes an answer
    that is no OSC sequence for no answer and returns [None]. *)
Theorem answer_of_another_kind (w : world) (d : dict) (w1 : world) :
  (sixel_memo w = None ->
   _query_term unicode_decimal QueryCodes.sixel w = (Ret (Some d), w1) ->
   dict_get d "csi_params" None = None ->
   has_sixel_graphics unicode_decimal w = (Raise TypeError, w1)) /\
  (ioctl_px w = 0%Z ->
   _query_term unicode_decimal QueryCodes.pixel_dimensions w
   = (Ret (Some d), w1) ->
   dict_get d "csi_params" None = None ->
   term_size_px unicode_decimal w = (Raise TypeError, w1) /\
   char_size_px unicode_decimal w = (Raise TypeError, w1)) /\
  (kitty_memo w = None ->
   _query_term unicode_decimal QueryCodes.kitty w = (Ret (Some d), w1) ->
   dict_get d "apc_string" None = None ->
   has_kitty_graphics unicode_decimal w = (Raise AttributeError, w1)) /\
  (_query_term unicode_decimal QueryCodes.background_color w
   = (Ret (Some d), w1) ->
   dict_get d "osc_string" None = None ->
   bg_color unicode_decimal w = (Ret None, w1)).
Proof.
  repeat split.
  - intros Hm H Hd. unfold has_sixel_graphics, memoized. rewrite Hm.
    unfold has_sixel_graphics_body, bind. rewrite H.
    destruct (query_term_shape _ _ _ _ H) as [P J f _ _ _|p t _ _|p _|c _];
      [discriminate Hd|reflexivity..].
  - assert (Hs : exists rows cols py,
              fst (_tiocgwnsz w) = Ret (rows, cols, 0, py)%Z).
    { revert H. unfold ioctl_px, _tiocgwnsz.
      destruct (have_termios w); [|intros _; exists 0%Z, 0%Z, 0%Z; reflexivity].
      destruct (winsize w) as [[[rows cols] px] py]. intros ->.
      exists rows, cols, py. reflexivity. }
    destruct Hs as (rows & cols & py & Hs).
    rewrite (term_size_px_value w rows cols py _ w1 Hs H0), H1. reflexivity.
  - assert (Hs : exists rows cols py,
              fst (_tiocgwnsz w) = Ret (rows, cols, 0, py)%Z).
    { revert H. unfold ioctl_px, _tiocgwnsz.
      destruct (have_termios w); [|intros _; exists 0%Z, 0%Z, 0%Z; reflexivity].
      destruct (winsize w) as [[[rows cols] px] py]. intros ->.
      exists rows, cols, py. reflexivity. }
    destruct Hs as (rows & cols & py & Hs).
    unfold char_size_px, bind.
    rewrite (term_size_px_value w rows cols py _ w1 Hs H0), H1. reflexivity.
  - intros Hm H Hd. unfold has_kitty_graphics, memoized. rewrite Hm.
    rewrite (kitty_body_value w _ w1 H), Hd. reflexivity.
  - intros H Hd. rewrite (bg_color_value unicode_decimal w _ w1 H), Hd.
    reflexivity.
Qed.

(** The bodies of the two memoized accessors leave the process as their
    probe left it. *)
Lemma sixel_body_world (w : world) (o : outcome bool) (w' : world) :
  has_sixel_graphics_body unicode_decimal w = (o, w') ->
  exists o1, _query_term unicode_decimal QueryCodes.sixel w = (o1, w').
Proof.
  unfold has_sixel_graphics_body, bind. intros H.
  destruct (_query_term unicode_decimal QueryCodes.sixel w) as [o1 w1].
  exists o1.
  destruct o1 as [r|e|]; [|inversion H; subst; reflexivity..].
  destruct (truthy r) as [d|]; [|inversion H; subst; reflexivity].
  unfold findall_opt in H.
  destruct (dict_get d "csi_params" (Some []));
    [|inversion H; subst; reflexivity].
  unfold ret in H. simpl in H.
  repeat match type of H with
         | context [if ?b then _ else _] => destruct b
         | context [match ?l with [] => _ | _ :: _ => _ end] => destruct l
         end; inversion H; subst; reflexivity.
Qed.

Lemma kitty_body_world (w : world) (o : outcome bool) (w' : world) :
  has_kitty_graphics_body unicode_decimal w = (o, w') ->
  exists o1, _query_term unicode_decimal QueryCodes.kitty w = (o1, w').
Proof.
  unfold has_kitty_graphics_body, bind. intros H.
  destruct (_query_term unicode_decimal QueryCodes.kitty w) as [o1 w1].
  exists o1.
  destruct o1 as [r|e|]; [|inversion H; subst; reflexivity..].
  destruct (truthy r) as [d|]; [|inversion H; subst; reflexivity].
  unfold startswith_opt in H.
  destruct (dict_get d "apc_string" (Some []));
    [|inversion H; subst; reflexivity].
  unfold ret in H. simpl in H.
  repeat match type of H with
         | context [if ?b then _ else _] => destruct b
         | context [match ?l with Some _ => _ | None => _ end] => destruct l
         end; inversion H; subst; reflexivity.
Qed.

(** A first access that does not return leaves the memo empty, and the
    access after it probes again. *)
Lemma memoized_retry (memo : world -> option bool)
    (set_memo : option bool -> world -> world) (body : M bool) (code : str) :
  (forall v w, trace (set_memo v w) = trace w) ->
  (forall w o w', body w = (o, w') ->
                  exists o1, _query_term unicode_decimal code w = (o1, w')) ->
  (forall w o w', _query_term unicode_decimal code w = (o, w') ->
                  memo w' = memo w) ->
  forall w o w',
    memo w = None ->
    memoized memo set_memo body w = (o, w') ->
    (forall v, o <> Ret v) ->
    memo w' = None /\
    queries (trace (snd (memoized memo set_memo body w')))
    = S (queries (trace w')).
Proof.
  intros Htrace Hbody Hmemo w o w' Hm H Ho. unfold memoized in H.
  rewrite Hm in H. destruct (body w) as [ob wb] eqn:E.
  assert (Hw' : memo w' = None).
  { destruct (Hbody _ _ _ E) as (o1 & Hq). apply Hmemo in Hq.
    destruct ob as [v|e|]; injection H as <- <-;
      [exfalso; apply (Ho v); reflexivity|congruence..]. }
  split; [exact Hw'|].
  unfold memoized. rewrite Hw'. destruct (body w') as [o2 w2] eqn:E2.
  destruct (Hbody _ _ _ E2) as (o3 & Hq).
  apply query_term_counts in Hq. destruct Hq as (Hq & _).
  destruct o2; cbn [snd]; rewrite ?Htrace; exact Hq.
Qed.

(** X11. An access to [has_sixel_graphics] or [has_kitty_graphics] that
    raises, or never returns, stores nothing: the memo stays empty, and
    the next access sends its probe to the terminal again. *)
Theorem failed_probe_not_memoized (w : world) (o : outcome bool)
    (w' : world) :
  (sixel_memo w = None ->
   has_sixel_graphics unicode_decimal w = (o, w') ->
   (forall v, o <> Ret v) ->
   sixel_memo w' = None /\
   queries (trace (snd (has_sixel_graphics unicode_decimal w')))
   = S (queries (trace w'))) /\
  (kitty_memo w = None ->
   has_kitty_graphics unicode_decimal w = (o, w') ->
   (forall v, o <> Ret v) ->
   kitty_memo w' = None /\
   queries (trace (snd (has_kitty_graphics unicode_decimal w')))
   = S (queries (trace w'))).
Proof.
  split.
  - apply (memoized_retry sixel_memo set_sixel_memo
             (has_sixel_graphics_body unicode_decimal) QueryCodes.sixel).
    + reflexivity.
    + exact sixel_body_world.
    + intros w0 o0 w0' H. apply query_term_counts in H. tauto.
  - apply (memoized_retry kitty_memo set_kitty_memo
             (has_kitty_graphics_body unicode_decimal) QueryCodes.kitty).
    + reflexivity.
    + exact kitty_body_world.
    + intros w0 o0 w0' H. apply query_term_counts in H. tauto.
Qed.

(** X6. Where termios, tty and fcntl cannot be imported, no accessor
    touches the terminal: nothing is written, read or set, the trace
    gains only the mark of the [_query_term] entry, and the accessors
    give their fallbacks: no colour, no pixel size, a character cell of
    10 by 22, no sixel and no kitty graphics. *)
Theorem no_termios_defaults (w : world) :
  have_termios w = false ->
  bg_color unicode_decimal w
  = (Ret None, log (EQuery QueryCodes.background_color) w) /\
  term_size_px unicode_decimal w
  = (Ret (0, 0)%Z, log (EQuery QueryCodes.pixel_dimensions) w) /\
  char_size_px unicode_decimal w
  = (Ret (10, 22)%Z, log (EQuery QueryCodes.pixel_dimensions) w) /\
  (sixel_memo w = None ->
   has_sixel_graphics unicode_decimal w
   = (Ret false, set_sixel_memo (Some false) (log (EQuery QueryCodes.sixel) w)))
  /\
  (kitty_memo w = None ->
   has_kitty_graphics unicode_decimal w
   = (Ret false, set_kitty_memo (Some false) (log (EQuery QueryCodes.kitty) w))).
Proof.
  intros Hh.
  assert (Hsize : term_size_px unicode_decimal w
                  = (Ret (0, 0)%Z, log (EQuery QueryCodes.pixel_dimensions) w)).
  { unfold term_size_px, bind, _tiocgwnsz. rewrite Hh. cbn beta iota.
    change (Z.eqb 0 0) with true. cbn beta iota.
    rewrite (query_term_no_termios unicode_decimal _ w Hh). reflexivity. }
  repeat split.
  - unfold bg_color, bind.
    rewrite (query_term_no_termios unicode_decimal _ w Hh). reflexivity.
  - exact Hsize.
  - unfold char_size_px, bind. rewrite Hsize. unfold get_size.
    cbn beta iota. destruct (out_size _). reflexivity.
  - intros Hm. unfold has_sixel_graphics, memoized. rewrite Hm.
    unfold has_sixel_graphics_body, bind.
    rewrite (query_term_no_termios unicode_decimal _ w Hh). reflexivity.
  - intros Hm. unfold has_kitty_graphics, memoized. rewrite Hm.
    unfold has_kitty_graphics_body, bind.
    rewrite (query_term_no_termios unicode_decimal _ w Hh). reflexivity.
Qed.

End AccessorProperties.

(** The colour of the sample terminal. *)
Lemma bg_color_outcome_witness :
  let w := process (answers (fenced color_answer)) (24, 80, 0, 0)%Z (24, 80)%Z in
  exists o1,
    _query_term ascii_digit QueryCodes.background_color w
    = (o1, snd (bg_color ascii_digit w)) /\
    match o1 with
    | Ret r =>
        exists v, Ret (Some (codes "#12569a")) = Ret v /\
                  (r = None -> v = None) /\
                  (forall c, v = Some c -> is_hex_color c = true)
    | Raise e => Ret (Some (codes "#12569a")) = Raise e
    | Block => Ret (Some (codes "#12569a")) = Block
    end.
Proof.
  intros w.
  apply (bg_color_outcome ascii_digit w (Ret (Some (codes "#12569a")))
           (snd (bg_color ascii_digit w))).
  vm_compute. reflexivity.
Defined.

(** A terminal that answers the kitty probe as the protocol says. *)
Lemma kitty_probe_outcome_witness :
  let w := process (answers (fenced kitty_answer)) (24, 80, 0, 0)%Z (24, 80)%Z in
  let w1 := snd (_query_term ascii_digit QueryCodes.kitty w) in
  exists b,
    has_kitty_graphics ascii_digit w = (Ret b, set_kitty_memo (Some b) w1) /\
    (b = true <-> kitty_ok_payload (codes "Gi=1;OK")).
Proof.
  intros w w1.
  apply (kitty_probe_outcome ascii_digit w
           (Some (apc_dict (codes "Gi=1;OK") [ESC; BSL])) w1 eq_refl)
    with (term := [ESC; BSL]); [vm_compute|]; reflexivity.
Defined.

(** A terminal whose ioctl reports 800 by 600 pixels. *)
Lemma term_size_px_outcome_witness :
  let run := term_size_px ascii_digit no_columns in
  fst run = Ret (800, 600)%Z /\ snd run = no_columns.
Proof.
  intros run.
  apply (proj1 (term_size_px_outcome ascii_digit no_columns 24 80 800 600
                  (fst run) (snd run) eq_refl (surjective_pairing run))).
  discriminate.
Defined.

(** The sixel probe answered by a colour report. *)
Lemma answer_of_another_kind_witness :
  let w := process (answers (fenced color_answer)) (24, 80, 0, 0)%Z (24, 80)%Z in
  fst (has_sixel_graphics ascii_digit w) = Raise TypeError.
Proof.
  intros w.
  rewrite (proj1 (answer_of_another_kind ascii_digit w
                    (osc_dict (codes "11;rgb:1234/5678/9abc") [ESC; BSL])
                    (snd (_query_term ascii_digit QueryCodes.sixel w)))
             eq_refl);
    [reflexivity | vm_compute; reflexivity | reflexivity].
Defined.

(** The same terminal: the probe that raised is sent again. *)
Lemma failed_probe_not_memoized_witness :
  let w := process (answers (fenced color_answer)) (24, 80, 0, 0)%Z (24, 80)%Z in
  let w' := snd (has_sixel_graphics ascii_digit w) in
  sixel_memo w' = None /\
  queries (trace (snd (has_sixel_graphics ascii_digit w')))
  = S (queries (trace w')).
Proof.
  intros w w'.
  apply (proj1 (failed_probe_not_memoized ascii_digit w (Raise TypeError) w'));
    [reflexivity | vm_compute; reflexivity | discriminate].
Defined.

(** A process without termios. *)
Lemma no_termios_defaults_witness :
  let w := mkWorld false cooked [] (0, 0, 0, 0)%Z (24, 80)%Z None None [] in
  fst (char_size_px ascii_digit w) = Ret (10, 22)%Z /\
  fst (has_kitty_graphics ascii_digit w) = Ret false.
Proof.
  intros w.
  destruct (no_termios_defaults ascii_digit w eq_refl)
    as (_ & _ & Hc & _ & Hk).
  rewrite Hc, (Hk eq_refl). split; reflexivity.
Defined.

(** ** Controls: what is rendered, and what the caches hold *)

Import Session.

Section LineProperties.

Local Open Scope list_scope.

Lemma is_linebreak_cr : is_linebreak 13%N = true.
Proof. reflexivity. Qed.

Lemma is_linebreak_lf : is_linebreak 10%N = true.
Proof. reflexivity. Qed.

(** [splitlines_from], one character at a time. *)
Lemma splitlines_from_facts (n : nat) :
  forall (s cur : str),
    length s <= n ->
    concat (splitlines_from cur s) = rev cur ++ without_breaks s /\
    ((forall ch, In ch cur -> is_linebreak ch = false) ->
     forall line ch, In line (splitlines_from cur s) -> In ch line ->
                     is_linebreak ch = false).
Proof.
  induction n as [|n IH]; intros s cur Hlen.
  - destruct s; [|simpl in Hlen; lia].
    destruct cur as [|c cur].
    + split; [reflexivity|]. intros _ line ch [].
    + change (splitlines_from (c :: cur) []) with [rev (c :: cur)].
      cbn [concat]. unfold without_breaks. cbn [filter].
      split; [reflexivity|].
      intros Hcur line ch [<-|[]] Hi. apply Hcur, in_rev, Hi.
  - destruct s as [|c s].
    + apply (IH [] cur). simpl. lia.
    + assert (Hs : length s <= n) by (simpl in Hlen; lia).
      cbn [splitlines_from]. unfold without_breaks. cbn [filter].
      fold (without_breaks s).
      assert (Hline : forall rest : list str,
                (forall line ch, In line rest -> In ch line ->
                                 is_linebreak ch = false) ->
                (forall ch, In ch cur -> is_linebreak ch = false) ->
                forall line ch, In line (rev cur :: rest) -> In ch line ->
                                is_linebreak ch = false).
      { intros rest Hrest Hcur line ch [<-|Hl] Hi.
        - apply Hcur, in_rev, Hi.
        - exact (Hrest line ch Hl Hi). }
      destruct (N.eqb c 13%N) eqn:Hc.
      * apply N.eqb_eq in Hc. subst c. rewrite is_linebreak_cr. cbn [negb].
        destruct s as [|d s'].
        -- simpl. rewrite !app_nil_r. split; [reflexivity|].
           intros Hcur. apply (Hline []); [intros line ch []|exact Hcur].
        -- destruct (N.eqb d 10%N) eqn:Hd.
           ++ apply N.eqb_eq in Hd. subst d.
              assert (Hs' : length s' <= n) by (simpl in Hs; lia).
              destruct (IH s' [] Hs') as [H1 H2].
              unfold without_breaks at 1. cbn [filter].
              rewrite is_linebreak_lf. cbn [negb]. fold (without_breaks s').
              cbn [concat]. rewrite H1. split; [reflexivity|].
              intros Hcur. apply Hline; [|exact Hcur].
              apply H2. intros ch [].
           ++ destruct (IH (d :: s') [] Hs) as [H1 H2].
              cbn [concat]. rewrite H1. split; [reflexivity|].
              intros Hcur. apply Hline; [|exact Hcur].
              apply H2. intros ch [].
      * destruct (is_linebreak c) eqn:Hb; cbn [negb].
        -- destruct (IH s [] Hs) as [H1 H2].
           cbn [concat]. rewrite H1. split; [reflexivity|].
           intros Hcur. apply Hline; [|exact Hcur].
           apply H2. intros ch [].
        -- destruct (IH s (c :: cur) Hs) as [H1 H2].
           rewrite H1. cbn [rev]. rewrite <- app_assoc.
           split; [reflexivity|].
           intros Hcur. apply H2. intros ch [<-|Hi]; [exact Hb|].
           apply Hcur, Hi.
Qed.

Lemma splitlines_nil (s : str) : splitlines s = [] <-> s = [].
Proof.
  unfold splitlines. split; [|intros ->; reflexivity].
  destruct s as [|c s]; [reflexivity|]. cbn [splitlines_from].
  assert (Hgrow : forall t cur, cur <> [] -> splitlines_from cur t <> []).
  { induction t as [|d t IHt]; intros cur Hcur; cbn [splitlines_from].
    - destruct cur; [congruence|discriminate].
    - destruct (N.eqb d 13%N); [destruct t as [|e t'];
        [discriminate|destruct (N.eqb e 10%N); discriminate]|].
      destruct (is_linebreak d); [discriminate|]. apply IHt. discriminate. }
  destruct (N.eqb c 13%N); [destruct s as [|e s'];
    [discriminate|destruct (N.eqb e 10%N); discriminate]|].
  destruct (is_linebreak c); [discriminate|].
  intros H. exfalso. apply (Hgrow s [c]); [discriminate|exact H].
Qed.

Lemma lstrip_nil (chars s : str) :
  lstrip chars s = [] <-> forallb (one_of chars) s = true.
Proof.
  induction s as [|c s IH]; simpl; [tauto|].
  destruct (one_of chars c); simpl; [exact IH|].
  split; discriminate.
Qed.

(** What [rstrip] removes is made of the characters to strip. *)
Lemma rstrip_decompose (chars s : str) :
  exists k, s = rstrip chars s ++ k /\ forallb (one_of chars) k = true.
Proof.
  unfold rstrip. destruct (lstrip_decompose chars (rev s)) as (k & E & Hk).
  exists (rev k). split.
  - rewrite <- (rev_involutive s), E at 1. apply rev_app_distr.
  - rewrite forallb_forall in *. intros x Hx. apply Hk, in_rev, Hx.
Qed.

End LineProperties.

Section CacheProperties.

Context {V : Type}.

Lemma dict_find_in (k : key) (d : list (key * V)) (v : V) :
  dict_find k d = Some v -> In k (map fst d).
Proof.
  induction d as [|[k' v'] d IH]; simpl; [discriminate|].
  destruct (key_eqb k' k) eqn:E; [|intros H; right; apply IH, H].
  intros _. left. apply key_eqb_eq, E.
Qed.

Lemma dict_find_notin (k : key) (d : list (key * V)) :
  ~ In k (map fst d) -> dict_find k d = None.
Proof.
  intros H. destruct (dict_find k d) as [v|] eqn:E; [|reflexivity].
  exfalso. apply H, (dict_find_in k d v E).
Qed.

Lemma dict_find_none_notin (k : key) (d : list (key * V)) :
  dict_find k d = None -> ~ In k (map fst d).
Proof.
  induction d as [|[k' v'] d IH]; simpl; [tauto|].
  destruct (key_eqb k' k) eqn:E; [discriminate|].
  intros H [->|Hi]; [rewrite key_eqb_refl in E; discriminate|].
  exact (IH H Hi).
Qed.

Lemma dict_set_keys_new (k : key) (v : V) (d : list (key * V)) :
  dict_find k d = None -> map fst (dict_set k v d) = map fst d ++ [k].
Proof.
  induction d as [|[k' v'] d IH]; simpl; [reflexivity|].
  destruct (key_eqb k' k); [discriminate|]. intros H. simpl.
  rewrite IH by exact H. reflexivity.
Qed.

Lemma dict_del_keys_incl (k : key) (d : list (key * V)) (x : key) :
  In x (map fst (dict_del k d)) -> In x (map fst d).
Proof.
  induction d as [|[k' v'] d IH]; simpl; [tauto|].
  destruct (key_eqb k' k); simpl; [tauto|]. intros [H|H]; auto.
Qed.

Lemma dict_del_keys_nodup (k : key) (d : list (key * V)) :
  NoDup (map fst d) -> NoDup (map fst (dict_del k d)).
Proof.
  induction d as [|[k' v'] d IH]; simpl; [auto|].
  intros H. inversion H as [|? ? Hn Hd]; subst.
  destruct (key_eqb k' k); [exact Hd|]. simpl. constructor.
  - intros Hi. apply Hn, (dict_del_keys_incl k d k' Hi).
  - apply IH, Hd.
Qed.

(** What is found after a deletion was there before it. *)
Lemma dict_find_del_some (k k1 : key) (d : list (key * V)) (x : V) :
  NoDup (map fst d) ->
  dict_find k1 (dict_del k d) = Some x -> dict_find k1 d = Some x.
Proof.
  induction d as [|[k' v'] d IH]; simpl; [discriminate|].
  intros H. inversion H as [|? ? Hn Hd]; subst.
  destruct (key_eqb k' k) eqn:E.
  - intros Hf. destruct (key_eqb k' k1) eqn:E1; [|exact Hf].
    apply key_eqb_eq in E1. subst k1. exfalso.
    apply Hn, (dict_find_in k' d x Hf).
  - simpl. destruct (key_eqb k' k1); [auto|]. apply IH, Hd.
Qed.

(** What is found after a store is the value stored or was there before. *)
Lemma cache_store_find (k k1 : key) (v x : V) (c : SimpleCache V) :
  cache_bounded c -> dict_find k (_data c) = None ->
  dict_find k1 (_data (cache_store k v c)) = Some x ->
  (k1 = k /\ x = v) \/ dict_find k1 (_data c) = Some x.
Proof.
  intros (_ & _ & Hnd) Hk.
  assert (Hset : dict_find k1 (dict_set k v (_data c)) = Some x ->
                 (k1 = k /\ x = v) \/ dict_find k1 (_data c) = Some x).
  { destruct (key_eq_dec k1 k) as [->|Hne].
    - rewrite dict_find_set_same. intros [= <-]. left. split; reflexivity.
    - rewrite dict_find_set_other by exact Hne. auto. }
  assert (Hnd' : NoDup (map fst (dict_set k v (_data c)))).
  { rewrite (dict_set_keys_new k v _ Hk). apply NoDup_app; [exact Hnd| |].
    - repeat constructor. intros [].
    - intros y Hy [<-|[]]. exact (dict_find_none_notin k _ Hk Hy). }
  unfold cache_store.
  destruct (Nat.ltb (maxsize c) (length (dict_set k v (_data c))));
    [destruct (_keys c ++ [k]) as [|k0 keys]|]; cbn [_data]; intros H;
    try (apply Hset, H).
  apply Hset, (dict_find_del_some k0 k1 _ x Hnd' H).
Qed.

(** A store keeps the cache within its capacity. *)
Lemma cache_store_bounded (k : key) (v : V) (c : SimpleCache V) :
  cache_bounded c -> dict_find k (_data c) = None ->
  cache_bounded (cache_store k v c) /\
  maxsize (cache_store k v c) = maxsize c.
Proof.
  intros (Hok & Hlen & Hnd) Hk.
  assert (Hok' := cache_store_ok k v c Hok Hk).
  assert (Hnd' : NoDup (map fst (dict_set k v (_data c)))).
  { rewrite (dict_set_keys_new k v _ Hk). apply NoDup_app; [exact Hnd| |].
    - repeat constructor. intros [].
    - intros y Hy [<-|[]]. exact (dict_find_none_notin k _ Hk Hy). }
  destruct Hok as (Hpos & Hkn & Hkl & Hin).
  unfold cache_bounded. split; [split; [exact Hok'|]|].
  - unfold cache_store. rewrite (dict_set_length_new k v _ Hk).
    destruct (Nat.ltb (maxsize c) (S (length (_data c)))) eqn:Hfull.
    + destruct (_keys c ++ [k]) as [|k0 keys] eqn:Hkeys.
      * destruct (_keys c); discriminate.
      * cbn [_data maxsize]. split; [|apply dict_del_keys_nodup, Hnd'].
        assert (Hk0 : dict_find k0 (dict_set k v (_data c)) <> None).
        { destruct (_keys c) as [|k00 ks] eqn:Hks.
          - simpl in Hkl. apply Nat.ltb_lt in Hfull. lia.
          - simpl in Hkeys. injection Hkeys as <- _.
            rewrite dict_find_set_other.
            + apply Hin. left. reflexivity.
            + intros ->. apply (Hin k); [left; reflexivity|exact Hk]. }
        pose proof (dict_del_length k0 _ Hk0) as Hd.
        rewrite (dict_set_length_new k v _ Hk) in Hd. lia.
    + cbn [_data maxsize]. apply Nat.ltb_ge in Hfull.
      rewrite (dict_set_length_new k v _ Hk). split; [lia|exact Hnd'].
  - unfold cache_store.
    destruct (Nat.ltb _ _); [destruct (_keys c ++ [k])|]; reflexivity.
Qed.

(** Below its capacity a store removes nothing. *)
Lemma cache_store_keeps (k k1 : key) (v : V) (c : SimpleCache V) :
  length (_data c) < maxsize c -> dict_find k (_data c) = None ->
  k1 <> k ->
  dict_find k1 (_data (cache_store k v c)) = dict_find k1 (_data c).
Proof.
  intros Hlen Hk Hne. unfold cache_store.
  rewrite (dict_set_length_new k v _ Hk).
  destruct (Nat.ltb (maxsize c) (S (length (_data c)))) eqn:Hfull;
    [apply Nat.ltb_lt in Hfull; lia|].
  cbn [_data]. apply dict_find_set_other, Hne.
Qed.

Lemma new_cache_bounded (size : nat) :
  0 < size -> cache_bounded (@new_cache V size).
Proof.
  intros H. split; [apply new_cache_ok, H|]. simpl. split; [lia|constructor].
Qed.

End CacheProperties.

Section SessionProperties.

Variable Data : Type.
Variable renderer_render : Data -> Z -> Z -> str.
Variable line_len : str -> Z.

Local Open Scope list_scope.

Lemma without_breaks_app (a b : str) :
  without_breaks (a ++ b) = without_breaks a ++ without_breaks b.
Proof. apply filter_app. Qed.

Lemma without_breaks_newlines (k : str) :
  forallb (one_of [LF]) k = true -> without_breaks k = [].
Proof.
  induction k as [|c k IH]; [reflexivity|]. simpl.
  intros H. apply andb_prop in H. destruct H as [Hc Hk].
  unfold one_of in Hc. simpl in Hc. rewrite orb_false_r in Hc.
  apply N.eqb_eq in Hc. subst c. change (is_linebreak LF) with true.
  apply IH, Hk.
Qed.

(** X12. The lines [render] returns are the renderer's output cut at its
    line boundaries: put end to end they give the output without its
    boundary characters, so no other character is lost or added; no
    line holds a boundary character; and there are no lines at all
    exactly when the output is empty or made of newlines only. *)
Theorem render_lines (c : control Data) (width height : Z) :
  let output := renderer_render (data c) width height in
  let lines := fst (render renderer_render c width height) in
  concat lines = without_breaks output /\
  (forall line ch, In line lines -> In ch line -> is_linebreak ch = false) /\
  (lines = [] <-> forall ch, In ch output -> ch = LF).
Proof.
  intros output lines. subst lines. cbn [render fst]. fold output.
  destruct (rstrip_decompose [LF] output) as (k & E & Hk).
  destruct (splitlines_from_facts (length (rstrip [LF] output))
              (rstrip [LF] output) [] (le_n _)) as [Hc Hl].
  repeat split.
  - unfold splitlines. rewrite Hc. cbn [rev app].
    rewrite E at 2. rewrite without_breaks_app, (without_breaks_newlines k Hk).
    symmetry. apply app_nil_r.
  - intros line ch. apply Hl. intros x [].
  - intros H ch Hi. apply splitlines_nil in H. rewrite H in E.
    cbn [app] in E. rewrite E in Hi. rewrite forallb_forall in Hk.
    apply Hk in Hi. unfold one_of in Hi. simpl in Hi.
    rewrite orb_false_r in Hi. apply N.eqb_eq, Hi.
  - intros H. apply splitlines_nil. unfold rstrip.
    replace (lstrip [LF] (rev output)) with (@nil char); [reflexivity|].
    symmetry. apply lstrip_nil, forallb_forall. intros x Hx.
    apply in_rev in Hx. rewrite (H x Hx). reflexivity.
Qed.

Lemma extra_keys_eq (c c' : control Data) :
  cls c' = cls c -> graphic c' = graphic c -> extra_keys c' = extra_keys c.
Proof. unfold extra_keys. intros -> ->. reflexivity. Qed.

(** [get_rendered_lines], hit or miss. *)
Lemma get_lines_run (c : control Data) (width height : Z) :
  cache_bounded (_format_cache c) ->
  exists lines c',
    get_rendered_lines renderer_render c width height = (lines, c') /\
    cls c' = cls c /\ data c' = data c /\ graphic c' = graphic c /\
    rendered_lines c' = rendered_lines c /\
    _content_cache c' = _content_cache c /\
    cache_bounded (_format_cache c') /\
    maxsize (_format_cache c') = maxsize (_format_cache c) /\
    dict_find (width, extra_keys c) (_data (_format_cache c')) = Some lines /\
    ((dict_find (width, extra_keys c) (_data (_format_cache c)) = Some lines /\
      c' = c) \/
     (dict_find (width, extra_keys c) (_data (_format_cache c)) = None /\
      lines = lines_at renderer_render (data c) width height /\
      rendered c' = (width, height) :: rendered c /\
      _format_cache c'
      = cache_store (width, extra_keys c) lines (_format_cache c))).
Proof.
  intros Hb. unfold get_rendered_lines.
  destruct (dict_find (width, extra_keys c) (_data (_format_cache c)))
    as [lines|] eqn:E.
  - exists lines, c. split; [reflexivity|].
    do 5 (split; [reflexivity|]). split; [exact Hb|].
    split; [reflexivity|]. split; [exact E|]. left. split; reflexivity.
  - cbn [render]. eexists. eexists. split; [reflexivity|].
    cbn [cls data graphic rendered_lines _content_cache _format_cache
         set_format_cache rendered].
    destruct (cache_store_bounded (width, extra_keys c)
                (splitlines (rstrip [LF] (renderer_render (data c) width height)))
                (_format_cache c) Hb E) as [Hb' Hm].
    destruct Hb as (Hok & _).
    destruct (cache_store_new (width, extra_keys c)
                (splitlines (rstrip [LF] (renderer_render (data c) width height)))
                (_format_cache c) Hok E) as [Hs _].
    do 5 (split; [reflexivity|]). split; [exact Hb'|].
    split; [exact Hm|]. split; [exact Hs|]. right.
    split; [reflexivity|]. split; [reflexivity|]. split; reflexivity.
Qed.

Lemma init_coherent (cl : control_class) (d : Data) (g : option bool) :
  coherent renderer_render d (init cl d g).
Proof.
  unfold coherent, init. cbn [data _format_cache _content_cache].
  split; [reflexivity|].
  split; [apply new_cache_bounded; lia|]. split; [reflexivity|].
  split; [apply new_cache_bounded; lia|]. split; [reflexivity|].
  split; intros width ks x H; discriminate H.
Qed.

(** [get_rendered_lines] on a coherent control: the lines are those of a
    rendering at the width asked, made now at the height asked or found
    from an earlier invocation of the renderer. *)
Lemma get_lines_coherent (d : Data) (c : control Data) (width height : Z) :
  coherent renderer_render d c ->
  exists lines c',
    get_rendered_lines renderer_render c width height = (lines, c') /\
    coherent renderer_render d c' /\
    cls c' = cls c /\ graphic c' = graphic c /\
    rendered_lines c' = rendered_lines c /\
    _content_cache c' = _content_cache c /\
    (exists h, lines = lines_at renderer_render d width h /\
               ((h = height /\ rendered c' = (width, height) :: rendered c) \/
                (In (width, h) (rendered c) /\ rendered c' = rendered c))) /\
    dict_find (width, extra_keys c) (_data (_format_cache c')) = Some lines /\
    length (rendered c') <= S (length (rendered c)).
Proof.
  intros (Hd & Hfb & Hfm & Hcb & Hcm & Hf & Hc).
  destruct (get_lines_run c width height Hfb)
    as (lines & c' & Hget & Hcls & Hdata & Hg & Hrl & Hcc & Hfb' & Hfm' & Hfind
        & Hcase).
  exists lines, c'. split; [exact Hget|].
  assert (Hlines :
            exists h, lines = lines_at renderer_render d width h /\
                      ((h = height /\
                        rendered c' = (width, height) :: rendered c) \/
                       (In (width, h) (rendered c) /\
                        rendered c' = rendered c))).
  { destruct Hcase as [[Hhit ->]|(_ & -> & Hr & _)].
    - destruct (Hf width _ lines Hhit) as (h & Hin & ->).
      exists h. split; [reflexivity|]. right. split; [exact Hin|reflexivity].
    - exists height. rewrite Hd. split; [reflexivity|].
      left. split; [reflexivity|exact Hr]. }
  split.
  - unfold coherent. rewrite Hcc, Hfm', Hdata.
    split; [exact Hd|]. split; [exact Hfb'|]. split; [exact Hfm|].
    split; [exact Hcb|]. split; [exact Hcm|]. split; [|exact Hc].
    intros w1 ks L HL.
    destruct Hcase as [[_ ->]|(Hmiss & Hnew & Hr & Hstore)];
      [exact (Hf w1 ks L HL)|].
    rewrite Hstore in HL. rewrite Hr.
    destruct (cache_store_find _ _ _ _ _ Hfb Hmiss HL) as [[Hk ->]|Hold].
    + injection Hk as -> _. exists height.
      split; [left; reflexivity|]. rewrite Hnew, Hd. reflexivity.
    + destruct (Hf w1 ks L Hold) as (h & Hin & ->).
      exists h. split; [right; exact Hin|reflexivity].
  - do 4 (split; [assumption|]). split; [exact Hlines|].
    split; [exact Hfind|].
    destruct Hcase as [[_ ->]|(_ & _ & -> & _)]; simpl; lia.
Qed.

Lemma set_rendered_lines_coherent (d : Data) (l : list str)
    (c : control Data) :
  coherent renderer_render d c ->
  coherent renderer_render d (set_rendered_lines l c).
Proof. intros H. exact H. Qed.

Lemma preferred_height_coherent (d : Data) (c : control Data)
    (width max_available_height : Z) :
  coherent renderer_render d c ->
  let c' := snd (preferred_height renderer_render c width max_available_height) in
  coherent renderer_render d c' /\
  (rendered c' = rendered c \/
   rendered c' = (width, max_available_height) :: rendered c).
Proof.
  intros H c'. subst c'. unfold preferred_height.
  destruct (rendered_lines c); [|split; [exact H|left; reflexivity]].
  destruct (get_lines_coherent d c width max_available_height H)
    as (lines & c1 & -> & Hc1 & _ & _ & _ & _ & (h & _ & Hcase) & _ & _).
  cbn [snd]. split; [exact Hc1|].
  cbn [rendered set_rendered_lines].
  destruct Hcase as [[_ ->]|[_ ->]]; [right|left]; reflexivity.
Qed.

(** [create_content] on a coherent control: the control holds the lines of
    a rendering at the width asked, made in this call or by an earlier
    invocation of the renderer, both caches have an entry for the key,
    and the content counts the lines of a rendering at that width. *)
Lemma create_content_coherent (d : Data) (c : control Data)
    (width height : Z) :
  coherent renderer_render d c ->
  exists content c',
    create_content renderer_render c width height = (content, c') /\
    coherent renderer_render d c' /\
    cls c' = cls c /\ graphic c' = graphic c /\
    (exists h, rendered_lines c' = lines_at renderer_render d width h /\
               ((h = height /\ rendered c' = (width, height) :: rendered c) \/
                (In (width, h) (rendered c) /\ rendered c' = rendered c))) /\
    (exists h, line_count content
               = length (lines_at renderer_render d width h)) /\
    dict_find (width, extra_keys c) (_data (_format_cache c'))
    = Some (rendered_lines c') /\
    dict_find (width, extra_keys c) (_data (_content_cache c')) = Some content /\
    length (rendered c') <= S (length (rendered c)).
Proof.
  intros H. unfold create_content.
  destruct (get_lines_coherent d c width height H)
    as (lines & c1 & -> & Hc1 & Hcls & Hg & _ & Hcc & Hlines & Hfind & Hr).
  assert (Hek : extra_keys (set_rendered_lines lines c1) = extra_keys c)
    by (apply (extra_keys_eq c (set_rendered_lines lines c1)); assumption).
  rewrite Hek. cbn [_content_cache set_rendered_lines rendered_lines].
  destruct (dict_find (width, extra_keys c) (_data (_content_cache c1)))
    as [content|] eqn:E.
  - exists content, (set_rendered_lines lines c1).
    split; [reflexivity|]. split; [exact Hc1|].
    split; [exact Hcls|]. split; [exact Hg|]. split; [exact Hlines|].
    destruct Hc1 as (_ & _ & _ & _ & _ & _ & Hc).
    split; [exact (Hc width _ content E)|].
    split; [exact Hfind|]. split; [exact E|exact Hr].
  - eexists. eexists. split; [reflexivity|].
    destruct Hc1 as (Hd & Hfb & Hfm & Hcb & Hcm & Hf & Hc).
    destruct (cache_store_bounded (width, extra_keys c)
                (mkContent (length lines)) (_content_cache c1) Hcb E)
      as [Hcb' Hcm'].
    destruct Hcb as (Hok & Hrest).
    destruct (cache_store_new (width, extra_keys c)
                (mkContent (length lines)) (_content_cache c1) Hok E)
      as [Hs _].
    assert (Hcount : exists h, line_count (mkContent (length lines))
                               = length (lines_at renderer_render d width h)).
    { destruct Hlines as (h & -> & _). exists h. reflexivity. }
    split.
    + unfold coherent.
      cbn [data _format_cache _content_cache set_content_cache
           set_rendered_lines rendered].
      split; [exact Hd|]. split; [exact Hfb|]. split; [exact Hfm|].
      split; [exact Hcb'|]. split; [congruence|]. split; [exact Hf|].
      intros w1 ks ct Hct.
      destruct (cache_store_find _ _ _ _ _ (conj Hok Hrest) E Hct)
        as [[Hk ->]|Hold]; [|exact (Hc w1 ks ct Hold)].
      injection Hk as -> _. exact Hcount.
    + cbn [cls graphic rendered_lines _format_cache _content_cache
           set_content_cache set_rendered_lines rendered].
      split; [exact Hcls|]. split; [exact Hg|]. split; [exact Hlines|].
      split; [exact Hcount|]. split; [exact Hfind|]. split; [exact Hs|exact Hr].
Qed.

(** One call keeps the caches coherent and invokes the renderer at most
    once, at the width and height it was given, and not at all when it
    asks for no lines. *)
Lemma step_coherent (d : Data) (c : control Data) (x : call) :
  coherent renderer_render d c ->
  coherent renderer_render d (step renderer_render line_len c x) /\
  (rendered (step renderer_render line_len c x) = rendered c \/
   exists w h,
     (x = PreferredHeight w h \/ x = CreateContent w h) /\
     rendered (step renderer_render line_len c x) = (w, h) :: rendered c).
Proof.
  intros H. destruct x as [mw|w h|w h|v]; cbn [step].
  - unfold preferred_width. destruct (map line_len (rendered_lines c));
      split; try exact H; left; reflexivity.
  - destruct (preferred_height_coherent d c w h H) as [Hc [Hr|Hr]].
    + split; [exact Hc|left; exact Hr].
    + split; [exact Hc|]. right. exists w, h. split; [left; reflexivity|exact Hr].
  - destruct (create_content_coherent d c w h H)
      as (ct & c' & -> & Hc' & _ & _ & (h0 & _ & Hcase) & _).
    cbn [snd]. split; [exact Hc'|].
    destruct Hcase as [[_ Hr]|[_ Hr]]; [|left; exact Hr].
    right. exists w, h. split; [right; reflexivity|exact Hr].
  - unfold set_visible. destruct (graphic c); split; try exact H;
      left; reflexivity.
Qed.

(** Any calls keep the caches coherent; the renderer is invoked at most
    once for each call that asks for lines, and only at a width and
    height one of these calls was given. *)
Lemma run_coherent (d : Data) (calls : list call) :
  forall c,
    coherent renderer_render d c ->
    coherent renderer_render d (run renderer_render line_len calls c) /\
    length (rendered (run renderer_render line_len calls c))
    <= length (filter may_render calls) + length (rendered c) /\
    (forall w h,
       In (w, h) (rendered (run renderer_render line_len calls c)) ->
       In (w, h) (rendered c) \/
       In (PreferredHeight w h) calls \/ In (CreateContent w h) calls).
Proof.
  induction calls as [|x calls IH]; intros c H; cbn [run fold_left].
  - split; [exact H|]. split; [simpl; lia|]. intros w h Hin. left. exact Hin.
  - destruct (step_coherent d c x H) as [Hs Hr].
    destruct (IH _ Hs) as (Hc & Hl & Hfrom). split; [exact Hc|].
    unfold run in Hl, Hfrom. split.
    + destruct Hr as [Hr|(w & h & Hx & Hr)]; rewrite Hr in Hl.
      * cbn [filter]. destruct (may_render x); simpl; lia.
      * destruct Hx as [-> | ->]; cbn [filter may_render length] in *; lia.
    + intros w h Hin. destruct (Hfrom w h Hin) as [Hold|[Hp|Hp]].
      * destruct Hr as [Hr|(w0 & h0 & Hx & Hr)]; rewrite Hr in Hold.
        -- left. exact Hold.
        -- destruct Hold as [Heq|Hold]; [|left; exact Hold].
           injection Heq as <- <-. right.
           destruct Hx as [-> | ->]; [left|right]; left; reflexivity.
      * right. left. right. exact Hp.
      * right. right. right. exact Hp.
Qed.

(** X14. Whatever the layout asks of a control after [__init__], in any
    order and with the graphic changing its visibility in between, each
    of its two caches holds at most 20 entries, and the renderer has
    been invoked at most once for each call of [preferred_height] or
    [create_content] made: a call of [preferred_width] or a change of
    visibility invokes it never. *)
Theorem caches_stay_bounded (calls : list call) (cl : control_class)
    (d : Data) (g : option bool) :
  let c := run renderer_render line_len calls (init cl d g) in
  length (_data (_format_cache c)) <= 20 /\
  length (_data (_content_cache c)) <= 20 /\
  length (rendered c) <= length (filter may_render calls).
Proof.
  intros c. subst c.
  destruct (run_coherent d calls (init cl d g) (init_coherent cl d g))
    as ((_ & (_ & Hf & _) & Hfm & (_ & Hc & _) & Hcm & _) & Hr & _).
  rewrite Hfm in Hf. rewrite Hcm in Hc. simpl in Hr.
  split; [exact Hf|]. split; [exact Hc|lia].
Qed.

Lemma set_rendered_lines_same (c : control Data) :
  set_rendered_lines (rendered_lines c) c = c.
Proof. destruct c; reflexivity. Qed.

(** X15. [create_content] asked again at the same width, whatever the
    height, answers with the content it gave before and changes nothing:
    no renderer call, no cache entry, the same lines held. *)
Theorem create_content_again (calls : list call) (cl : control_class)
    (d : Data) (g : option bool) (width height height' : Z) :
  let c := run renderer_render line_len calls (init cl d g) in
  let first := create_content renderer_render c width height in
  create_content renderer_render (snd first) width height' = first.
Proof.
  intros c first. subst first.
  destruct (run_coherent d calls (init cl d g) (init_coherent cl d g))
    as [Hc _]. fold c in Hc.
  destruct (create_content_coherent d c width height Hc)
    as (ct & c' & -> & _ & Hcls & Hg & _ & _ & Hf & Hct & _).
  cbn [snd]. unfold create_content.
  rewrite <- (extra_keys_eq c c' Hcls Hg) in Hf, Hct.
  rewrite (get_lines_hit Data renderer_render c' width height' _ Hf).
  rewrite set_rendered_lines_same, Hct. reflexivity.
Qed.

(** X16. The caches never serve the lines of another width: after any
    calls, the lines a control holds when [create_content] returns are
    those of a rendering of its data at the width asked.  Either the
    renderer is invoked in this call, once, and the lines are those of
    its output at the height of this call; or it is not invoked, and
    the lines are those of an invocation recorded before, at this width
    and at the height given to an earlier call of [preferred_height] or
    [create_content] with this width.  If the renderer's output does
    not depend on the height, they are the lines of this very call's
    rendering, and the line count of the content returned is their
    number. *)
Theorem create_content_lines (calls : list call) (cl : control_class)
    (d : Data) (g : option bool) (width height : Z) :
  let c := run renderer_render line_len calls (init cl d g) in
  let content := fst (create_content renderer_render c width height) in
  let c' := snd (create_content renderer_render c width height) in
  (exists h,
     rendered_lines c' = lines_at renderer_render d width h /\
     ((h = height /\ rendered c' = (width, height) :: rendered c) \/
      (rendered c' = rendered c /\ In (width, h) (rendered c) /\
       (In (PreferredHeight width h) calls \/
        In (CreateContent width h) calls)))) /\
  (height_independent renderer_render ->
   rendered_lines c' = lines_at renderer_render d width height /\
   line_count content = length (rendered_lines c')).
Proof.
  intros c content c'. subst content c'.
  destruct (run_coherent d calls (init cl d g) (init_coherent cl d g))
    as (Hc & _ & Hfrom). fold c in Hc, Hfrom.
  destruct (create_content_coherent d c width height Hc)
    as (ct & c' & -> & _ & _ & _ & (h0 & Hl & Hcase) & (h1 & Hn) & _).
  cbn [fst snd]. split.
  - exists h0. split; [exact Hl|].
    destruct Hcase as [Hnow|[Hin Hr]]; [left; exact Hnow|].
    right. split; [exact Hr|]. split; [exact Hin|].
    destruct (Hfrom width h0 Hin) as [[]|Hcalls]. exact Hcalls.
  - intros Hi.
    assert (Hsame : forall h h', lines_at renderer_render d width h
                                 = lines_at renderer_render d width h').
    { intros h h'. unfold lines_at. rewrite (Hi d width h h'). reflexivity. }
    rewrite Hl, Hn. split; [apply Hsame|]. rewrite (Hsame h1 h0). reflexivity.
Qed.

Lemma negb_neq (v : bool) : negb v <> v.
Proof. destruct v; discriminate. Qed.

(** X13. An image or SVG control with a graphic keys its lines on the
    graphic's visibility as well as on the width: lines cached while
    the graphic is in one state are not used in the other, where the
    control renders again, and they are found again when the graphic
    comes back to the first state.  A markdown, HTML or LaTeX control
    does not look at the graphic: its cached lines are used whatever
    the visibility. *)
Theorem image_lines_follow_visibility (c : control Data) (width h1 h2 : Z)
    (v : bool) (lines : list str) :
  graphic c = Some v ->
  length (_data (_format_cache c)) < maxsize (_format_cache c) ->
  let hidden :=
    get_rendered_lines renderer_render (set_visible (negb v) c) width h1 in
  let back :=
    get_rendered_lines renderer_render (set_visible v (snd hidden)) width h2 in
  (cls c = ImageControl \/ cls c = SVGControl ->
   dict_find (width, [v]) (_data (_format_cache c)) = Some lines ->
   dict_find (width, [negb v]) (_data (_format_cache c)) = None ->
   fst hidden = lines_at renderer_render (data c) width h1 /\
   rendered (snd hidden) = (width, h1) :: rendered c /\
   fst back = lines /\
   rendered (snd back) = rendered (snd hidden)) /\
  (cls c = MarkdownControl \/ cls c = HTMLControl \/ cls c = LatexControl ->
   dict_find (width, []) (_data (_format_cache c)) = Some lines ->
   hidden = (lines, set_visible (negb v) c)).
Proof.
  intros Hg Hlen hidden back. split.
  - intros Hcls Hv Hn.
    assert (Hek : forall (b : bool) (c0 : control Data),
              cls c0 = cls c -> graphic c0 = Some b -> extra_keys c0 = [b]).
    { intros b c0 Hc0 Hg0. unfold extra_keys. rewrite Hc0, Hg0.
      destruct Hcls as [-> | ->]; reflexivity. }
    assert (Hhidden :
              hidden
              = (lines_at renderer_render (data c) width h1,
                 mkControl (cls c) (data c) (Some (negb v)) (rendered_lines c)
                   (cache_store (width, [negb v])
                      (lines_at renderer_render (data c) width h1)
                      (_format_cache c))
                   (_content_cache c) ((width, h1) :: rendered c))).
    { subst hidden. unfold get_rendered_lines, set_visible. rewrite Hg.
      rewrite (Hek (negb v)) by reflexivity.
      cbn [_format_cache]. rewrite Hn. reflexivity. }
    subst back. rewrite Hhidden. cbn [fst snd rendered].
    split; [reflexivity|]. split; [reflexivity|].
    unfold get_rendered_lines, set_visible. cbn [graphic].
    rewrite (Hek v) by reflexivity. cbn [_format_cache].
    rewrite (cache_store_keeps (width, [negb v]) (width, [v]) _ _ Hlen Hn).
    + rewrite Hv. split; reflexivity.
    + intros [= E]. symmetry in E. exact (negb_neq v E).
  - intros Hcls Hv. subst hidden.
    unfold get_rendered_lines, set_visible. rewrite Hg.
    assert (Hek : extra_keys
                    (mkControl (cls c) (data c) (Some (negb v))
                       (rendered_lines c) (_format_cache c)
                       (_content_cache c) (rendered c)) = []).
    { unfold extra_keys. cbn [cls].
      destruct Hcls as [-> | [-> | ->]]; reflexivity. }
    rewrite Hek. cbn [_format_cache]. rewrite Hv. reflexivity.
Qed.

End SessionProperties.

(** An image control that has rendered once at width 80 while its
    graphic was visible. *)
Lemma image_lines_follow_visibility_witness :
  let c := snd (get_rendered_lines echo_renderer
                  (init ImageControl (codes "pixels") (Some true)) 80 24) in
  let hidden := get_rendered_lines echo_renderer (set_visible false c) 80 24 in
  let back :=
    get_rendered_lines echo_renderer (set_visible true (snd hidden)) 80 30 in
  fst hidden = lines_at echo_renderer (data c) 80 24 /\
  rendered (snd hidden) = (80, 24)%Z :: rendered c /\
  fst back = [codes "pixels"] /\
  rendered (snd back) = rendered (snd hidden).
Proof.
  intros c.
  apply (proj1 (image_lines_follow_visibility str echo_renderer c 80 24 30
                  true [codes "pixels"] eq_refl ltac:(vm_compute; lia)));
    [left; reflexivity | reflexivity | reflexivity].
Defined.

(** The sample control, whose renderer gives the text back at every
    height, after a few calls. *)
Lemma create_content_lines_witness :
  let c := run echo_renderer plain_len
             [PreferredHeight 80 24; CreateContent 81 30; Visible false]
             text_control in
  let content := fst (create_content echo_renderer c 80 10) in
  let c' := snd (create_content echo_renderer c 80 10) in
  rendered_lines c' = lines_at echo_renderer (data text_control) 80 10 /\
  line_count content = length (rendered_lines c').
Proof.
  intros c.
  apply (proj2 (create_content_lines str echo_renderer plain_len
                  [PreferredHeight 80 24; CreateContent 81 30; Visible false]
                  MarkdownControl (data text_control) None 80 10)).
  intros d width h h'. reflexivity.
Defined.

(** ** The earlier controls of [control.py] *)

Section LegacyCache.

Context {V : Type}.

Lemma legacy_key_eqb_refl (k : Legacy.key) : Legacy.key_eqb k k = true.
Proof.
  unfold Legacy.key_eqb. destruct (list_eq_dec Z.eq_dec k k); congruence.
Qed.

Lemma legacy_key_eqb_eq (k k' : Legacy.key) :
  Legacy.key_eqb k k' = true -> k = k'.
Proof.
  unfold Legacy.key_eqb. destruct (list_eq_dec Z.eq_dec k k'); congruence.
Qed.

Lemma legacy_find_notin (k : Legacy.key) (d : list (Legacy.key * V)) :
  ~ In k (map fst d) -> Legacy.dict_find k d = None.
Proof.
  induction d as [|[k' v'] d IH]; simpl; [reflexivity|].
  intros H. destruct (Legacy.key_eqb k' k) eqn:E.
  - apply legacy_key_eqb_eq in E. tauto.
  - apply IH. tauto.
Qed.

Lemma legacy_set_keys (k x : Legacy.key) (v : V) (d : list (Legacy.key * V)) :
  In x (map fst (Legacy.dict_set k v d)) -> x = k \/ In x (map fst d).
Proof.
  induction d as [|[k' v'] d IH]; simpl; [intuition auto|].
  destruct (Legacy.key_eqb k' k); simpl; intuition auto.
Qed.

Lemma legacy_del_keys (k x : Legacy.key) (d : list (Legacy.key * V)) :
  In x (map fst (Legacy.dict_del k d)) -> In x (map fst d).
Proof.
  induction d as [|[k' v'] d IH]; simpl; [tauto|].
  destruct (Legacy.key_eqb k' k); simpl; intuition auto.
Qed.

(** The keys after a store are the key stored and keys held before. *)
Lemma legacy_store_keys (k x : Legacy.key) (v : V) (c : Legacy.SimpleCache V) :
  In x (map fst (Legacy._data (Legacy.cache_store k v c))) ->
  x = k \/ In x (map fst (Legacy._data c)).
Proof.
  unfold Legacy.cache_store.
  destruct (Nat.ltb _ _); [destruct (Legacy._keys c ++ [k])|];
    cbn [Legacy._data]; intros H;
    try (apply (legacy_set_keys k x v), H).
  apply (legacy_set_keys k x v), (legacy_del_keys _ _ _ H).
Qed.

End LegacyCache.

Section LegacyLines.

Local Open Scope list_scope.

Lemma split_on_nonempty (sep : char) (s : str) :
  forall cur, split_on sep cur s <> [].
Proof.
  induction s as [|c s IH]; intros cur; simpl; [discriminate|].
  destruct (N.eqb c sep); [discriminate|apply IH].
Qed.

Lemma join_cons (sep : char) (f : str) (fields : list str) :
  fields <> [] ->
  Legacy.join sep (f :: fields) = f ++ sep :: Legacy.join sep fields.
Proof. destruct fields; [congruence|reflexivity]. Qed.

(** Joining the fields of a split gives the text back. *)
Lemma join_split_on (sep : char) (s : str) :
  forall cur, Legacy.join sep (split_on sep cur s) = rev cur ++ s.
Proof.
  induction s as [|c s IH]; intros cur; cbn [split_on].
  - simpl. symmetry. apply app_nil_r.
  - destruct (N.eqb c sep) eqn:E.
    + apply N.eqb_eq in E. subst c.
      rewrite join_cons by apply split_on_nonempty.
      rewrite (IH []). reflexivity.
    + rewrite IH. cbn [rev]. rewrite <- app_assoc. reflexivity.
Qed.

(** No field of a split holds the separator. *)
Lemma split_on_fields (sep : char) (s : str) :
  forall cur, ~ In sep cur ->
    forall f, In f (split_on sep cur s) -> ~ In sep f.
Proof.
  induction s as [|c s IH]; intros cur Hcur f; cbn [split_on].
  - intros [<-|[]] Hi. apply Hcur, in_rev, Hi.
  - destruct (N.eqb c sep) eqn:E.
    + intros [<-|Hf].
      * intros Hi. apply Hcur, in_rev, Hi.
      * apply (IH [] (fun H => H) f Hf).
    + apply IH. intros [->|Hi]; [rewrite N.eqb_refl in E; discriminate|].
      exact (Hcur Hi).
Qed.

End LegacyLines.

Section LegacyProperties.

Variable Data : Type.
Variable renderer_render : Data -> Z -> Z -> str.

Local Open Scope list_scope.

(** X17. The earlier [Control.render] never returns an empty list, not
    even for an empty output: its lines joined by newlines give back the
    output without its trailing white space, and no line holds a
    newline. *)
Theorem legacy_render_lines (c : Legacy.control Data) (width height : Z) :
  let output := renderer_render (Legacy.data c) width height in
  let lines := fst (Legacy.render renderer_render c width height) in
  lines <> [] /\
  Legacy.join LF lines = Legacy.rstrip_space output /\
  (forall line, In line lines -> ~ In LF line).
Proof.
  intros output lines. subst lines. cbn [Legacy.render fst]. fold output.
  unfold split. split; [apply split_on_nonempty|]. split.
  - apply (join_split_on LF _ []).
  - apply split_on_fields. intros [].
Qed.

(** The keys of the format cache after [format_cache_get]. *)
Lemma legacy_get_keys (c : Legacy.control Data) (k x : Legacy.key)
    (width height : Z) :
  let c' := snd (Legacy.format_cache_get renderer_render c k width height) in
  Legacy.cls c' = Legacy.cls c /\ Legacy.cell c' = Legacy.cell c /\
  (In x (map fst (Legacy._data (Legacy._format_cache c'))) ->
   x = k \/ In x (map fst (Legacy._data (Legacy._format_cache c)))).
Proof.
  unfold Legacy.format_cache_get.
  destruct (Legacy.dict_find k (Legacy._data (Legacy._format_cache c)));
    cbn [snd Legacy.render Legacy.set_format_cache Legacy.cls Legacy.cell
         Legacy._format_cache].
  - repeat split. auto.
  - repeat split. apply legacy_store_keys.
Qed.

(** The keys a text control stores lines under: pairs, from
    [preferred_height], and the widths [create_content] was called at. *)
Lemma legacy_text_keys (calls : list Legacy.call) :
  forall (done : list Legacy.call) (c : Legacy.control Data),
    Legacy.cls c = Legacy.RichControl \/ Legacy.cls c = Legacy.HTMLControl ->
    (forall k, In k (map fst (Legacy._data (Legacy._format_cache c))) ->
               length k = 2 \/
               exists w, k = [w] /\
                         existsb (Legacy.creates_at w) done = true) ->
    let c' := Legacy.run renderer_render calls c in
    forall k, In k (map fst (Legacy._data (Legacy._format_cache c'))) ->
              length k = 2 \/
              exists w, k = [w] /\
                        existsb (Legacy.creates_at w) (done ++ calls) = true.
Proof.
  induction calls as [|x calls IH]; intros done c Hcls Hinv c'; subst c'.
  - rewrite app_nil_r. exact Hinv.
  - cbn [Legacy.run fold_left].
    replace (done ++ x :: calls) with ((done ++ [x]) ++ calls)
      by (rewrite <- app_assoc; reflexivity).
    assert (Hold : forall k,
              (length k = 2 \/
               exists w, k = [w] /\ existsb (Legacy.creates_at w) done = true) ->
              length k = 2 \/
              exists w, k = [w] /\
                        existsb (Legacy.creates_at w) (done ++ [x]) = true).
    { intros k [H|(w & -> & H)]; [left; exact H|right]. exists w.
      split; [reflexivity|]. rewrite existsb_app, H. reflexivity. }
    apply (IH (done ++ [x])).
    + destruct x as [w h|w h]; cbn [Legacy.step].
      * unfold Legacy.preferred_height.
        destruct (Legacy.rendered_lines c); [|exact Hcls].
        destruct (Legacy.format_cache_get renderer_render c [w; h] w h)
          as [lines c1] eqn:E.
        destruct (legacy_get_keys c [w; h] [] w h) as (H1 & _).
        rewrite E in H1. cbn [snd] in *. cbn [Legacy.cls Legacy.set_rendered_lines].
        rewrite H1. exact Hcls.
      * unfold Legacy.create_content, Legacy.content_under.
        destruct (legacy_get_keys c [w] [] w h) as (H1 & _).
        destruct (Legacy.format_cache_get renderer_render c [w] w h)
          as [lines c1].
        cbn [snd] in H1.
        destruct Hcls as [Hc|Hc]; rewrite Hc;
          cbn [Legacy._content_cache Legacy.set_rendered_lines];
          destruct (Legacy.dict_find [w] (Legacy._data (Legacy._content_cache c1)));
          cbn [snd Legacy.cls Legacy.set_content_cache Legacy.set_rendered_lines];
          rewrite H1, Hc; auto.
    + intros k. destruct x as [w h|w h]; cbn [Legacy.step].
      * unfold Legacy.preferred_height.
        destruct (Legacy.rendered_lines c);
          [|intros Hk; apply Hold, Hinv, Hk].
        destruct (legacy_get_keys c [w; h] k w h) as (_ & _ & H1).
        destruct (Legacy.format_cache_get renderer_render c [w; h] w h)
          as [lines c1].
        cbn [snd Legacy._format_cache Legacy.set_rendered_lines] in *.
        intros Hk. destruct (H1 Hk) as [->|Hk'];
          [left; reflexivity|apply Hold, Hinv, Hk'].
      * unfold Legacy.create_content, Legacy.content_under.
        destruct (legacy_get_keys c [w] k w h) as (_ & _ & H1).
        destruct (Legacy.format_cache_get renderer_render c [w] w h)
          as [lines c1].
        cbn [snd] in H1.
        destruct Hcls as [Hc|Hc]; rewrite Hc;
          cbn [Legacy._content_cache Legacy.set_rendered_lines];
          destruct (Legacy.dict_find [w] (Legacy._data (Legacy._content_cache c1)));
          cbn [snd Legacy._format_cache Legacy.set_content_cache
               Legacy.set_rendered_lines];
          (intros Hk; destruct (H1 Hk) as [->|Hk'];
           [right; exists w; split; [reflexivity|];
            rewrite existsb_app; cbn [existsb Legacy.creates_at];
            rewrite Z.eqb_refl, orb_true_r; reflexivity
           |apply Hold, Hinv, Hk']).
Qed.

Lemma legacy_get_rendered (c : Legacy.control Data) (k : Legacy.key)
    (width height : Z) :
  let c' := snd (Legacy.format_cache_get renderer_render c k width height) in
  Legacy.rendered c'
  = match Legacy.dict_find k (Legacy._data (Legacy._format_cache c)) with
    | Some _ => Legacy.rendered c
    | None => (width, height) :: Legacy.rendered c
    end.
Proof.
  unfold Legacy.format_cache_get.
  destruct (Legacy.dict_find k (Legacy._data (Legacy._format_cache c)));
    reflexivity.
Qed.

Lemma legacy_content_rendered (c : Legacy.control Data) (k : Legacy.key)
    (width height : Z) :
  let c' := snd (Legacy.content_under renderer_render c k width height) in
  Legacy.cls c' = Legacy.cls c /\
  Legacy.rendered c'
  = match Legacy.dict_find k (Legacy._data (Legacy._format_cache c)) with
    | Some _ => Legacy.rendered c
    | None => (width, height) :: Legacy.rendered c
    end.
Proof.
  unfold Legacy.content_under.
  pose proof (legacy_get_rendered c k width height) as Hr.
  destruct (legacy_get_keys c k [] width height) as (Hc & _).
  destruct (Legacy.format_cache_get renderer_render c k width height)
    as [lines c1].
  cbn [snd] in Hr, Hc.
  cbn [Legacy._content_cache Legacy.set_rendered_lines].
  destruct (Legacy.dict_find k (Legacy._data (Legacy._content_cache c1)));
    cbn [snd Legacy.cls Legacy.rendered Legacy.set_content_cache
         Legacy.set_rendered_lines]; split; assumption.
Qed.

Lemma legacy_step_cls (c : Legacy.control Data) (x : Legacy.call) :
  Legacy.cls (Legacy.step renderer_render c x) = Legacy.cls c.
Proof.
  destruct x as [w h|w h]; cbn [Legacy.step].
  - unfold Legacy.preferred_height.
    destruct (Legacy.rendered_lines c); [|reflexivity].
    destruct (legacy_get_keys c [w; h] [] w h) as (Hc & _).
    destruct (Legacy.format_cache_get renderer_render c [w; h] w h)
      as [lines c1].
    exact Hc.
  - unfold Legacy.create_content.
    destruct (Legacy.cls c) eqn:E.
    + destruct (legacy_content_rendered c [w] w h) as (Hc & _).
      destruct (Legacy.content_under renderer_render c [w] w h).
      cbn [snd] in *. congruence.
    + destruct (legacy_content_rendered c [w] w h) as (Hc & _).
      destruct (Legacy.content_under renderer_render c [w] w h).
      cbn [snd] in *. congruence.
    + destruct (Legacy.cell c) as [b|]; [|exact E].
      destruct (legacy_content_rendered c [Legacy.key_of_bool b; w] w h)
        as (Hc & _).
      destruct (Legacy.content_under renderer_render c _ w h).
      cbn [snd] in *. congruence.
    + destruct (Legacy.cell c) as [b|]; [|exact E].
      destruct (legacy_content_rendered c [Legacy.key_of_bool b; w] w h)
        as (Hc & _).
      destruct (Legacy.content_under renderer_render c _ w h).
      cbn [snd] in *. congruence.
Qed.

Lemma legacy_run_cls (calls : list Legacy.call) :
  forall c, Legacy.cls (Legacy.run renderer_render calls c) = Legacy.cls c.
Proof.
  induction calls as [|x calls IH]; intros c; cbn [Legacy.run fold_left];
    [reflexivity|].
  unfold Legacy.run in IH. rewrite IH. apply legacy_step_cls.
Qed.

(** X18. A rich or HTML control of [control.py] stores the lines of
    [preferred_height] under the pair of width and height and looks up
    those of [create_content] under the width alone, so the two never
    share a rendering: whatever [preferred_height] calls came before,
    the first [create_content] at a width calls the renderer, also when
    [preferred_height] has just rendered at the same width and height. *)
Theorem legacy_lines_not_shared (calls : list Legacy.call)
    (cl : Legacy.control_class) (d : Data) (cell : option bool)
    (width height : Z) :
  cl = Legacy.RichControl \/ cl = Legacy.HTMLControl ->
  existsb (Legacy.creates_at width) calls = false ->
  let c := Legacy.run renderer_render calls (Legacy.init cl d cell) in
  Legacy.rendered (snd (Legacy.create_content renderer_render c width height))
  = (width, height) :: Legacy.rendered c.
Proof.
  intros Hcl Hnone c.
  assert (Hcls : Legacy.cls c = cl) by (subst c; apply legacy_run_cls).
  assert (Hmiss : Legacy.dict_find [width]
                    (Legacy._data (Legacy._format_cache c)) = None).
  { apply legacy_find_notin. intros Hin.
    destruct (legacy_text_keys calls [] (Legacy.init cl d cell) Hcl
                (fun k (H : In k []) => match H with end) [width] Hin)
      as [Hl|(w & [= <-] & Hw)]; [discriminate Hl|].
    cbn [app] in Hw. congruence. }
  unfold Legacy.create_content. rewrite Hcls.
  destruct (legacy_content_rendered c [width] width height) as (_ & Hr).
  rewrite Hmiss in Hr.
  destruct (Legacy.content_under renderer_render c [width] width height).
  cbn [snd] in *. destruct Hcl as [-> | ->]; exact Hr.
Qed.

(** X19. An image or SVG control of [control.py] looks up the lines of
    [create_content] under the pair of the cell's obscured flag and the
    width, and a flag counts as 0 or 1 among the keys.  The lines
    [preferred_height] stored for width 0 or 1 and height [h] are
    therefore taken for those of width [h] when the flag has that
    value: [create_content] at width [h] returns them and calls no
    renderer. *)
Theorem legacy_image_key_collision (cl : Legacy.control_class) (d : Data)
    (obscured : bool) (width height : Z) :
  cl = Legacy.ImageControl \/ cl = Legacy.SVGControl ->
  let narrow := Legacy.key_of_bool obscured in
  let c1 := snd (Legacy.preferred_height renderer_render
                   (Legacy.init cl d (Some obscured)) narrow width) in
  let r := Legacy.create_content renderer_render c1 width height in
  Legacy.rendered (snd r) = [(narrow, width)] /\
  Legacy.rendered_lines (snd r)
  = split LF (Legacy.rstrip_space (renderer_render d narrow width)) /\
  fst r = inl (Control.mkContent (length (Legacy.rendered_lines (snd r)))).
Proof.
  intros Hcl narrow c1 r.
  assert (Hc1 :
    c1 = Legacy.mkControl Data cl d (Some obscured)
           (split LF (Legacy.rstrip_space (renderer_render d narrow width)))
           (Legacy.mkCache
              [([narrow; width],
                split LF (Legacy.rstrip_space (renderer_render d narrow width)))]
              [[narrow; width]] 20)
           (Legacy.mkCache [] [] 20) [(narrow, width)]) by reflexivity.
  clearbody c1. subst c1 r.
  assert (Hgoal :
    let r := Legacy.content_under renderer_render
               (Legacy.mkControl Data cl d (Some obscured)
                  (split LF (Legacy.rstrip_space (renderer_render d narrow width)))
                  (Legacy.mkCache
                     [([narrow; width],
                       split LF (Legacy.rstrip_space
                                   (renderer_render d narrow width)))]
                     [[narrow; width]] 20)
                  (Legacy.mkCache [] [] 20) [(narrow, width)])
               [narrow; width] width height in
    Legacy.rendered (snd r) = [(narrow, width)] /\
    Legacy.rendered_lines (snd r)
    = split LF (Legacy.rstrip_space (renderer_render d narrow width)) /\
    fst r = Control.mkContent (length (Legacy.rendered_lines (snd r)))).
  { unfold Legacy.content_under, Legacy.format_cache_get.
    cbn [Legacy._format_cache Legacy._data Legacy.dict_find].
    rewrite legacy_key_eqb_refl.
    cbn [Legacy.set_rendered_lines Legacy._content_cache Legacy._data
         Legacy.dict_find Legacy.rendered_lines fst snd Legacy.rendered
         Legacy.set_content_cache].
    repeat split. }
  unfold Legacy.create_content. cbn [Legacy.cls Legacy.cell].
  fold narrow.
  destruct Hcl as [-> | ->];
    destruct (Legacy.content_under renderer_render _ [narrow; width] width height)
      as [content c2];
    cbn [fst snd] in *; destruct Hgoal as (H1 & H2 & H3);
    (split; [exact H1|split; [exact H2|rewrite H3; reflexivity]]).
Qed.

End LegacyProperties.

(** One [preferred_height], then [create_content] with the same width and
    height: two renderer calls with the same arguments. *)
Lemma legacy_lines_not_shared_witness :
  let c := Legacy.run echo_renderer [Legacy.PreferredHeight 80 24]
             (Legacy.init Legacy.RichControl (codes "text") None) in
  Legacy.rendered (snd (Legacy.create_content echo_renderer c 80 24))
  = [(80, 24)%Z; (80, 24)%Z].
Proof.
  intros c.
  apply (legacy_lines_not_shared str echo_renderer
           [Legacy.PreferredHeight 80 24] Legacy.RichControl (codes "text")
           None 80 24);
    [left; reflexivity | reflexivity].
Defined.

(** An obscured image whose height was asked at width 1 with 80 rows
    to spare, then drawn at width 80. *)
Lemma legacy_image_key_collision_witness :
  let c1 := snd (Legacy.preferred_height echo_renderer
                   (Legacy.init Legacy.ImageControl (codes "pixels") (Some true))
                   1 80) in
  let r := Legacy.create_content echo_renderer c1 80 24 in
  Legacy.rendered (snd r) = [(1, 80)%Z] /\
  Legacy.rendered_lines (snd r)
  = split LF (Legacy.rstrip_space (echo_renderer (codes "pixels") 1 80)) /\
  fst r = inl (Control.mkContent (length (Legacy.rendered_lines (snd r)))).
Proof.
  apply (legacy_image_key_collision str echo_renderer Legacy.ImageControl
           (codes "pixels") true 80 24).
  left. reflexivity.
Defined.

(** ** The utilities of [core/utils.py] *)

Section ChainedListProperties.

Variable T : Type.

Local Open Scope list_scope.

(** Indexing, case by case. *)
Lemma list_getitem_cases (l : list T) (i : Z) :
  let n := Z.of_nat (length l) in
  ((0 <= i < n)%Z -> Utils.list_getitem l i = nth_error l (Z.to_nat i)) /\
  ((- n <= i < 0)%Z ->
   Utils.list_getitem l i = nth_error l (Z.to_nat (i + n))) /\
  ((i < - n \/ n <= i)%Z -> Utils.list_getitem l i = None).
Proof.
  intros n. unfold Utils.list_getitem. fold n. cbv zeta.
  destruct (Z.ltb i 0) eqn:E0; cbv iota.
  - apply Z.ltb_lt in E0.
    destruct (Z.ltb (i + n) 0) eqn:E1.
    + apply Z.ltb_lt in E1. cbn [orb].
      repeat split; intros; try lia; reflexivity.
    + apply Z.ltb_ge in E1. cbn [orb].
      destruct (Z.leb n (i + n)) eqn:E2.
      * apply Z.leb_le in E2. lia.
      * repeat split; intros; try lia; reflexivity.
  - rewrite E0. apply Z.ltb_ge in E0. cbn [orb].
    destruct (Z.leb n i) eqn:E2.
    + apply Z.leb_le in E2. repeat split; intros; try lia; reflexivity.
    + apply Z.leb_gt in E2. repeat split; intros; try lia; reflexivity.
Qed.

Lemma chained_len_app (h : Utils.store T) (a b : Utils.ChainedList) :
  Utils.__len__ h (a ++ b) = Utils.__len__ h a + Utils.__len__ h b.
Proof.
  unfold Utils.__len__, Utils.data. rewrite map_app, concat_app.
  apply length_app.
Qed.

Lemma chained_len_one (h : Utils.store T) (a : nat) :
  Utils.__len__ h [a] = length (h a).
Proof.
  unfold Utils.__len__, Utils.data. simpl. rewrite app_nil_r. reflexivity.
Qed.

(** The element [j] of a list of the chain, in the chain. *)
Lemma chained_nth (h : Utils.store T) (pre : Utils.ChainedList) (a : nat)
    (post : Utils.ChainedList) (j : nat) :
  j < length (h a) ->
  nth_error (Utils.data h (pre ++ a :: post)) (Utils.__len__ h pre + j)
  = nth_error (h a) j.
Proof.
  intros Hj. unfold Utils.data. rewrite map_app, concat_app. cbn [map concat].
  rewrite nth_error_app2 by (unfold Utils.__len__, Utils.data; lia).
  replace (Utils.__len__ h pre + j - length (concat (map h pre))) with j
    by (unfold Utils.__len__, Utils.data; lia).
  apply nth_error_app1, Hj.
Qed.

(** The same through [__getitem__]. *)
Lemma chained_getitem_nth (h : Utils.store T) (pre : Utils.ChainedList)
    (a : nat) (post : Utils.ChainedList) (j : nat) :
  j < length (h a) ->
  Utils.__getitem__ h (pre ++ a :: post)
    (Z.of_nat (Utils.__len__ h pre + j))
  = nth_error (h a) j.
Proof.
  intros Hj. unfold Utils.__getitem__.
  assert (Hlen : Utils.__len__ h pre + j
                 < Utils.__len__ h (pre ++ a :: post)).
  { rewrite chained_len_app. change (a :: post) with ([a] ++ post).
    rewrite chained_len_app, chained_len_one. lia. }
  rewrite (proj1 (list_getitem_cases (Utils.data h (pre ++ a :: post)) _))
    by (fold (Utils.__len__ h (pre ++ a :: post)); lia).
  rewrite Nat2Z.id. apply chained_nth, Hj.
Qed.

(** X20. A [ChainedList] is indexed through its lists in order: the
    element [j] of one of its lists is found at [j] plus the lengths of
    the lists chained before it, the length is the sum of the lengths, a
    negative index counts from the end of the chain, and an index raises
    [IndexError] exactly when it lies outside the whole chain. *)
Theorem chained_list_index (h : Utils.store T) (self : Utils.ChainedList) :
  let n := Z.of_nat (Utils.__len__ h self) in
  (forall pre a post j,
     self = pre ++ a :: post -> j < length (h a) ->
     Utils.__getitem__ h self (Z.of_nat (Utils.__len__ h pre + j))
     = nth_error (h a) j) /\
  Utils.__len__ h self = list_sum (map (fun a => length (h a)) self) /\
  (forall i, (- n <= i < 0)%Z ->
             Utils.__getitem__ h self i = Utils.__getitem__ h self (i + n)) /\
  (forall i, Utils.__getitem__ h self i = None <-> (i < - n \/ n <= i)%Z).
Proof.
  intros n.
  assert (Hc := list_getitem_cases (Utils.data h self)).
  fold (Utils.__len__ h self) in Hc. fold n in Hc. cbv zeta in Hc.
  split; [|split; [|split]].
  - intros pre a post j -> Hj. apply chained_getitem_nth, Hj.
  - unfold Utils.__len__, Utils.data. clear n Hc.
    induction self as [|a self IH]; [reflexivity|].
    cbn [map concat list_sum]. rewrite length_app, IH. reflexivity.
  - intros i Hi. unfold Utils.__getitem__.
    rewrite (proj1 (proj2 (Hc i)) Hi).
    rewrite (proj1 (Hc (i + n)%Z)) by lia. reflexivity.
  - intros i. unfold Utils.__getitem__. split.
    + intros H.
      destruct (Z_lt_ge_dec i (- n)) as [Hlo|Hlo]; [left; exact Hlo|].
      destruct (Z_lt_ge_dec i n) as [Hhi|Hhi]; [|right; lia].
      exfalso. destruct (Z_lt_ge_dec i 0) as [Hneg|Hpos].
      * rewrite (proj1 (proj2 (Hc i))) in H by lia.
        apply nth_error_None in H. fold (Utils.__len__ h self) in H. lia.
      * rewrite (proj1 (Hc i)) in H by lia.
        apply nth_error_None in H. fold (Utils.__len__ h self) in H. lia.
    + apply (proj2 (proj2 (Hc i))).
Qed.

Lemma append_same (a : nat) (x : T) (h : Utils.store T) :
  Utils.append a x h a = h a ++ [x].
Proof. unfold Utils.append. rewrite Nat.eqb_refl. reflexivity. Qed.

Lemma append_other (a b : nat) (x : T) (h : Utils.store T) :
  b <> a -> Utils.append a x h b = h b.
Proof.
  intros H. unfold Utils.append. apply Nat.eqb_neq in H. rewrite H.
  reflexivity.
Qed.

Lemma append_data_other (a : nat) (x : T) (h : Utils.store T)
    (self : Utils.ChainedList) :
  ~ In a self -> Utils.data (Utils.append a x h) self = Utils.data h self.
Proof.
  unfold Utils.data. induction self as [|b self IH]; [reflexivity|].
  intros H. cbn [map concat]. rewrite IH by (intros Hi; apply H; right; exact Hi).
  rewrite append_other by (intros ->; apply H; left; reflexivity).
  reflexivity.
Qed.

(** X21. A [ChainedList] is a view of its lists, not a copy: [data] chains
    them anew at every access.  An element appended to one of the lists
    after the [ChainedList] was made is in the chain, right behind the
    elements that list had at its first place in the chain, and the
    length has grown by one for each place the list has in the chain. *)
Theorem chained_list_is_a_view (h : Utils.store T) (self : Utils.ChainedList)
    (a : nat) (x : T) :
  Utils.__len__ (Utils.append a x h) self
  = Utils.__len__ h self + count_occ Nat.eq_dec self a /\
  (forall pre post,
     self = pre ++ a :: post -> ~ In a pre ->
     Utils.__getitem__ (Utils.append a x h) self
       (Z.of_nat (Utils.__len__ h pre + length (h a)))
     = Some x).
Proof.
  split.
  - unfold Utils.__len__, Utils.data.
    induction self as [|b self IH]; [reflexivity|].
    cbn [map concat count_occ]. rewrite !length_app, IH.
    destruct (Nat.eq_dec b a) as [->|Hne].
    + rewrite append_same, length_app. simpl. lia.
    + rewrite (append_other a b x h Hne). lia.
  - intros pre post -> Hpre.
    assert (Hlen : Utils.__len__ (Utils.append a x h) pre = Utils.__len__ h pre).
    { unfold Utils.__len__. rewrite (append_data_other a x h pre Hpre).
      reflexivity. }
    rewrite <- Hlen.
    rewrite (chained_getitem_nth (Utils.append a x h) pre a post (length (h a)))
      by (rewrite append_same, length_app; simpl; lia).
    rewrite append_same, nth_error_app2 by lia.
    rewrite Nat.sub_diag. reflexivity.
Qed.

End ChainedListProperties.

Section DictMergeProperties.

Variable K : Type.
Variable K_eq_dec : forall a b : K, {a = b} + {a <> b}.
Variable Atom : Type.

Local Open Scope list_scope.

Lemma lookup_setitem_same (k : K) (v : Utils.value K Atom)
    (d : list (K * Utils.value K Atom)) :
  Utils.lookup K_eq_dec k (Utils.setitem K_eq_dec k v d) = Some v.
Proof.
  induction d as [|[k' v'] d IH]; simpl.
  - destruct (K_eq_dec k k); congruence.
  - destruct (K_eq_dec k' k) as [E|E]; simpl;
      destruct (K_eq_dec k' k); congruence.
Qed.

Lemma lookup_setitem_other (k k1 : K) (v : Utils.value K Atom)
    (d : list (K * Utils.value K Atom)) :
  k1 <> k ->
  Utils.lookup K_eq_dec k1 (Utils.setitem K_eq_dec k v d)
  = Utils.lookup K_eq_dec k1 d.
Proof.
  intros Hne. induction d as [|[k' v'] d IH]; simpl.
  - destruct (K_eq_dec k k1); congruence.
  - destruct (K_eq_dec k' k) as [E|E]; simpl.
    + subst k'. destruct (K_eq_dec k k1); congruence.
    + destruct (K_eq_dec k' k1); [reflexivity|exact IH].
Qed.

Lemma lookup_notin (k : K) (d : list (K * Utils.value K Atom)) :
  ~ In k (map fst d) -> Utils.lookup K_eq_dec k d = None.
Proof.
  induction d as [|[k' v'] d IH]; simpl; [reflexivity|].
  intros H. destruct (K_eq_dec k' k); [tauto|]. apply IH. tauto.
Qed.

(** The keys after [d[k] = v]. *)
Lemma setitem_keys (k : K) (v : Utils.value K Atom)
    (d : list (K * Utils.value K Atom)) :
  map fst (Utils.setitem K_eq_dec k v d)
  = if Utils.has_key K_eq_dec k d then map fst d else map fst d ++ [k].
Proof.
  unfold Utils.has_key. induction d as [|[k' v'] d IH]; simpl; [reflexivity|].
  destruct (K_eq_dec k' k); simpl; [reflexivity|]. rewrite IH.
  destruct (Utils.lookup K_eq_dec k d); reflexivity.
Qed.

(** One turn of the loop of [dict_merge]. *)
Lemma dict_merge_cons (target_dict : list (K * Utils.value K Atom)) (k : K)
    (v : Utils.value K Atom) (rest : list (K * Utils.value K Atom)) :
  Utils.dict_merge K_eq_dec target_dict ((k, v) :: rest)
  = Utils.dict_merge K_eq_dec
      (Utils.setitem K_eq_dec k
         match Utils.lookup K_eq_dec k target_dict with
         | Some target_k => Utils.merged K_eq_dec target_k v
         | None => v
         end
         target_dict)
      rest.
Proof.
  cbn [Utils.dict_merge].
  destruct (Utils.lookup K_eq_dec k target_dict); reflexivity.
Qed.


End DictMergeProperties.

